(** * SpotifyProject: the snapshot store, the Collector, the Archiver and the
      metric routines, embedded from the Python sources.

    Conventions of the embedding.
    - A SQL table is the list of its rows, in insertion order.  A PRIMARY KEY
      is a key function on rows; [INSERT OR REPLACE] removes the rows that
      share the key, then appends; a plain [INSERT] on a taken key raises.
    - Python [int] is [Z]. A Python [float] is a rational number or NaN: the
      REAL columns and the metric values that cannot be NaN are exact
      rationals [Qc], the values that can be are [pyfloat]. Rounding is not
      modelled; the comparisons of the sources that rounding can decide are
      stated on the float a library returns, or left out.
    - The upstream API, the clock and standard input are explicit
      arguments, and so are the routines of the data-frame and regression
      libraries whose result is not determined by the sources (the standard
      deviation, the date parser, the linear fit). *)

From Stdlib Require Import QArith Qcanon.
From stdpp Require Import base decidable list strings numbers sorting pretty.

Local Open Scope Z_scope.

(** ** Data model *)

(** The keys of [time_periods] in [fetch_listening_data], in the order the
    dictionary lists them. *)
Inductive time_range := short_term | medium_term | long_term.

#[global] Instance time_range_eq_dec : EqDecision time_range.
Proof. solve_decision. Defined.

Definition time_periods : list time_range := [short_term; medium_term; long_term].

(** An item of [sp.current_user_top_tracks(...)['items']]; [artists] holds
    the [name] of each entry of the item's artist list. *)
Record TrackItem := {
  id : string;
  name : string;
  artists : list string;
  album_name_of : string;
  album_release_date : string;
  item_popularity : Z;
  item_duration_ms : Z;
  item_explicit : bool;
  external_url : string
}.

(** A row of the live table [tracks] ([setup_database]). *)
Record Track := {
  track_id : string;
  track_name : string;
  artist_name : string;
  album_name : string;
  release_date : string;
  popularity : Z;
  duration_ms : Z;
  explicit : bool;
  track_time_range : time_range;
  rank_position : Z;
  collected_date : string;
  spotify_url : string
}.

(** A row of the live table [artists] ([setup_database]). *)
Record Artist := {
  a_artist_name : string;
  a_time_range : time_range;
  track_count : Z;
  total_popularity : Z;
  avg_rank : Qc;
  a_collected_date : string
}.

#[global] Instance Track_eq_dec : EqDecision Track.
Proof. solve_decision. Defined.
#[global] Instance Artist_eq_dec : EqDecision Artist.
Proof. solve_decision. Defined.

(** The live database file: its two tables. *)
Record LiveDB := { tracks : list Track; live_artists : list Artist }.

Definition empty_live : LiveDB := {| tracks := []; live_artists := [] |}.

(** [PRIMARY KEY (track_id, time_range)] and
    [PRIMARY KEY (artist_name, time_range)]. *)
Definition track_key (r : Track) : string * time_range :=
  (track_id r, track_time_range r).
Definition artist_key (r : Artist) : string * time_range :=
  (a_artist_name r, a_time_range r).

(** ** Snapshot store: SQL statements on a keyed table *)

Section table.
Context {Row Key : Type} `{EqDecision Key} (key : Row → Key).

(** [INSERT OR REPLACE INTO tbl ... VALUES row]. *)
Definition insert_or_replace (row : Row) (tbl : list Row) : list Row :=
  filter (λ r, key r ≠ key row) tbl ++ [row].

(** [SELECT * FROM tbl WHERE key = k]. *)
Definition rows_at (k : Key) (tbl : list Row) : list Row :=
  filter (λ r, key r = k) tbl.

(** [df.to_sql(tbl, conn, if_exists='append')]: plain [INSERT]s, row after
    row; a row whose key is taken raises [IntegrityError] ([None]). *)
Fixpoint to_sql_append (rows : list Row) (tbl : list Row) : option (list Row) :=
  match rows with
  | [] => Some tbl
  | r :: rows' =>
      if decide (key r ∈ key <$> tbl) then None
      else to_sql_append rows' (tbl ++ [r])
  end.
End table.

Definition upsertTrack : Track → list Track → list Track :=
  insert_or_replace track_key.
Definition upsertArtist : Artist → list Artist → list Artist :=
  insert_or_replace artist_key.

(** ** Collector: [fetch_listening_data] *)

(** A value of the dictionary [artist_stats]. *)
Record Stats := { count : Z; total_pop : Z; ranks : list Z }.

(** [artist_stats]: a Python dictionary, which iterates in insertion order. *)
Definition artist_stats := list (string * Stats).

Fixpoint dict_get (a : string) (d : artist_stats) : option Stats :=
  match d with
  | [] => None
  | (k, s) :: d' => if decide (k = a) then Some s else dict_get a d'
  end.

Definition new_stats : Stats := {| count := 0; total_pop := 0; ranks := [] |}.

(** [if artist not in artist_stats: artist_stats[artist] = {count: 0, ...}] *)
Definition dict_setdefault (a : string) (d : artist_stats) : artist_stats :=
  match dict_get a d with
  | Some _ => d
  | None => d ++ [(a, new_stats)]
  end.

(** The three in-place updates of [artist_stats[artist]]. *)
Definition bump (pop rank : Z) (s : Stats) : Stats :=
  {| count := count s + 1;
     total_pop := total_pop s + pop;
     ranks := ranks s ++ [rank] |}.

Definition dict_update (a : string) (pop rank : Z) (d : artist_stats) : artist_stats :=
  (λ kv : string * Stats,
     if decide (kv.1 = a) then (kv.1, bump pop rank kv.2) else kv) <$> d.

Definition track_stats (a : string) (pop rank : Z) (d : artist_stats) : artist_stats :=
  dict_update a pop rank (dict_setdefault a d).

(** The tuple bound to the [INSERT OR REPLACE INTO tracks] statement. *)
Definition track_row (w : time_range) (rank : Z) (now : string)
    (artist : string) (track : TrackItem) : Track :=
  {| track_id := id track;
     track_name := name track;
     artist_name := artist;
     album_name := album_name_of track;
     release_date := album_release_date track;
     popularity := item_popularity track;
     duration_ms := item_duration_ms track;
     explicit := item_explicit track;
     track_time_range := w;
     rank_position := rank;
     collected_date := now;
     spotify_url := external_url track |}.

(** [for rank, track in enumerate(tracks['items'], 1)].  The second component
    is [None] when [track['artists'][0]] raises [IndexError]: the loop stops
    there, the rows upserted before stay in the table. *)
Fixpoint track_loop (w : time_range) (now : string) (rank : Z)
    (items : list TrackItem) (tbl : list Track) (st : artist_stats)
    (period_tracks : Z) : list Track * option (artist_stats * Z) :=
  match items with
  | [] => (tbl, Some (st, period_tracks))
  | track :: items' =>
      match artists track with
      | [] => (tbl, None)
      | artist :: _ =>
          track_loop w now (rank + 1) items'
            (upsertTrack (track_row w rank now artist track) tbl)
            (track_stats artist (item_popularity track) rank st)
            (period_tracks + 1)
      end
  end.

Definition sum_Z (l : list Z) : Z := foldr Z.add 0 l.

(** [len(l)] *)
Definition len {A} (l : list A) : Z := Z.of_nat (length l).

(** [sum(stats['ranks']) / len(stats['ranks'])] *)
Definition mean_rank (rs : list Z) : Qc :=
  (Qc_of_Z (sum_Z rs) / Qc_of_Z (Z.of_nat (length rs)))%Qc.

(** The tuple bound to the [INSERT OR REPLACE INTO artists] statement. *)
Definition artist_row (w : time_range) (now : string) (kv : string * Stats) : Artist :=
  {| a_artist_name := kv.1;
     a_time_range := w;
     track_count := count kv.2;
     total_popularity := total_pop kv.2;
     avg_rank := mean_rank (ranks kv.2);
     a_collected_date := now |}.

(** [for artist, stats in artist_stats.items()] *)
Definition artist_loop (w : time_range) (now : string) (st : artist_stats)
    (tbl : list Artist) : list Artist :=
  foldl (λ tbl kv, upsertArtist (artist_row w now kv) tbl) tbl st.

(** What the run prints for a window: the success line or the error line. *)
Inductive message :=
  | Collected (w : time_range) (period_tracks : Z)
  | ErrorFetching (w : time_range).

#[global] Instance message_eq_dec : EqDecision message.
Proof. solve_decision. Defined.

(** The upstream collaborator: [sp.current_user_top_tracks(limit=50,
    time_range=w)] returns the items or raises ([None]). *)
Definition Spotify := time_range → option (list TrackItem).

(** The body of [for time_range, description in time_periods.items()]: the
    [try] block and its [except]. It yields the database, what is printed, and
    what is added to [total_tracks]. *)
Definition fetch_window (sp : Spotify) (now : string) (w : time_range)
    (db : LiveDB) : LiveDB * message * Z :=
  match sp w with
  | None => (db, ErrorFetching w, 0)
  | Some items =>
      match track_loop w now 1 items (tracks db) [] 0 with
      | (tbl, None) =>
          ({| tracks := tbl; live_artists := live_artists db |},
           ErrorFetching w, 0)
      | (tbl, Some (st, period_tracks)) =>
          ({| tracks := tbl;
              live_artists := artist_loop w now st (live_artists db) |},
           Collected w period_tracks, period_tracks)
      end
  end.

Record Run := { run_db : LiveDB; run_messages : list message; total_tracks : Z }.

Definition run_window (sp : Spotify) (now : string) (r : Run) (w : time_range) : Run :=
  let '(db, msg, n) := fetch_window sp now w (run_db r) in
  {| run_db := db;
     run_messages := run_messages r ++ [msg];
     total_tracks := total_tracks r + n |}.

Definition fetch_listening_data (sp : Spotify) (now : string) (db : LiveDB) : Run :=
  foldl (run_window sp now)
    {| run_db := db; run_messages := []; total_tracks := 0 |} time_periods.

(** The rows of a window. *)
Definition tracks_of (w : time_range) (tbl : list Track) : list Track :=
  filter (λ t, track_time_range t = w) tbl.
Definition artists_of (w : time_range) (tbl : list Artist) : list Artist :=
  filter (λ a, a_time_range a = w) tbl.
Definition window_of (w : time_range) (db : LiveDB) : LiveDB :=
  {| tracks := tracks_of w (tracks db);
     live_artists := artists_of w (live_artists db) |}.

(** Grouping the live track table by artist within a window: the rows, and
    the three aggregates of the group. *)
Definition group_rows (w : time_range) (a : string) (tbl : list Track) : list Track :=
  filter (λ t, track_time_range t = w ∧ artist_name t = a) tbl.
Definition group_count (w : time_range) (a : string) (tbl : list Track) : Z :=
  Z.of_nat (length (group_rows w a tbl)).
Definition group_popularity (w : time_range) (a : string) (tbl : list Track) : Z :=
  sum_Z (popularity <$> group_rows w a tbl).
Definition group_mean_rank (w : time_range) (a : string) (tbl : list Track) : Qc :=
  mean_rank (rank_position <$> group_rows w a tbl).

(** An artist row agrees with the track table. *)
Definition derivable (tbl : list Track) (a : Artist) : Prop :=
  track_count a = group_count (a_time_range a) (a_artist_name a) tbl ∧
  total_popularity a = group_popularity (a_time_range a) (a_artist_name a) tbl ∧
  avg_rank a = group_mean_rank (a_time_range a) (a_artist_name a) tbl.

(** The rows the track loop upserts, in order, up to the first item without
    an artist. *)
Fixpoint rows_of_items (w : time_range) (now : string) (rank : Z)
    (items : list TrackItem) : list Track :=
  match items with
  | [] => []
  | track :: items' =>
      match artists track with
      | [] => []
      | artist :: _ =>
          track_row w rank now artist track :: rows_of_items w now (rank + 1) items'
      end
  end.

(** The statistics of an artist over a list of track rows: nothing when the
    artist has no row there. *)
Definition summary (a : string) (rows : list Track) : option Stats :=
  let g := filter (λ t, artist_name t = a) rows in
  if decide (g = []) then None
  else Some {| count := len g;
               total_pop := sum_Z (popularity <$> g);
               ranks := rank_position <$> g |}.

(** A window's pass fails when the fetch raises, or when an item has an empty
    artist list. *)
Definition window_fails (sp : Spotify) (w : time_range) : Prop :=
  match sp w with
  | None => True
  | Some items => Exists (λ track, artists track = []) items
  end.

#[global] Instance window_fails_dec sp w : Decision (window_fails sp w).
Proof. unfold window_fails. destruct (sp w); apply _. Defined.

(** The line a window's pass prints. *)
Definition window_message (sp : Spotify) (w : time_range) : message :=
  if decide (window_fails sp w) then ErrorFetching w
  else Collected w (len (default [] (sp w))).

(** The names [track['artists'][0]['name']] of the items of a response. *)
Definition first_artists (items : list TrackItem) : list string :=
  omap (λ track, head (artists track)) items.

(** The rows of a window that a pass on the response [items] does not
    overwrite: the track rows whose track id the response does not list, and
    the artist rows of the artists that no item lists first. *)
Definition stale_tracks (w : time_range) (items : list TrackItem)
    (tbl : list Track) : list Track :=
  filter (λ t, track_id t ∉ id <$> items) (tracks_of w tbl).
Definition stale_artists (w : time_range) (items : list TrackItem)
    (tbl : list Artist) : list Artist :=
  filter (λ a, a_artist_name a ∉ first_artists items) (artists_of w tbl).

(** ** Historical Archiver: [historical_data_collector.py] *)

(** [date.today()]. [collection_date] is its ['%Y-%m-%d'] rendering,
    [collection_month] its ['%Y-%m'] rendering; both are kept as the numbers
    they print. *)
Record date := { year : Z; month : Z; day : Z }.

#[global] Instance date_eq_dec : EqDecision date.
Proof. solve_decision. Defined.

(** A row of [historical_tracks]: the live columns without [collected_date],
    and the three stamps. *)
Record HistoricalTrack := {
  ht_collection_date : date;
  ht_collection_month : Z * Z;
  ht_collection_year : Z;
  ht_track_id : string;
  ht_track_name : string;
  ht_artist_name : string;
  ht_album_name : string;
  ht_release_date : string;
  ht_popularity : Z;
  ht_duration_ms : Z;
  ht_explicit : bool;
  ht_time_range : time_range;
  ht_rank_position : Z;
  ht_spotify_url : string
}.

(** A row of [historical_artists]. *)
Record HistoricalArtist := {
  ha_collection_date : date;
  ha_collection_month : Z * Z;
  ha_collection_year : Z;
  ha_artist_name : string;
  ha_time_range : time_range;
  ha_track_count : Z;
  ha_total_popularity : Z;
  ha_avg_rank : Qc
}.

(** A row of [collection_log]. *)
Record LogEntry := {
  collection_date : date;
  collection_timestamp : string;
  tracks_collected : Z;
  artists_collected : Z;
  notes : string
}.

#[global] Instance HistoricalTrack_eq_dec : EqDecision HistoricalTrack.
Proof. solve_decision. Defined.
#[global] Instance HistoricalArtist_eq_dec : EqDecision HistoricalArtist.
Proof. solve_decision. Defined.
#[global] Instance LogEntry_eq_dec : EqDecision LogEntry.
Proof. solve_decision. Defined.

(** The historical database file ([setup_historical_database]). *)
Record HistDB := {
  historical_tracks : list HistoricalTrack;
  historical_artists : list HistoricalArtist;
  collection_log : list LogEntry
}.

Definition empty_hist : HistDB :=
  {| historical_tracks := []; historical_artists := []; collection_log := [] |}.

(** The three primary keys of [setup_historical_database]. *)
Definition historical_track_key (r : HistoricalTrack) : date * string * time_range :=
  (ht_collection_date r, ht_track_id r, ht_time_range r).
Definition historical_artist_key (r : HistoricalArtist) : date * string * time_range :=
  (ha_collection_date r, ha_artist_name r, ha_time_range r).
Definition log_key (e : LogEntry) : date := collection_date e.

(** [ORDER BY time_range, rank_position]: the TEXT column sorts as
    ['long_term' < 'medium_term' < 'short_term']. *)
Definition time_range_rank (w : time_range) : Z :=
  match w with long_term => 0 | medium_term => 1 | short_term => 2 end.

Definition tracks_order (t1 t2 : Track) : Prop :=
  time_range_rank (track_time_range t1) < time_range_rank (track_time_range t2) ∨
  (time_range_rank (track_time_range t1) = time_range_rank (track_time_range t2) ∧
   rank_position t1 ≤ rank_position t2).

(** [ORDER BY time_range, track_count DESC] *)
Definition artists_order (a1 a2 : Artist) : Prop :=
  time_range_rank (a_time_range a1) < time_range_rank (a_time_range a2) ∨
  (time_range_rank (a_time_range a1) = time_range_rank (a_time_range a2) ∧
   track_count a2 ≤ track_count a1).

#[global] Instance tracks_order_dec : RelDecision tracks_order.
Proof. intros t1 t2. unfold tracks_order. apply _. Defined.
#[global] Instance artists_order_dec : RelDecision artists_order.
Proof. intros a1 a2. unfold artists_order. apply _. Defined.

(** [collect_current_data]: the two ordered [SELECT *], and [(None, None)]
    when the track frame is empty. *)
Definition collect_current_data (live : LiveDB) : option (list Track * list Artist) :=
  let tracks_df := merge_sort tracks_order (tracks live) in
  let artists_df := merge_sort artists_order (live_artists live) in
  match tracks_df with
  | [] => None
  | _ => Some (tracks_df, artists_df)
  end.

(** [tracks_clean]: [collected_date] dropped, the three stamps added. *)
Definition stamp_track (today : date) (t : Track) : HistoricalTrack :=
  {| ht_collection_date := today;
     ht_collection_month := (year today, month today);
     ht_collection_year := year today;
     ht_track_id := track_id t;
     ht_track_name := track_name t;
     ht_artist_name := artist_name t;
     ht_album_name := album_name t;
     ht_release_date := release_date t;
     ht_popularity := popularity t;
     ht_duration_ms := duration_ms t;
     ht_explicit := explicit t;
     ht_time_range := track_time_range t;
     ht_rank_position := rank_position t;
     ht_spotify_url := spotify_url t |}.

(** [artists_clean] *)
Definition stamp_artist (today : date) (a : Artist) : HistoricalArtist :=
  {| ha_collection_date := today;
     ha_collection_month := (year today, month today);
     ha_collection_year := year today;
     ha_artist_name := a_artist_name a;
     ha_time_range := a_time_range a;
     ha_track_count := track_count a;
     ha_total_popularity := total_popularity a;
     ha_avg_rank := avg_rank a |}.

(** [log_data] *)
Definition log_data (today : date) (timestamp : string) (n m : Z) : LogEntry :=
  {| collection_date := today;
     collection_timestamp := timestamp;
     tracks_collected := n;
     artists_collected := m;
     notes := "Automated collection - " +:+ pretty n +:+ " tracks, "
              +:+ pretty m +:+ " artist entries" |}.

(** [str.lower()] on the ASCII letters. *)
Definition lower_ascii (c : Ascii.ascii) : Ascii.ascii :=
  let n := Ascii.N_of_ascii c in
  if ((65 <=? n) && (n <=? 90))%N then Ascii.ascii_of_N (n + 32) else c.

Fixpoint lower (s : string) : string :=
  match s with
  | EmptyString => EmptyString
  | String c s' => String (lower_ascii c) (lower s')
  end.

(** The three [DELETE FROM ... WHERE collection_date = ?]. *)
Definition delete_date (d : date) (db : HistDB) : HistDB :=
  {| historical_tracks := filter (λ r, ht_collection_date r ≠ d) (historical_tracks db);
     historical_artists := filter (λ r, ha_collection_date r ≠ d) (historical_artists db);
     collection_log := filter (λ e, collection_date e ≠ d) (collection_log db) |}.

(** [SELECT COUNT( * ) FROM collection_log WHERE collection_date = ?] *)
Definition existing (d : date) (db : HistDB) : Z :=
  Z.of_nat (length (rows_at log_key d (collection_log db))).

(** How a call of [store_historical_data] ends: it returns [False] or [True]
    with the database as it then is, or an [INSERT] raises. *)
Inductive outcome :=
  | Returned (stored : bool) (db : HistDB)
  | IntegrityError.

(** Lines 141 to 181: the two frames and the log entry are appended. *)
Definition append_snapshot (today : date) (timestamp : string)
    (tracks_df : list Track) (artists_df : list Artist) (db : HistDB) : outcome :=
  let tracks_clean := stamp_track today <$> tracks_df in
  let artists_clean := stamp_artist today <$> artists_df in
  match to_sql_append historical_track_key tracks_clean (historical_tracks db) with
  | None => IntegrityError
  | Some ht =>
      match to_sql_append historical_artist_key artists_clean (historical_artists db) with
      | None => IntegrityError
      | Some ha =>
          match to_sql_append log_key
                  [log_data today timestamp
                     (Z.of_nat (length tracks_clean))
                     (Z.of_nat (length artists_clean))]
                  (collection_log db) with
          | None => IntegrityError
          | Some lg =>
              Returned true {| historical_tracks := ht;
                               historical_artists := ha;
                               collection_log := lg |}
          end
      end
  end.

(** [store_historical_data(tracks_df, artists_df)]; [response] is the line
    that [input()] reads when the prompt is shown. *)
Definition store_historical_data (today : date) (timestamp : string)
    (response : string) (tracks_df : list Track) (artists_df : list Artist)
    (db : HistDB) : outcome :=
  if decide (0 < existing today db) then
    if decide (lower response ≠ "y") then Returned false db
    else append_snapshot today timestamp tracks_df artists_df (delete_date today db)
  else append_snapshot today timestamp tracks_df artists_df db.

(** What [main] reports. *)
Inductive report := CannotCollect | SuccessfullyStored | FailedToStore.

Inductive main_outcome :=
  | Finished (r : report) (db : HistDB)
  | Uncaught.

(** [main()] of the Archiver: an Archiver run. *)
Definition archiver_main (today : date) (timestamp : string) (response : string)
    (live : LiveDB) (db : HistDB) : main_outcome :=
  match collect_current_data live with
  | None => Finished CannotCollect db
  | Some (tracks_df, artists_df) =>
      match store_historical_data today timestamp response tracks_df artists_df db with
      | Returned true db' => Finished SuccessfullyStored db'
      | Returned false db' => Finished FailedToStore db'
      | IntegrityError => Uncaught
      end
  end.

(** The part of the historical store that belongs to a day, and the rest. *)
Definition on_date (d : date) (db : HistDB) : HistDB :=
  {| historical_tracks := filter (λ r, ht_collection_date r = d) (historical_tracks db);
     historical_artists := filter (λ r, ha_collection_date r = d) (historical_artists db);
     collection_log := filter (λ e, collection_date e = d) (collection_log db) |}.

(** The live tables obey their primary keys. *)
Definition live_keys_unique (live : LiveDB) : Prop :=
  NoDup (track_key <$> tracks live) ∧ NoDup (artist_key <$> live_artists live).

(** A day without a log entry has no historical rows either. *)
Definition logged (db : HistDB) : Prop :=
  (∀ r, r ∈ historical_tracks db →
        ht_collection_date r ∈ collection_date <$> collection_log db) ∧
  (∀ r, r ∈ historical_artists db →
        ha_collection_date r ∈ collection_date <$> collection_log db).

(** What one archive of the frames [tracks_df] and [artists_df] adds. *)
Definition snapshot (today : date) (timestamp : string)
    (tracks_df : list Track) (artists_df : list Artist) : HistDB :=
  {| historical_tracks := stamp_track today <$> tracks_df;
     historical_artists := stamp_artist today <$> artists_df;
     collection_log := [log_data today timestamp (len tracks_df) (len artists_df)] |}.

(** Rows appended table by table. *)
Definition hist_app (db1 db2 : HistDB) : HistDB :=
  {| historical_tracks := historical_tracks db1 ++ historical_tracks db2;
     historical_artists := historical_artists db1 ++ historical_artists db2;
     collection_log := collection_log db1 ++ collection_log db2 |}.

(** ** Metric engine *)

(** [Series.unique()]: the distinct values, in order of first appearance. *)
Fixpoint unique {A} `{EqDecision A} (l : list A) : list A :=
  match l with
  | [] => []
  | x :: l' => x :: filter (λ y, y ≠ x) (unique l')
  end.

(** Python's [a / b] on integers: the exact quotient, [ZeroDivisionError]
    ([None]) when [b] is zero. *)
Definition true_div (a b : Z) : option Qc :=
  if decide (b = 0) then None else Some (Qc_of_Z a / Qc_of_Z b)%Qc.

(** *** [IdentityMoodAnalyzer.calculate_identity_signals] *)

(** The key of [groupby(['track_name', 'artist_name'])]. *)
Definition song_key (t : Track) : string * string := (track_name t, artist_name t).

Definition song_groups (tbl : list Track) : list (string * string) :=
  unique (song_key <$> tbl).

(** [agg({'time_range': 'count'})], renamed [period_count]: the number of
    rows of the group. *)
Definition period_count (tbl : list Track) (k : string * string) : Z :=
  len (filter (λ t, song_key t = k) tbl).

(** [song_persistence[song_persistence['period_count'] >= 2]] *)
Definition persistent_songs (tbl : list Track) : list (string * string) :=
  filter (λ k, 2 ≤ period_count tbl k) (song_groups tbl).

(** [self.tracks[self.tracks['popularity'] < niche_threshold]] *)
Definition niche_tracks (tbl : list Track) : list Track :=
  filter (λ t, popularity t < 50) tbl.

(** [value_counts()]: one entry per distinct value with the number of its
    rows, largest count first. *)
Definition counts_order (x y : string * Z) : Prop := y.2 ≤ x.2.

#[global] Instance counts_order_dec : RelDecision counts_order.
Proof. intros x y. unfold counts_order. apply _. Defined.
#[global] Instance counts_order_total : Total counts_order.
Proof. intros x y. unfold counts_order. lia. Qed.
#[global] Instance counts_order_trans : Transitive counts_order.
Proof. intros x y z. unfold counts_order. lia. Qed.

Definition value_counts (col : list string) : list (string * Z) :=
  merge_sort counts_order
    ((λ a, (a, len (filter (λ b, b = a) col))) <$> unique col).

Record IdentitySignals := {
  persistence_score : Qc;
  niche_percentage : Qc;
  artist_dominance : Qc;
  artist_diversity : Qc
}.

Definition hundred : Qc := Qc_of_Z 100.

(** The returned dictionary; [None] when a division by zero or the
    [.iloc[0]] of an empty series raises. *)
Definition calculate_identity_signals (tbl : list Track) : option IdentitySignals :=
  r1 ← true_div (len (persistent_songs tbl)) (len (song_groups tbl));
  let identity_persistence_score := (r1 * hundred)%Qc in
  r2 ← true_div (len (niche_tracks tbl)) (len tbl);
  let niche_percentage := (r2 * hundred)%Qc in
  let artist_counts := value_counts (artist_name <$> tbl) in
  top ← head artist_counts;
  r3 ← true_div top.2 (len tbl);
  let top_artist_dominance := (r3 * hundred)%Qc in
  r4 ← true_div (len artist_counts) (len tbl);
  Some {| persistence_score := identity_persistence_score;
          niche_percentage := niche_percentage;
          artist_dominance := top_artist_dominance;
          artist_diversity := r4 |}.

(** *** [IdentityMoodAnalyzer.calculate_mood_signals] *)

(** A float that may be NaN: the mean of an empty series and the standard
    deviation of fewer than two values are NaN, and NaN goes through the
    arithmetic that follows. *)
Inductive pyfloat := Finite (q : Qc) | NaN.

#[global] Instance pyfloat_eq_dec : EqDecision pyfloat.
Proof. solve_decision. Defined.

Definition fmul (x y : pyfloat) : pyfloat :=
  match x, y with
  | Finite a, Finite b => Finite (a * b)%Qc
  | _, _ => NaN
  end.



Definition sum_Qc (l : list Qc) : Qc := foldr Qcplus (Q2Qc 0) l.

(** [Series.mean()]: NaN entries are skipped, and the mean of nothing is
    NaN. *)
Definition finite_values (l : list pyfloat) : list Qc :=
  omap (λ x, match x with Finite q => Some q | NaN => None end) l.

Definition series_mean (l : list pyfloat) : pyfloat :=
  match finite_values l with
  | [] => NaN
  | qs => Finite (sum_Qc qs / Qc_of_Z (len qs))%Qc
  end.

(** The returned dictionary. *)
Record MoodSignals := {
  ranking_volatility : pyfloat;
  era_diversity : Z;
  popularity_variance : pyfloat;
  explicit_ratio : pyfloat
}.

Section mood.
(** Two routines of the data-frame library, which is not part of the
    sources: [std], the sample standard deviation of a column of integers
    ([Series.std()] and the [std] of [groupby(...).agg]), and [to_year], the
    year [pd.to_datetime(..., errors='coerce').dt.year] reads in a release
    date, if any. *)
Variable std : list Z → pyfloat.
Variable to_year : string → option Z.

Definition calculate_mood_signals (tbl : list Track) : MoodSignals :=
  let song_rankings :=
    (λ k, (std (rank_position <$> filter (λ t, song_key t = k) tbl),
           len (filter (λ t, song_key t = k) tbl))) <$> song_groups tbl in
  let song_rankings := filter (λ sc, 1 < sc.2) song_rankings in
  let avg_volatility := series_mean (fst <$> song_rankings) in
  let release_years := omap (λ t, to_year (release_date t)) tbl in
  let era_diversity := len (unique release_years) in
  let popularity_std := std (popularity <$> tbl) in
  let explicit_ratio :=
    fmul (series_mean ((λ t, Finite (if explicit t then 1 else 0)%Qc) <$> tbl))
         (Finite hundred) in
  {| ranking_volatility := avg_volatility;
     era_diversity := era_diversity;
     popularity_variance := popularity_std;
     explicit_ratio := explicit_ratio |}.

(** *** [IdentityMoodAnalyzer.identity_vs_mood_classification], lines 151 to
      167: the two composite scores *)

Definition identity_score_of (s : IdentitySignals) : Qc :=
  (persistence_score s * Q2Qc (3 # 10) +
   niche_percentage s * Q2Qc (3 # 10) +
   (hundred - artist_dominance s) * Q2Qc (2 # 10) +
   (artist_diversity s * hundred) * Q2Qc (2 # 10))%Qc.



End mood.

(** *** The sibling computation in [print_advanced_analysis]
      ([song_persistence], lines 300 to 312) *)

(** [agg({'time_range': lambda x: len(x.unique())})] *)
Definition windows_of_song (tbl : list Track) (k : string * string) : list time_range :=
  unique (track_time_range <$> filter (λ t, song_key t = k) tbl).

(** [persistent_songs / total_unique_songs * 100] *)
Definition persistence_rate (tbl : list Track) : option Qc :=
  r ← true_div (len (filter (λ k, 1 < len (windows_of_song tbl k)) (song_groups tbl)))
               (len (song_groups tbl));
  Some (r * hundred)%Qc.

(** *** Artist evolution in [print_advanced_analysis] (lines 249 to 291) *)

Definition period_order (w : time_range) : Z :=
  match w with long_term => 1 | medium_term => 2 | short_term => 3 end.

(** [tracks_df[tracks_df['artist_name'] == artist]] *)
Definition artist_data (tbl : list Track) (artist : string) : list Track :=
  filter (λ t, artist_name t = artist) tbl.

(** [X] and [y] of the fit, row by row. *)
Definition fit_points (rows : list Track) : list (Z * Z) :=
  (λ t, (period_order (track_time_range t), rank_position t)) <$> rows.

(** [LinearRegression().fit(X, y).coef_[0]]: the fit is the regression
    library's, not this repository's, and is an argument of the model. On the
    points it is given it returns a float, which is a rational number, or it
    raises ([None]), and the [except: pass] around the call then leaves the
    artist without a trend. *)
Definition LinearRegression := list (Z * Z) → option Qc.

Record Trend := {
  slope : Qc;
  periods : Z;
  trend_avg_rank : Qc;
  trend_track_count : Z
}.

(** The body of [for artist in tracks_df['artist_name'].unique()]: the entry
    added to [artist_trends], if any. *)
Definition artist_trend (fit : LinearRegression) (tbl : list Track)
    (artist : string) : option Trend :=
  let artist_data := artist_data tbl artist in
  if decide (1 < len (unique (track_time_range <$> artist_data))) then
    if decide (1 < len artist_data) then
      trend_slope ← fit (fit_points artist_data);
      Some {| slope := trend_slope;
              periods := len (unique (track_time_range <$> artist_data));
              trend_avg_rank := mean_rank (rank_position <$> artist_data);
              trend_track_count := len artist_data |}
    else None
  else None.

Definition artist_trends (fit : LinearRegression) (tbl : list Track) :
    list (string * Trend) :=
  omap (λ artist, (λ v, (artist, v)) <$> artist_trend fit tbl artist)
       (unique (artist_name <$> tbl)).

(** Python's [sorted(l, key=...)], which is stable: insertion from the
    right, an element going before its equals. *)
Fixpoint insert_by {A} (le : A → A → Prop) `{!∀ x y, Decision (le x y)}
    (x : A) (s : list A) : list A :=
  match s with
  | [] => [x]
  | y :: s' => if decide (le x y) then x :: s else y :: insert_by le x s'
  end.

Definition sorted_by {A} (le : A → A → Prop) `{!∀ x y, Decision (le x y)}
    (l : list A) : list A :=
  foldr (insert_by le) [] l.

(** [key=lambda x: x[1]['slope']], ascending and with [reverse=True]. *)
Definition slope_le (x y : string * Trend) : Prop := (slope x.2 ≤ slope y.2)%Qc.
Definition slope_ge (x y : string * Trend) : Prop := (slope y.2 ≤ slope x.2)%Qc.

#[global] Instance slope_le_dec x y : Decision (slope_le x y).
Proof. unfold slope_le. apply _. Defined.
#[global] Instance slope_ge_dec x y : Decision (slope_ge x y).
Proof. unfold slope_ge. apply _. Defined.

Definition improving_artists (fit : LinearRegression) (tbl : list Track) :
    list (string * Trend) :=
  sorted_by slope_le
    (filter (λ kv, (slope kv.2 < Qc_of_Z (-1))%Qc) (artist_trends fit tbl)).

Definition declining_artists (fit : LinearRegression) (tbl : list Track) :
    list (string * Trend) :=
  sorted_by slope_ge
    (filter (λ kv, (Qc_of_Z 1 < slope kv.2)%Qc) (artist_trends fit tbl)).

(** ** The metrics in the words of the specification *)

(** The look-back windows in which a (track, artist) pair appears. *)
Definition pair_windows (tbl : list Track) (k : string * string) : list time_range :=
  filter (λ w, Exists (λ t, song_key t = k ∧ track_time_range t = w) tbl)
    time_periods.

(** Distinct pairs in at least two windows over distinct pairs, times 100. *)
Definition spec_persistence_score (tbl : list Track) : option Qc :=
  r ← true_div (len (filter (λ k, 2 ≤ len (pair_windows tbl k)) (song_groups tbl)))
               (len (song_groups tbl));
  Some (r * hundred)%Qc.

Definition mean_Z (l : list Z) : Qc := (Qc_of_Z (sum_Z l) / Qc_of_Z (len l))%Qc.

(** The simple linear-regression slope of [y] against [x]: the sum of the
    products of the deviations from the means over the sum of the squared
    deviations of [x]. *)
Definition regression_slope (pts : list (Z * Z)) : Qc :=
  let mx := mean_Z (fst <$> pts) in
  let my := mean_Z (snd <$> pts) in
  (sum_Qc ((λ p, (Qc_of_Z p.1 - mx) * (Qc_of_Z p.2 - my)) <$> pts) /
   sum_Qc ((λ p, (Qc_of_Z p.1 - mx) * (Qc_of_Z p.1 - mx)) <$> pts))%Qc.

(** The residual sum of squares of the line [y = a + b x] on the points. *)
Definition residual_sum_of_squares (a b : Qc) (pts : list (Z * Z)) : Qc :=
  sum_Qc ((λ p, (Qc_of_Z p.2 - (a + b * Qc_of_Z p.1)) *
                (Qc_of_Z p.2 - (a + b * Qc_of_Z p.1)))%Qc <$> pts).

(** The slope that solves the normal equations of the least-squares line. *)
Definition least_squares_slope (pts : list (Z * Z)) : Qc :=
  let n := len pts in
  let sx := sum_Z (fst <$> pts) in
  let sy := sum_Z (snd <$> pts) in
  let sxy := sum_Z ((λ p, p.1 * p.2) <$> pts) in
  let sxx := sum_Z ((λ p, p.1 * p.1) <$> pts) in
  (Qc_of_Z (n * sxy - sx * sy) / Qc_of_Z (n * sxx - sx * sx))%Qc.

(** The intercept of that line: it goes through the point of the means. *)
Definition least_squares_intercept (pts : list (Z * Z)) : Qc :=
  (mean_Z (snd <$> pts) - least_squares_slope pts * mean_Z (fst <$> pts))%Qc.

(** ** Concrete data for the examples *)

Definition item (i n : string) (arts : list string) (pop : Z) : TrackItem :=
  {| id := i; name := n; artists := arts;
     album_name_of := "Album"; album_release_date := "2020-01-01";
     item_popularity := pop; item_duration_ms := 180000;
     item_explicit := false; external_url := "https://open.spotify.com/track/" +:+ i |}.

(** A first run gets one track of artist X for the last four weeks; a later
    run gets another track of X there. The other windows fail both times. *)
Definition first_fetch : Spotify := λ w,
  match w with
  | short_term => Some [item "A" "Song A" ["X"; "Guest"] 10]
  | _ => None
  end.

Definition second_fetch : Spotify := λ w,
  match w with
  | short_term => Some [item "B" "Song B" ["X"] 20]
  | _ => None
  end.

Definition after_first_run : LiveDB :=
  run_db (fetch_listening_data first_fetch "2024-05-01 10:00:00" empty_live).

Definition after_second_run : LiveDB :=
  run_db (fetch_listening_data second_fetch "2024-06-01 10:00:00" after_first_run).

(** A run in which only the six-month window fails. *)
Definition partial_fetch : Spotify := λ w,
  match w with
  | short_term => Some [item "A" "Song A" ["X"; "Guest"] 10; item "B" "Song B" ["X"] 20]
  | medium_term => None
  | long_term => Some [item "C" "Song C" ["Y"] 70]
  end.

(** The same run with no failure. *)
Definition full_fetch : Spotify := λ w,
  match w with
  | medium_term => Some [item "A" "Song A" ["X"; "Guest"] 10]
  | _ => partial_fetch w
  end.

Definition may_first : date := {| year := 2024; month := 5; day := 1 |}.
Definition june_first : date := {| year := 2024; month := 6; day := 1 |}.

(** A store that archived the first run on the first of May. *)
Definition archived_in_may : HistDB :=
  hist_app empty_hist
    (snapshot may_first "2024-05-01 12:00:00"
       (tracks after_first_run) (live_artists after_first_run)).

Definition row (i n a : string) (w : time_range) (rank pop : Z) : Track :=
  track_row w rank "2024-05-01 10:00:00" a (item i n [a] pop).

(** Two releases of one song, both in the four-week window only. *)
Definition same_song_twice : list Track :=
  [row "id-single" "Song" "X" short_term 1 80;
   row "id-album" "Song" "X" short_term 2 60].

(** Every song in all three windows. *)
Definition all_three_windows : list Track :=
  [row "1" "Song" "X" short_term 1 80; row "2" "Tune" "Y" short_term 2 30;
   row "1" "Song" "X" medium_term 2 80; row "2" "Tune" "Y" medium_term 1 30;
   row "1" "Song" "X" long_term 1 80; row "2" "Tune" "Y" long_term 2 30].

(** The artist of the slope test: rank 40 over several years, rank 10 in the
    last four weeks, no six-month row; and a second artist in one window. *)
Definition rising_artist : list Track :=
  [row "1" "Song" "X" short_term 10 80;
   row "2" "Tune" "Y" short_term 11 30;
   row "1" "Song" "X" long_term 40 80].

(** Four tracks of popularity 10, 40, 60 and 90. *)
Definition four_tracks : list Track :=
  [row "1" "a" "X" short_term 1 10; row "2" "b" "Y" short_term 2 40;
   row "3" "c" "Y" short_term 3 60; row "4" "d" "Z" short_term 4 90].


(** A stand-in for the library's standard deviation: NaN on fewer than two
    values, otherwise the root of the sample variance, exact when that is
    the square of a rational and rounded down to a multiple of
    [1 / (n (n - 1))] when not. *)
Definition std_example (l : list Z) : pyfloat :=
  let n := len l in
  if decide (n < 2) then NaN
  else
    let num := n * sum_Z ((λ x, x * x) <$> l) - sum_Z l * sum_Z l in
    let den := n * (n - 1) in
    Finite (Qc_of_Z (Z.sqrt (num * den)) / Qc_of_Z den)%Qc.

(** A stand-in for the date parser: the year is the number written by the
    first four characters, when they are digits. *)
Definition digit (c : Ascii.ascii) : option Z :=
  let n := Z.of_N (Ascii.N_of_ascii c) in
  if decide (48 ≤ n ≤ 57) then Some (n - 48) else None.

Definition year_of_date (s : string) : option Z :=
  match s with
  | String a (String b (String c (String d _))) =>
      a ← digit a; b ← digit b; c ← digit c; d ← digit d;
      Some (((a * 10 + b) * 10 + c) * 10 + d)
  | _ => None
  end.

(** A fit that returns the float next to -15 whatever the points. *)
Definition fit_example : LinearRegression :=
  λ _, Some (Q2Qc (-14999999999999995 # 1000000000000000)).

(** ** Further routines of the sources *)

(** The count a printed line reports. *)
Definition collected (m : message) : Z :=
  match m with
  | Collected _ n => n
  | ErrorFetching _ => 0
  end.

(** *** [print_listening_summary] *)

(** The three [SELECT COUNT] of the overview. *)
Record Overview := {
  ov_total_tracks : Z;
  ov_unique_songs : Z;
  ov_total_artists : Z
}.

Definition overview (db : LiveDB) : Overview :=
  {| ov_total_tracks := len (tracks db);
     ov_unique_songs := len (unique (track_name <$> tracks db));
     ov_total_artists := len (unique (artist_name <$> tracks db)) |}.

(** A row of the query [SELECT artist_name, SUM(track_count), COUNT(DISTINCT
    time_range), AVG(avg_rank) FROM artists GROUP BY artist_name]. *)
Record ArtistOverall := {
  ao_artist_name : string;
  ao_total_tracks : Z;
  ao_periods : Z;
  ao_overall_avg_rank : Qc
}.

Definition artist_overall (tbl : list Artist) (a : string) : ArtistOverall :=
  let g := filter (λ r, a_artist_name r = a) tbl in
  {| ao_artist_name := a;
     ao_total_tracks := sum_Z (track_count <$> g);
     ao_periods := len (unique (a_time_range <$> g));
     ao_overall_avg_rank := (sum_Qc (avg_rank <$> g) / Qc_of_Z (len g))%Qc |}.

(** [ORDER BY total_tracks DESC] *)
Definition total_tracks_desc (x y : ArtistOverall) : Prop :=
  ao_total_tracks y ≤ ao_total_tracks x.

#[global] Instance total_tracks_desc_dec : RelDecision total_tracks_desc.
Proof. intros x y. unfold total_tracks_desc. apply _. Defined.
#[global] Instance total_tracks_desc_total : Total total_tracks_desc.
Proof. intros x y. unfold total_tracks_desc. lia. Qed.
#[global] Instance total_tracks_desc_trans : Transitive total_tracks_desc.
Proof. intros x y z. unfold total_tracks_desc. lia. Qed.

(** The rows of [TOP ARTISTS OVERALL]: [... LIMIT 10]. *)
Definition top_artists_overall (tbl : list Artist) : list ArtistOverall :=
  take 10 (merge_sort total_tracks_desc
             (artist_overall tbl <$> unique (a_artist_name <$> tbl))).

(** [consistency_emoji] *)
Inductive emoji := Fire | Dizzy | Star.

Definition consistency_emoji (periods : Z) : emoji :=
  if decide (periods = 3) then Fire
  else if decide (periods = 2) then Dizzy else Star.

(** [ORDER BY track_count DESC] *)
Definition track_count_desc (x y : Artist) : Prop := track_count y ≤ track_count x.

#[global] Instance track_count_desc_dec : RelDecision track_count_desc.
Proof. intros x y. unfold track_count_desc. apply _. Defined.
#[global] Instance track_count_desc_total : Total track_count_desc.
Proof. intros x y. unfold track_count_desc. lia. Qed.
#[global] Instance track_count_desc_trans : Transitive track_count_desc.
Proof. intros x y z. unfold track_count_desc. lia. Qed.

(** The rows printed for a period:
    [WHERE time_range = ? ORDER BY track_count DESC LIMIT 5]. *)
Definition top_artists_of_period (tbl : list Artist) (w : time_range) : list Artist :=
  take 5 (merge_sort track_count_desc (artists_of w tbl)).

(** The three primary keys of the historical store hold. *)
Definition hist_keys_unique (db : HistDB) : Prop :=
  NoDup (historical_track_key <$> historical_tracks db) ∧
  NoDup (historical_artist_key <$> historical_artists db) ∧
  NoDup (log_key <$> collection_log db).

(** The store of a run on the first of May that was cut short after the two
    frames were written and before the log entry was. *)
Definition cut_short_in_may : HistDB :=
  {| historical_tracks := historical_tracks archived_in_may;
     historical_artists := historical_artists archived_in_may;
     collection_log := [] |}.

(** *** The categories of [visualize_identity_mood_patterns] *)

(** [df.loc[mask, column] = value] on one row: the value is replaced where
    the mask holds. *)
Definition loc_assign {A} (mask : Prop) `{!Decision mask} (value current : A) : A :=
  if decide mask then value else current.

Inductive identity_category :=
  | Mood_Driven | Strong_Identity | Popular_Favorite | Niche_Discovery.

(** The [identity_category] of the song group [k]: [persistence] is the
    ['count'] of its rows and [popularity] the ['first'] of them, nothing
    for a group without rows. *)
Definition song_identity_category (tbl : list Track) (k : string * string) :
    option identity_category :=
  let persistence := len (filter (λ t, song_key t = k) tbl) in
  popularity ← head (popularity <$> filter (λ t, song_key t = k) tbl);
  let c := Mood_Driven in
  let c := loc_assign (2 ≤ persistence ∧ popularity < 60) Strong_Identity c in
  let c := loc_assign (2 ≤ persistence ∧ 60 ≤ popularity) Popular_Favorite c in
  let c := loc_assign (persistence = 1 ∧ popularity < 40) Niche_Discovery c in
  Some c.

Inductive loyalty_type :=
  | Casual_Listen | Deep_Connection | Consistent_Favorite | Binge_Phase.

(** The [loyalty_type] of an artist: [track_count] is the ['count'] of the
    artist's rows and [period_span] the ['nunique'] of their windows. *)
Definition artist_loyalty_type (tbl : list Track) (artist : string) : loyalty_type :=
  let track_count := len (artist_data tbl artist) in
  let period_span := len (unique (track_time_range <$> artist_data tbl artist)) in
  let l := Casual_Listen in
  let l := loc_assign (5 ≤ track_count ∧ 2 ≤ period_span) Deep_Connection l in
  let l := loc_assign (3 ≤ track_count ∧ 2 ≤ period_span) Consistent_Favorite l in
  let l := loc_assign (5 ≤ track_count ∧ period_span = 1) Binge_Phase l in
  l.

(** *** Release eras in [print_advanced_analysis] (lines 327 to 355) *)

Inductive era :=
  | Classic_Pre_1980 | The_80s | The_90s | The_2000s | The_2010s | The_2020s_plus.

#[global] Instance era_eq_dec : EqDecision era.
Proof. solve_decision. Defined.

(** [categorize_era] *)
Definition categorize_era (year : Z) : era :=
  if decide (year < 1980) then Classic_Pre_1980
  else if decide (year < 1990) then The_80s
  else if decide (year < 2000) then The_90s
  else if decide (year < 2010) then The_2000s
  else if decide (year < 2020) then The_2010s
  else The_2020s_plus.

(** The years of an era, as the chain of comparisons leaves them. *)
Definition era_years (e : era) (year : Z) : Prop :=
  match e with
  | Classic_Pre_1980 => year < 1980
  | The_80s => 1980 ≤ year < 1990
  | The_90s => 1990 ≤ year < 2000
  | The_2000s => 2000 ≤ year < 2010
  | The_2010s => 2010 ≤ year < 2020
  | The_2020s_plus => 2020 ≤ year
  end.

#[global] Instance era_years_dec e year : Decision (era_years e year).
Proof. destruct e; unfold era_years; apply _. Defined.

(** [sort_values('track_count', ascending=False)] *)
Definition era_count_desc (x y : era * Z) : Prop := y.2 ≤ x.2.

#[global] Instance era_count_desc_dec : RelDecision era_count_desc.
Proof. intros x y. unfold era_count_desc. apply _. Defined.
#[global] Instance era_count_desc_total : Total era_count_desc.
Proof. intros x y. unfold era_count_desc. lia. Qed.
#[global] Instance era_count_desc_trans : Transitive era_count_desc.
Proof. intros x y z. unfold era_count_desc. lia. Qed.

(** The years of the rows whose release date has one
    ([dropna(subset=['release_year'])]); [to_year] is the library's date
    parser. *)
Definition release_years (to_year : string → option Z) (tbl : list Track) : list Z :=
  omap (λ t, to_year (release_date t)) tbl.

(** The eras and their [track_count], largest first. The three averages of
    the aggregate are not modelled, and the order among equal counts is the
    sort's. *)
Definition era_analysis (to_year : string → option Z) (tbl : list Track) :
    list (era * Z) :=
  let eras := categorize_era <$> release_years to_year tbl in
  merge_sort era_count_desc
    ((λ e, (e, len (filter (λ x, x = e) eras))) <$> unique eras).

(** * Properties *)

(** ** List filters *)

Section filter_facts.
Context {A : Type} (P : A → Prop) `{!∀ x, Decision (P x)}.

Lemma filter_none (l : list A) : (∀ x, x ∈ l → ¬ P x) → filter P l = [].
Proof.
  induction l as [|x l IH]; intros Hl; [done|].
  rewrite filter_cons_False by (apply Hl; left).
  apply IH. intros y Hy. apply Hl. by right.
Qed.

Lemma filter_all (l : list A) : (∀ x, x ∈ l → P x) → filter P l = l.
Proof.
  induction l as [|x l IH]; intros Hl; [done|].
  rewrite filter_cons_True by (apply Hl; left).
  f_equal. apply IH. intros y Hy. apply Hl. by right.
Qed.

Lemma filter_comm (Q : A → Prop) `{!∀ x, Decision (Q x)} (l : list A) :
  filter P (filter Q l) = filter Q (filter P l).
Proof. rewrite !list_filter_filter. apply list_filter_iff. tauto. Qed.
End filter_facts.

(** ** Keyed tables *)

Section table_facts.
Context {Row Key : Type} `{EqDecision Key} (key : Row → Key).

Lemma rows_at_insert_or_replace_eq row tbl :
  rows_at key (key row) (insert_or_replace key row tbl) = [row].
Proof.
  unfold rows_at, insert_or_replace.
  rewrite filter_app, list_filter_filter.
  rewrite (filter_none _ tbl) by (intros r _ [? ?]; done).
  by rewrite filter_cons_True.
Qed.

Lemma rows_at_insert_or_replace_ne k row tbl :
  key row ≠ k →
  rows_at key k (insert_or_replace key row tbl) = rows_at key k tbl.
Proof.
  intros Hne. unfold rows_at, insert_or_replace.
  rewrite filter_app, list_filter_filter.
  rewrite filter_cons_False, filter_nil, app_nil_r by done.
  apply list_filter_iff. intros r. split; [tauto|].
  intros ->. split; [done|]. congruence.
Qed.

Lemma insert_or_replace_fresh row tbl :
  key row ∉ key <$> tbl → insert_or_replace key row tbl = tbl ++ [row].
Proof.
  intros Hfresh. unfold insert_or_replace. f_equal.
  apply filter_all. intros r Hr Heq.
  apply Hfresh. rewrite <- Heq. by apply list_elem_of_fmap_2.
Qed.

Lemma elem_of_insert_or_replace r row tbl :
  r ∈ insert_or_replace key row tbl → r = row ∨ r ∈ tbl.
Proof.
  unfold insert_or_replace. rewrite elem_of_app, list_elem_of_filter.
  rewrite list_elem_of_singleton. tauto.
Qed.

(** A filter that keeps the new row commutes with the upsert. *)
Lemma filter_insert_or_replace_in (Q : Row → Prop) `{!∀ r, Decision (Q r)} row tbl :
  Q row →
  filter Q (insert_or_replace key row tbl) = insert_or_replace key row (filter Q tbl).
Proof.
  intros HQ. unfold insert_or_replace.
  rewrite filter_app, filter_comm. by rewrite filter_cons_True.
Qed.

(** A filter that drops the new row, and every row of its key, does not
    see the upsert. *)
Lemma filter_insert_or_replace_out (Q : Row → Prop) `{!∀ r, Decision (Q r)} row tbl :
  (∀ r, Q r → key r ≠ key row) →
  filter Q (insert_or_replace key row tbl) = filter Q tbl.
Proof.
  intros HQ. unfold insert_or_replace.
  rewrite filter_app, list_filter_filter.
  rewrite filter_cons_False, filter_nil, app_nil_r by (intros HQr; by apply (HQ row)).
  apply list_filter_iff. intros r. split; [tauto|]. intros Hr. split; [done|].
  by apply HQ.
Qed.

(** An append of rows with fresh, pairwise distinct keys succeeds. *)
Lemma to_sql_append_fresh rows tbl :
  NoDup (key <$> rows) →
  (∀ r, r ∈ rows → key r ∉ key <$> tbl) →
  to_sql_append key rows tbl = Some (tbl ++ rows).
Proof.
  revert tbl. induction rows as [|r rows IH]; intros tbl Hnd Hfresh; simpl.
  { by rewrite app_nil_r. }
  rewrite fmap_cons in Hnd. apply NoDup_cons in Hnd as [Hr Hnd].
  rewrite decide_False by (apply Hfresh; left).
  rewrite IH; [by rewrite <- app_assoc|done|].
  intros r' Hr'. rewrite fmap_app, elem_of_app. intros [Hin|Hin].
  - by apply (Hfresh r'); [right|].
  - simpl in Hin. apply list_elem_of_singleton in Hin.
    apply Hr. rewrite <- Hin. by apply list_elem_of_fmap_2.
Qed.

(** An append onto a taken key raises. *)
Lemma to_sql_append_taken r rows tbl :
  key r ∈ key <$> tbl → to_sql_append key (r :: rows) tbl = None.
Proof. intros Hin. simpl. by rewrite decide_True. Qed.
End table_facts.

(** C2. Upsert is last-write-wins: after two upserts of rows that share the
    key (track identifier, window), respectively (artist name, window), the
    table holds exactly one row under that key, the second one, whatever the
    table held before. *)
Theorem upsert_last_write_wins
    (tbl : list Track) (t1 t2 : Track) (atbl : list Artist) (a1 a2 : Artist) :
  track_key t1 = track_key t2 →
  artist_key a1 = artist_key a2 →
  rows_at track_key (track_key t1) (upsertTrack t2 (upsertTrack t1 tbl)) = [t2] ∧
  rows_at artist_key (artist_key a1) (upsertArtist a2 (upsertArtist a1 atbl)) = [a2].
Proof.
  intros -> ->. split; apply rows_at_insert_or_replace_eq.
Qed.

Lemma upsert_last_write_wins_witness :
  rows_at track_key ("A", short_term)
    (upsertTrack (row "A" "Song A" "X" short_term 3 55)
       (upsertTrack (row "A" "Song A" "X" short_term 1 10) (tracks after_first_run)))
  = [row "A" "Song A" "X" short_term 3 55] ∧
  rows_at artist_key ("X", short_term)
    (upsertArtist (artist_row short_term "later" ("X", {| count := 2; total_pop := 60; ranks := [1; 4] |}))
       (upsertArtist (artist_row short_term "sooner" ("X", {| count := 1; total_pop := 10; ranks := [1] |}))
          (live_artists after_first_run)))
  = [artist_row short_term "later" ("X", {| count := 2; total_pop := 60; ranks := [1; 4] |})].
Proof.
  apply (upsert_last_write_wins (tracks after_first_run)
           (row "A" "Song A" "X" short_term 1 10) (row "A" "Song A" "X" short_term 3 55)
           (live_artists after_first_run)
           (artist_row short_term "sooner" ("X", {| count := 1; total_pop := 10; ranks := [1] |}))
           (artist_row short_term "later" ("X", {| count := 2; total_pop := 60; ranks := [1; 4] |})));
    reflexivity.
Defined.

(** ** Collector: a window's pass touches that window's rows only *)

Lemma tracks_of_upsert_same w t tbl :
  track_time_range t = w →
  tracks_of w (upsertTrack t tbl) = upsertTrack t (tracks_of w tbl).
Proof. intros Hw. by apply filter_insert_or_replace_in. Qed.

Lemma tracks_of_upsert_other w t tbl :
  track_time_range t ≠ w →
  tracks_of w (upsertTrack t tbl) = tracks_of w tbl.
Proof.
  intros Hw. apply filter_insert_or_replace_out.
  intros r Hr Hkey. apply Hw. rewrite <- Hr.
  unfold track_key in Hkey. congruence.
Qed.

Lemma artists_of_upsert_same w a tbl :
  a_time_range a = w →
  artists_of w (upsertArtist a tbl) = upsertArtist a (artists_of w tbl).
Proof. intros Hw. by apply filter_insert_or_replace_in. Qed.

Lemma artists_of_upsert_other w a tbl :
  a_time_range a ≠ w →
  artists_of w (upsertArtist a tbl) = artists_of w tbl.
Proof.
  intros Hw. apply filter_insert_or_replace_out.
  intros r Hr Hkey. apply Hw. rewrite <- Hr.
  unfold artist_key in Hkey. congruence.
Qed.

Lemma track_loop_window w now items : ∀ rank tbl st n,
  track_loop w now rank items (tracks_of w tbl) st n =
  (tracks_of w (track_loop w now rank items tbl st n).1,
   (track_loop w now rank items tbl st n).2).
Proof.
  induction items as [|track items IH]; intros rank tbl st n; simpl; [done|].
  destruct (artists track) as [|artist rest]; [done|].
  rewrite <- IH. by rewrite tracks_of_upsert_same.
Qed.

Lemma track_loop_other w w' now items : ∀ rank tbl st n,
  w ≠ w' →
  tracks_of w' (track_loop w now rank items tbl st n).1 = tracks_of w' tbl.
Proof.
  induction items as [|track items IH]; intros rank tbl st n Hw; simpl; [done|].
  destruct (artists track) as [|artist rest]; [done|].
  rewrite IH by done. by apply tracks_of_upsert_other.
Qed.

Lemma artist_loop_window w now st : ∀ tbl,
  artists_of w (artist_loop w now st tbl) = artist_loop w now st (artists_of w tbl).
Proof.
  unfold artist_loop. induction st as [|kv st IH]; intros tbl; simpl; [done|].
  rewrite IH. by rewrite artists_of_upsert_same.
Qed.

Lemma artist_loop_other w w' now st : ∀ tbl,
  w ≠ w' →
  artists_of w' (artist_loop w now st tbl) = artists_of w' tbl.
Proof.
  unfold artist_loop. induction st as [|kv st IH]; intros tbl Hw; simpl; [done|].
  rewrite IH by done. by apply artists_of_upsert_other.
Qed.

Lemma elem_of_artist_loop w now st : ∀ tbl a,
  a ∈ artist_loop w now st tbl →
  a ∈ tbl ∨ ∃ kv, kv ∈ st ∧ a = artist_row w now kv.
Proof.
  unfold artist_loop. induction st as [|kv st IH]; intros tbl a; simpl; [by left|].
  intros [Ha|(kv' & Hkv' & ->)]%IH.
  - apply elem_of_insert_or_replace in Ha as [->|Ha]; [|by left].
    right. exists kv. split; [left|done].
  - right. exists kv'. split; [by right|done].
Qed.

(** The pass of window [w] on the whole database, seen through [w], is the
    pass on the rows of [w]; what it prints and counts does not depend on
    the database. *)
Lemma fetch_window_same sp now w db :
  fetch_window sp now w (window_of w db) =
  (window_of w (fetch_window sp now w db).1.1,
   (fetch_window sp now w db).1.2,
   (fetch_window sp now w db).2).
Proof.
  unfold fetch_window. destruct (sp w) as [items|]; [|done].
  cbn [tracks live_artists window_of]. rewrite track_loop_window.
  destruct (track_loop w now 1 items (tracks db) [] 0) as [tbl [[st n]|]];
    cbn [fst snd]; [|done].
  unfold window_of. cbn [tracks live_artists fst snd].
  by rewrite artist_loop_window.
Qed.

Lemma fetch_window_other sp now w w' db :
  w ≠ w' →
  window_of w' (fetch_window sp now w db).1.1 = window_of w' db.
Proof.
  intros Hw. unfold fetch_window. destruct (sp w) as [items|]; [|done].
  pose proof (track_loop_other w w' now items 1 (tracks db) [] 0 Hw) as Ht.
  destruct (track_loop w now 1 items (tracks db) [] 0) as [tbl [[st n]|]];
    cbn [fst snd] in *; unfold window_of; cbn [tracks live_artists];
    rewrite Ht; [|done].
  by rewrite artist_loop_other.
Qed.

Lemma run_db_run_window sp now r w :
  run_db (run_window sp now r w) = (fetch_window sp now w (run_db r)).1.1.
Proof. unfold run_window. by destruct (fetch_window sp now w (run_db r)) as [[? ?] ?]. Qed.

Lemma run_messages_run_window sp now r w :
  run_messages (run_window sp now r w) =
  run_messages r ++ [(fetch_window sp now w (run_db r)).1.2].
Proof. unfold run_window. by destruct (fetch_window sp now w (run_db r)) as [[? ?] ?]. Qed.

(** What a window's pass prints depends on the response alone. *)
Lemma fetch_window_message sp now w db db' :
  (fetch_window sp now w db).1.2 = (fetch_window sp now w db').1.2.
Proof.
  pose proof (fetch_window_same sp now w db) as H1.
  unfold fetch_window in *. destruct (sp w) as [items|]; [|done].
  clear H1.
  assert (∀ rank tbl tbl' st n,
    (track_loop w now rank items tbl st n).2 = (track_loop w now rank items tbl' st n).2) as Hindep.
  { clear. induction items as [|track items IH]; intros rank tbl tbl' st n; simpl; [done|].
    destruct (artists track); [done|]. apply IH. }
  specialize (Hindep 1 (tracks db) (tracks db') [] 0).
  destruct (track_loop w now 1 items (tracks db) [] 0) as [tbl [[st n]|]],
           (track_loop w now 1 items (tracks db') [] 0) as [tbl' [[st' n']|]];
    cbn [fst snd] in *; congruence.
Qed.

Lemma fetch_window_db_same sp now w db :
  window_of w (fetch_window sp now w db).1.1 =
  (fetch_window sp now w (window_of w db)).1.1.
Proof. by rewrite fetch_window_same. Qed.

(** The rows of a window after a run are those its own pass leaves, whatever
    the other windows did. *)
Lemma fetch_listening_data_window sp now db w :
  window_of w (run_db (fetch_listening_data sp now db)) =
  (fetch_window sp now w (window_of w db)).1.1.
Proof.
  unfold fetch_listening_data, time_periods. cbn [foldl].
  rewrite !run_db_run_window. cbn [run_db].
  destruct w.
  - rewrite !fetch_window_other by done. apply fetch_window_db_same.
  - rewrite fetch_window_other by done.
    rewrite fetch_window_db_same. by rewrite fetch_window_other.
  - rewrite fetch_window_db_same. by rewrite !fetch_window_other.
Qed.

(** ** Collector: what a run prints *)

Lemma track_loop_result w now items : ∀ rank tbl st n,
  match (track_loop w now rank items tbl st n).2 with
  | None => Exists (λ track, artists track = []) items
  | Some (_, n') => ¬ Exists (λ track, artists track = []) items ∧ n' = n + len items
  end.
Proof.
  induction items as [|track items IH]; intros rank tbl st n; simpl.
  { split; [by inversion 1|]. unfold len. simpl. lia. }
  destruct (artists track) as [|artist rest] eqn:Ha; simpl.
  { by left. }
  specialize (IH (rank + 1) (upsertTrack (track_row w rank now artist track) tbl)
                 (track_stats artist (item_popularity track) rank st) (n + 1)).
  destruct (track_loop _ _ _ items _ _ _).2 as [[st' n']|].
  - destruct IH as [Hno ->]. split.
    + rewrite Exists_cons. intros [Hbad|Hbad]; [congruence|done].
    + unfold len. rewrite length_cons. lia.
  - by right.
Qed.

Lemma fetch_window_prints sp now w db :
  (fetch_window sp now w db).1.2 = window_message sp w.
Proof.
  unfold window_message. case_decide as Hf; unfold window_fails in Hf;
    unfold fetch_window; destruct (sp w) as [items|]; try done.
  - pose proof (track_loop_result w now items 1 (tracks db) [] 0) as Hres.
    destruct (track_loop w now 1 items (tracks db) [] 0) as [tbl [[st n]|]];
      cbn [fst snd] in *; [by destruct Hres|done].
  - pose proof (track_loop_result w now items 1 (tracks db) [] 0) as Hres.
    destruct (track_loop w now 1 items (tracks db) [] 0) as [tbl [[st n]|]];
      cbn [fst snd] in *; [|done].
    destruct Hres as [_ ->]. simpl. f_equal.
Qed.

(** C9. A fetch failure is confined to its window: the run always ends and
    prints one line per window, the error line for exactly the windows whose
    pass failed; a window whose fetch raised keeps the rows it had; and the
    rows a run leaves for a window are the same as in any other run that got
    the same response for that window, whatever happened to the other
    windows there. *)
Theorem fetch_failure_is_per_window
    (sp sp' : Spotify) (now : string) (db : LiveDB) (w : time_range) :
  sp' w = sp w →
  run_messages (fetch_listening_data sp now db) = window_message sp <$> time_periods ∧
  (∀ v, ErrorFetching v ∈ run_messages (fetch_listening_data sp now db) ↔
        window_fails sp v) ∧
  (sp w = None →
   window_of w (run_db (fetch_listening_data sp now db)) = window_of w db) ∧
  window_of w (run_db (fetch_listening_data sp now db)) =
  window_of w (run_db (fetch_listening_data sp' now db)).
Proof.
  intros Hsame.
  assert (run_messages (fetch_listening_data sp now db) =
          window_message sp <$> time_periods) as Hmsg.
  { unfold fetch_listening_data, time_periods. cbn [foldl].
    rewrite !run_messages_run_window, !fetch_window_prints. done. }
  split; [done|]. split; [|split].
  - intros v. rewrite Hmsg. unfold time_periods, window_message.
    rewrite list_elem_of_fmap. split.
    + intros (u & Hu & _). case_decide; [|done]. by inversion Hu; subst.
    + intros Hv. exists v. rewrite decide_True by done.
      split; [done|]. destruct v; [left|right; left|right; right; left].
  - intros Hnone. rewrite fetch_listening_data_window.
    unfold fetch_window. by rewrite Hnone.
  - rewrite !fetch_listening_data_window. unfold fetch_window. by rewrite Hsame.
Qed.

Lemma fetch_failure_is_per_window_witness :
  run_messages (fetch_listening_data partial_fetch "now" after_first_run) =
    window_message partial_fetch <$> time_periods ∧
  (∀ v, ErrorFetching v ∈ run_messages (fetch_listening_data partial_fetch "now" after_first_run) ↔
        window_fails partial_fetch v) ∧
  (partial_fetch long_term = None →
   window_of long_term (run_db (fetch_listening_data partial_fetch "now" after_first_run)) =
   window_of long_term after_first_run) ∧
  window_of long_term (run_db (fetch_listening_data partial_fetch "now" after_first_run)) =
  window_of long_term (run_db (fetch_listening_data full_fetch "now" after_first_run)).
Proof.
  apply (fetch_failure_is_per_window partial_fetch full_fetch "now" after_first_run long_term).
  reflexivity.
Defined.

(** ** Collector: the artist statistics of a window *)

Lemma sum_Z_app l1 l2 : sum_Z (l1 ++ l2) = sum_Z l1 + sum_Z l2.
Proof. unfold sum_Z. induction l1 as [|x l1 IH]; simpl; lia. Qed.

Lemma len_app {A} (l1 l2 : list A) : len (l1 ++ l2) = len l1 + len l2.
Proof. unfold len. rewrite length_app. lia. Qed.

Lemma dict_get_None a d : dict_get a d = None ↔ a ∉ d.*1.
Proof.
  induction d as [|[k s] d IH]; simpl.
  - split; [intros _; apply not_elem_of_nil|done].
  - rewrite not_elem_of_cons. destruct (decide (k = a)) as [->|Hk].
    + split; [done|]. by intros [? _].
    + rewrite IH. split; [intros ?; split; [congruence|done]|by intros [_ ?]].
Qed.

Lemma dict_get_elem_of a s d : NoDup d.*1 → (a, s) ∈ d → dict_get a d = Some s.
Proof.
  induction d as [|[k s'] d IH]; simpl; intros Hnd Hin.
  - by apply elem_of_nil in Hin.
  - apply NoDup_cons in Hnd as [Hk Hnd].
    apply elem_of_cons in Hin as [Heq|Hin].
    + inversion Heq; subst. by rewrite decide_True.
    + rewrite decide_False; [by apply IH|].
      intros ->. apply Hk. by apply (list_elem_of_fmap_2 fst) in Hin.
Qed.

Lemma dict_get_snoc b a z d :
  dict_get b (d ++ [(a, z)]) =
  match dict_get b d with
  | Some s => Some s
  | None => if decide (a = b) then Some z else None
  end.
Proof.
  induction d as [|[k s] d IH]; simpl; [done|].
  destruct (decide (k = b)); [done|apply IH].
Qed.

Lemma dict_get_update b a pop rank d :
  dict_get b (dict_update a pop rank d) =
  if decide (b = a) then bump pop rank <$> dict_get a d else dict_get b d.
Proof.
  unfold dict_update. induction d as [|[k s] d IH].
  { simpl. by case_decide. }
  rewrite fmap_cons. cbn [fst snd].
  destruct (decide (k = a)) as [->|Hk]; cbn [dict_get].
  - destruct (decide (a = b)) as [->|Hab].
    + by rewrite !decide_True.
    + rewrite IH. destruct (decide (b = a)); [congruence|done].
  - destruct (decide (k = b)) as [->|Hkb].
    + destruct (decide (b = a)); [congruence|done].
    + rewrite IH. destruct (decide (b = a)); [|done].
      by rewrite (decide_False (P:=k = a)).
Qed.

Lemma dict_get_track_stats b a pop rank d :
  dict_get b (track_stats a pop rank d) =
  if decide (b = a) then Some (bump pop rank (default new_stats (dict_get a d)))
  else dict_get b d.
Proof.
  unfold track_stats. rewrite dict_get_update.
  unfold dict_setdefault.
  destruct (dict_get a d) as [s|] eqn:Ha.
  - rewrite Ha. done.
  - destruct (decide (b = a)) as [->|Hb].
    + by rewrite dict_get_snoc, Ha, decide_True.
    + rewrite dict_get_snoc. destruct (dict_get b d); [done|].
      destruct (decide (a = b)); [congruence|done].
Qed.

Lemma dict_update_keys a pop rank d : (dict_update a pop rank d).*1 = d.*1.
Proof.
  unfold dict_update. induction d as [|[k s] d IH]; [done|].
  rewrite !fmap_cons, IH. f_equal. cbn [fst snd]. by case_decide.
Qed.

Lemma track_stats_keys_NoDup a pop rank d :
  NoDup d.*1 → NoDup (track_stats a pop rank d).*1.
Proof.
  intros Hnd. unfold track_stats. rewrite dict_update_keys.
  unfold dict_setdefault. destruct (dict_get a d) eqn:Ha; [done|].
  rewrite fmap_app. apply NoDup_app. split; [done|].
  split; [|apply NoDup_singleton].
  intros k Hk ->%list_elem_of_singleton. by apply dict_get_None in Ha.
Qed.

Lemma summary_snoc b rows t :
  summary b (rows ++ [t]) =
  if decide (b = artist_name t)
  then Some (bump (popularity t) (rank_position t) (default new_stats (summary b rows)))
  else summary b rows.
Proof.
  unfold summary. rewrite filter_app.
  destruct (decide (b = artist_name t)) as [->|Hb].
  - rewrite (filter_cons_True _ t) by done. rewrite filter_nil.
    rewrite decide_False by (by destruct (filter _ rows)).
    f_equal. case_decide as Hg.
    + rewrite Hg. unfold bump, len. simpl. f_equal. unfold sum_Z. simpl. lia.
    + unfold bump. simpl. rewrite len_app, !fmap_app, sum_Z_app.
      f_equal. unfold sum_Z, len. simpl. lia.
  - rewrite (filter_cons_False _ t) by congruence. by rewrite filter_nil, app_nil_r.
Qed.

Lemma track_loop_stats w now items : ∀ rank tbl st n pre st' n',
  (∀ a, dict_get a st = summary a pre) →
  (track_loop w now rank items tbl st n).2 = Some (st', n') →
  ∀ a, dict_get a st' = summary a (pre ++ rows_of_items w now rank items).
Proof.
  induction items as [|track items IH]; intros rank tbl st n pre st' n' Hinv; simpl.
  { intros [= <- <-] a. by rewrite app_nil_r. }
  destruct (artists track) as [|artist rest] eqn:Ha; [done|].
  intros Hloop a.
  assert (∀ b, dict_get b (track_stats artist (item_popularity track) rank st) =
               summary b (pre ++ [track_row w rank now artist track])) as Hstep.
  { intros b. rewrite dict_get_track_stats, summary_snoc. simpl.
    case_decide; [|done]. subst. by rewrite Hinv. }
  rewrite (IH _ _ _ _ _ _ _ Hstep Hloop). by rewrite <- app_assoc.
Qed.

Lemma track_loop_keys_NoDup w now items : ∀ rank tbl st n st' n',
  NoDup st.*1 →
  (track_loop w now rank items tbl st n).2 = Some (st', n') →
  NoDup st'.*1.
Proof.
  induction items as [|track items IH]; intros rank tbl st n st' n' Hnd; simpl.
  { by intros [= <- <-]. }
  destruct (artists track) as [|artist rest]; [done|].
  apply IH. by apply track_stats_keys_NoDup.
Qed.

Lemma elem_of_track_loop w now items : ∀ rank tbl st n t,
  t ∈ (track_loop w now rank items tbl st n).1 →
  t ∈ tbl ∨ t ∈ rows_of_items w now rank items.
Proof.
  induction items as [|track items IH]; intros rank tbl st n t; simpl; [by left|].
  destruct (artists track) as [|artist rest]; [by left|].
  intros [Ht|Ht]%IH.
  - apply elem_of_insert_or_replace in Ht as [->|Ht]; [right; left|by left].
  - right. by right.
Qed.

Lemma elem_of_rows_of_items w now items : ∀ rank t,
  t ∈ rows_of_items w now rank items →
  ∃ (i : nat) track artist rest,
    items !! i = Some track ∧ artists track = artist :: rest ∧
    t = track_row w (rank + Z.of_nat i) now artist track.
Proof.
  induction items as [|track items IH]; intros rank t; simpl.
  { intros Ht. by apply elem_of_nil in Ht. }
  destruct (artists track) as [|artist rest] eqn:Ha.
  { intros Ht. by apply elem_of_nil in Ht. }
  intros [->|Ht]%elem_of_cons.
  - exists 0%nat, track, artist, rest. split; [done|]. split; [done|].
    f_equal. lia.
  - apply IH in Ht as (i & track' & artist' & rest' & Hi & Ha' & ->).
    exists (S i), track', artist', rest'. split; [done|]. split; [done|].
    f_equal. lia.
Qed.

(** The rows of an artist among the upserted rows are the items that list
    the artist first. *)
Lemma rows_of_items_first_artist w now a items : ∀ rank,
  ¬ Exists (λ track, artists track = []) items →
  popularity <$> filter (λ t, artist_name t = a) (rows_of_items w now rank items) =
  item_popularity <$> filter (λ track, head (artists track) = Some a) items.
Proof.
  induction items as [|track items IH]; intros rank Hok; simpl; [done|].
  rewrite Exists_cons in Hok.
  destruct (artists track) as [|artist rest] eqn:Ha; [tauto|].
  rewrite !filter_cons. simpl. rewrite Ha. simpl.
  destruct (decide (artist = a)) as [->|Hne].
  - rewrite decide_True by done. rewrite !fmap_cons. f_equal.
    apply IH. tauto.
  - rewrite decide_False by congruence. apply IH. tauto.
Qed.

Lemma fetch_window_db sp now w db :
  (fetch_window sp now w db).1.1 =
  match sp w with
  | None => db
  | Some items =>
      {| tracks := (track_loop w now 1 items (tracks db) [] 0).1;
         live_artists :=
           match (track_loop w now 1 items (tracks db) [] 0).2 with
           | Some (st, _) => artist_loop w now st (live_artists db)
           | None => live_artists db
           end |}
  end.
Proof.
  unfold fetch_window. destruct (sp w) as [items|]; [|done].
  by destruct (track_loop w now 1 items (tracks db) [] 0) as [tbl [[st n]|]].
Qed.

Lemma elem_of_tracks_window t db :
  t ∈ tracks db ↔ t ∈ tracks (window_of (track_time_range t) db).
Proof. unfold window_of, tracks_of. cbn [tracks]. rewrite list_elem_of_filter. tauto. Qed.

Lemma elem_of_artists_window a db :
  a ∈ live_artists db ↔ a ∈ live_artists (window_of (a_time_range a) db).
Proof.
  unfold window_of, artists_of. cbn [live_artists]. rewrite list_elem_of_filter. tauto.
Qed.

(** The statistics kept for an artist after a window's track loop count the
    items that list the artist first. *)
Lemma track_loop_first_artist w now items tbl st n kv :
  (track_loop w now 1 items tbl [] 0).2 = Some (st, n) →
  kv ∈ st →
  0 < count kv.2 ∧
  count kv.2 = len (filter (λ track, head (artists track) = Some kv.1) items) ∧
  total_pop kv.2 =
    sum_Z (item_popularity <$> filter (λ track, head (artists track) = Some kv.1) items) ∧
  summary kv.1 (rows_of_items w now 1 items) = Some kv.2.
Proof.
  intros Hloop Hkv.
  pose proof (track_loop_result w now items 1 tbl [] 0) as Hres.
  rewrite Hloop in Hres. destruct Hres as [Hok _].
  assert (dict_get kv.1 st = Some kv.2) as Hget.
  { apply dict_get_elem_of; [|by destruct kv].
    eapply track_loop_keys_NoDup; [|exact Hloop]. apply NoDup_nil_2. }
  rewrite (track_loop_stats w now items 1 tbl [] 0 [] st n) in Hget; [|done|done].
  rewrite app_nil_l in Hget. split_and!; [| | |done].
  - unfold summary in Hget. case_decide as Hg; [done|].
    inversion Hget as [Hs]. simpl. unfold len.
    destruct (filter _ (rows_of_items w now 1 items)); [done|]. simpl. lia.
  - unfold summary in Hget. case_decide as Hg; [done|].
    inversion Hget as [Hs]. simpl. unfold len.
    rewrite <- (length_fmap popularity), (rows_of_items_first_artist w now kv.1 items 1 Hok).
    by rewrite length_fmap.
  - unfold summary in Hget. case_decide as Hg; [done|].
    inversion Hget as [Hs]. simpl.
    by rewrite (rows_of_items_first_artist w now kv.1 items 1 Hok).
Qed.

(** The division in [avg_rank] never has a zero divisor: an artist in the
    dictionary has at least one rank. *)
Lemma artist_stats_ranks_nonempty w now items tbl st n kv :
  (track_loop w now 1 items tbl [] 0).2 = Some (st, n) →
  kv ∈ st →
  ranks kv.2 ≠ [] ∧ len (ranks kv.2) = count kv.2.
Proof.
  intros Hloop Hkv.
  destruct (track_loop_first_artist w now items tbl st n kv Hloop Hkv)
    as (_ & _ & _ & Hsum).
  unfold summary in Hsum. case_decide as Hg; [done|].
  injection Hsum as <-. cbn [ranks count]. split.
  - intros Hnil%fmap_nil_inv. done.
  - unfold len. by rewrite length_fmap.
Qed.

Section upsert_facts.
Context {Row Key : Type} `{EqDecision Key} (key : Row → Key).

Lemma insert_or_replace_NoDup row tbl :
  NoDup (key <$> tbl) → NoDup (key <$> insert_or_replace key row tbl).
Proof.
  intros Hnd. unfold insert_or_replace. rewrite fmap_app. apply NoDup_app.
  split_and!.
  - eapply sublist_NoDup; [exact Hnd|]. apply fmap_sublist, sublist_filter.
  - intros k (r & -> & [Hr _]%list_elem_of_filter)%list_elem_of_fmap
             Hk%list_elem_of_singleton. done.
  - apply NoDup_singleton.
Qed.

Lemma insert_or_replace_keeps_keys k row tbl :
  k ∈ key <$> tbl → k ∈ key <$> insert_or_replace key row tbl.
Proof.
  intros (r & -> & Hr)%list_elem_of_fmap. unfold insert_or_replace.
  rewrite fmap_app, elem_of_app.
  destruct (decide (key r = key row)) as [Heq|Hne].
  - right. rewrite Heq. left.
  - left. apply list_elem_of_fmap_2. by apply list_elem_of_filter.
Qed.

(** A batch of upserts with pairwise distinct keys: the rows of other keys
    stay, in order, and the batch follows. *)
Lemma foldl_insert_or_replace rows : ∀ tbl,
  NoDup (key <$> rows) →
  foldl (λ t r, insert_or_replace key r t) tbl rows =
  filter (λ r, key r ∉ key <$> rows) tbl ++ rows.
Proof.
  induction rows as [|r rows IH]; intros tbl Hnd; simpl.
  { rewrite app_nil_r. symmetry. apply filter_all. intros x _. apply not_elem_of_nil. }
  rewrite fmap_cons in Hnd. apply NoDup_cons in Hnd as [Hr Hnd].
  rewrite IH by done. unfold insert_or_replace.
  rewrite filter_app, filter_cons_True, filter_nil by done.
  rewrite list_filter_filter, <- !app_assoc. simpl. f_equal.
  apply list_filter_iff. intros x. rewrite not_elem_of_cons. tauto.
Qed.

Lemma foldl_insert_or_replace_twice rows tbl :
  NoDup (key <$> rows) →
  foldl (λ t r, insert_or_replace key r t)
    (foldl (λ t r, insert_or_replace key r t) tbl rows) rows =
  foldl (λ t r, insert_or_replace key r t) tbl rows.
Proof.
  intros Hnd. rewrite !foldl_insert_or_replace by done.
  rewrite filter_app, list_filter_filter.
  rewrite (filter_none _ rows).
  - rewrite app_nil_r. f_equal. apply list_filter_iff. tauto.
  - intros r Hr Hk. apply Hk. by apply list_elem_of_fmap_2.
Qed.

(** After a batch of upserts, the key of a row of the batch that no later
    row of the batch shares holds that row and no other. *)
Lemma rows_at_foldl_insert_or_replace rows2 : ∀ rows1 r tbl,
  (∀ r', r' ∈ rows2 → key r' ≠ key r) →
  rows_at key (key r)
    (foldl (λ t r, insert_or_replace key r t) tbl (rows1 ++ r :: rows2)) = [r].
Proof.
  induction rows2 as [|r2 rows2 IH] using rev_ind; intros rows1 r tbl Hlater.
  - rewrite foldl_app. simpl. apply rows_at_insert_or_replace_eq.
  - rewrite app_comm_cons, app_assoc, foldl_app. simpl.
    rewrite rows_at_insert_or_replace_ne.
    + apply IH. intros r' Hr'. apply Hlater. rewrite elem_of_app. by left.
    + apply Hlater. rewrite elem_of_app. right. left.
Qed.
End upsert_facts.

(** ** Collector: the two loops as batches of upserts *)

Lemma track_loop_tracks w now items : ∀ rank tbl st n,
  (track_loop w now rank items tbl st n).1 =
  foldl (λ t r, upsertTrack r t) tbl (rows_of_items w now rank items).
Proof.
  induction items as [|track items IH]; intros rank tbl st n; simpl; [done|].
  destruct (artists track) as [|artist rest]; [done|]. simpl. apply IH.
Qed.

Lemma track_loop_stats_indep w now items : ∀ rank tbl tbl' st n,
  (track_loop w now rank items tbl st n).2 = (track_loop w now rank items tbl' st n).2.
Proof.
  induction items as [|track items IH]; intros rank tbl tbl' st n; simpl; [done|].
  destruct (artists track); [done|]. apply IH.
Qed.

Lemma artist_loop_foldl w now st tbl :
  artist_loop w now st tbl =
  foldl (λ t r, upsertArtist r t) tbl (artist_row w now <$> st).
Proof.
  unfold artist_loop. revert tbl. induction st as [|kv st IH]; intros tbl; [done|].
  rewrite fmap_cons. simpl. apply IH.
Qed.

Lemma filter_iff_in {A} (P Q : A → Prop) `{!∀ x, Decision (P x)} `{!∀ x, Decision (Q x)}
    (l : list A) :
  (∀ x, x ∈ l → P x ↔ Q x) → filter P l = filter Q l.
Proof.
  induction l as [|x l IH]; intros Hl; [done|].
  rewrite !filter_cons.
  rewrite IH by (intros y Hy; apply Hl; by right).
  destruct (decide (P x)) as [Hp|Hp], (decide (Q x)) as [Hq|Hq]; try done;
    exfalso; apply (Hl x (list_elem_of_here _ _)) in Hp || apply Hp, (Hl x (list_elem_of_here _ _));
    done.
Qed.

Lemma rows_of_items_keys w now items : ∀ rank,
  track_key <$> rows_of_items w now rank items
    `sublist_of` (λ track, (id track, w)) <$> items.
Proof.
  induction items as [|track items IH]; intros rank; simpl; [done|].
  destruct (artists track) as [|artist rest]; [apply sublist_nil_l|].
  rewrite fmap_cons. apply sublist_skip, IH.
Qed.

Lemma rows_of_items_keys_NoDup w now rank items :
  NoDup (id <$> items) → NoDup (track_key <$> rows_of_items w now rank items).
Proof.
  intros Hnd. eapply sublist_NoDup; [|apply rows_of_items_keys].
  assert ((λ track, (id track, w)) <$> items = (λ i, (i, w)) <$> (id <$> items)) as ->
    by (by rewrite <- list_fmap_compose).
  apply NoDup_fmap_2; [|done]. by intros i j [= ->].
Qed.

Lemma rows_of_items_complete w now items : ∀ rank,
  ¬ Exists (λ track, artists track = []) items →
  track_key <$> rows_of_items w now rank items = (λ track, (id track, w)) <$> items ∧
  length (rows_of_items w now rank items) = length items ∧
  (∀ (i : nat) track, items !! i = Some track →
     ∃ artist rest, artists track = artist :: rest ∧
       rows_of_items w now rank items !! i =
       Some (track_row w (rank + Z.of_nat i) now artist track)).
Proof.
  induction items as [|track items IH]; intros rank Hok; simpl.
  { split_and!; try done. }
  rewrite Exists_cons in Hok.
  destruct (artists track) as [|artist rest] eqn:Ha; [tauto|].
  destruct (IH (rank + 1)) as (Hk & Hlen & Hlook); [tauto|].
  split_and!.
  - rewrite !fmap_cons. by rewrite Hk.
  - simpl. by rewrite Hlen.
  - intros [|i] track' Hi; simpl in *.
    + injection Hi as <-. exists artist, rest. split; [done|]. do 2 f_equal. lia.
    + destruct (Hlook i track' Hi) as (artist' & rest' & Ha' & Hrow).
      exists artist', rest'. split; [done|]. rewrite Hrow. do 2 f_equal. lia.
Qed.

(** The rows of a response split where the response does, as long as the
    items of the first part have artists. *)
Lemma rows_of_items_app w now items1 items2 : ∀ rank,
  ¬ Exists (λ track, artists track = []) items1 →
  rows_of_items w now rank (items1 ++ items2) =
  rows_of_items w now rank items1 ++ rows_of_items w now (rank + len items1) items2.
Proof.
  induction items1 as [|track items1 IH]; intros rank Hok; simpl.
  { f_equal. unfold len. simpl. lia. }
  rewrite Exists_cons in Hok.
  destruct (artists track) as [|artist rest]; [tauto|].
  rewrite IH by tauto. simpl. do 3 f_equal. unfold len. rewrite length_cons. lia.
Qed.

(** The names under which the rows of a response are stored are the first
    artists of its items. *)
Lemma rows_of_items_artist_name w now items : ∀ rank t,
  t ∈ rows_of_items w now rank items → artist_name t ∈ first_artists items.
Proof.
  intros rank t (i & track & artist & rest & Hi & Ha & ->)%elem_of_rows_of_items.
  unfold first_artists. apply list_elem_of_omap. exists track.
  split; [by eapply list_elem_of_lookup_2|]. by rewrite Ha.
Qed.

Lemma first_artists_rows w now rank items a :
  ¬ Exists (λ track, artists track = []) items →
  a ∈ first_artists items →
  ∃ t, t ∈ rows_of_items w now rank items ∧ artist_name t = a.
Proof.
  intros Hok (track & Hin & Hhead)%list_elem_of_omap.
  apply list_elem_of_lookup_1 in Hin as [i Hi].
  destruct (rows_of_items_complete w now items rank Hok) as (_ & _ & Hlook).
  destruct (Hlook i track Hi) as (artist & rest & Ha & Hrow).
  rewrite Ha in Hhead. injection Hhead as ->.
  eexists. split; [by eapply list_elem_of_lookup_2|done].
Qed.

Lemma dict_get_Some_elem a s (d : artist_stats) : dict_get a d = Some s → (a, s) ∈ d.
Proof.
  induction d as [|[k s'] d IH]; simpl; [done|].
  case_decide as Hk; [intros [= ->]; subst; left|intros ?; right; by apply IH].
Qed.

(** The dictionary a successful track loop leaves: its keys are the first
    artists of the response, without repetition. *)
Lemma track_loop_keys w now items tbl st n :
  (track_loop w now 1 items tbl [] 0).2 = Some (st, n) →
  NoDup st.*1 ∧ ∀ a, a ∈ st.*1 ↔ a ∈ first_artists items.
Proof.
  intros Hloop.
  pose proof (track_loop_result w now items 1 tbl [] 0) as Hres.
  rewrite Hloop in Hres. destruct Hres as [Hok _].
  assert (NoDup st.*1) as Hnd.
  { eapply track_loop_keys_NoDup; [|exact Hloop]. apply NoDup_nil_2. }
  split; [done|]. intros a.
  pose proof (track_loop_stats w now items 1 tbl [] 0 [] st n (λ _, eq_refl) Hloop a)
    as Hget.
  rewrite app_nil_l in Hget. split.
  - intros (kv & -> & Hkv)%list_elem_of_fmap.
    rewrite (dict_get_elem_of kv.1 kv.2 st Hnd) in Hget by (by destruct kv).
    unfold summary in Hget. case_decide as Hg; [done|].
    destruct (filter (λ t, artist_name t = kv.1) (rows_of_items w now 1 items))
      as [|t g] eqn:Hf; [done|].
    assert (t ∈ filter (λ t, artist_name t = kv.1) (rows_of_items w now 1 items)) as Ht
      by (rewrite Hf; left).
    apply list_elem_of_filter in Ht as [<- Ht].
    by eapply rows_of_items_artist_name.
  - intros Ha. destruct (first_artists_rows w now 1 items a Hok Ha) as (t & Ht & Hname).
    destruct (dict_get a st) as [s|] eqn:Hs.
    + apply dict_get_Some_elem in Hs. by apply (list_elem_of_fmap_2 fst) in Hs.
    + symmetry in Hget. unfold summary in Hget. case_decide as Hg; [|done].
      exfalso. eapply (filter_nil_not_elem_of _ _ t Hg); done.
Qed.

Lemma rows_at_track_window i w db :
  rows_at track_key (i, w) (tracks db) =
  rows_at track_key (i, w) (tracks (window_of w db)).
Proof.
  unfold rows_at, window_of, tracks_of. cbn [tracks].
  rewrite list_filter_filter. apply list_filter_iff. intros t. unfold track_key.
  split; [intros [= <- <-]; done|tauto].
Qed.

Lemma rows_at_artist_window a w db :
  rows_at artist_key (a, w) (live_artists db) =
  rows_at artist_key (a, w) (live_artists (window_of w db)).
Proof.
  unfold rows_at, window_of, artists_of. cbn [live_artists].
  rewrite list_filter_filter. apply list_filter_iff. intros t. unfold artist_key.
  split; [intros [= <- <-]; done|tauto].
Qed.

(** The track row of an item after a run. *)
Lemma fetch_stores_track_row sp now db w items (i : nat) track :
  sp w = Some items →
  items !! i = Some track →
  (∀ (j : nat) track', (j ≤ i)%nat → items !! j = Some track' → artists track' ≠ []) →
  (∀ (j : nat) track', (i < j)%nat → items !! j = Some track' → id track' ≠ id track) →
  ∃ artist rest,
    artists track = artist :: rest ∧
    rows_at track_key (id track, w) (tracks (run_db (fetch_listening_data sp now db))) =
      [track_row w (Z.of_nat i + 1) now artist track].
Proof.
  intros Hsp Hi Hbefore Hafter.
  destruct (artists track) as [|artist rest] eqn:Ha.
  { by destruct (Hbefore i track). }
  exists artist, rest. split; [done|].
  rewrite rows_at_track_window, fetch_listening_data_window, fetch_window_db, Hsp.
  cbn [tracks]. rewrite track_loop_tracks.
  rewrite <- (take_drop_middle items i track Hi).
  assert (¬ Exists (λ track', artists track' = []) (take i items)) as Hprefix.
  { intros (track' & Hin & Hnil)%Exists_exists.
    apply list_elem_of_lookup_1 in Hin as [j Hj].
    apply lookup_take_Some in Hj as [Hj Hlt].
    apply (Hbefore j track'); [lia|done..]. }
  rewrite rows_of_items_app by done. cbn [rows_of_items]. rewrite Ha.
  assert (1 + len (take i items) = Z.of_nat i + 1) as ->.
  { unfold len. rewrite length_take.
    apply lookup_lt_Some in Hi. lia. }
  change (id track, w) with (track_key (track_row w (Z.of_nat i + 1) now artist track)).
  apply (rows_at_foldl_insert_or_replace track_key).
  intros r' (j & track' & artist' & rest' & Hj & _ & ->)%elem_of_rows_of_items.
  unfold track_key. cbn. intros [= Heq]. revert Heq.
  apply (Hafter (S i + j)%nat); [lia|].
  rewrite <- (take_drop_middle items i track Hi) at 1.
  rewrite lookup_app_r by (rewrite length_take; lia).
  rewrite length_take.
  apply lookup_lt_Some in Hi.
  replace (S i + j - i `min` length items)%nat with (S j) by lia.
  done.
Qed.

(** The artist row of a first artist after a run whose pass on the window
    did not fail. *)
Lemma fetch_stores_artist_row sp now db w items artist :
  sp w = Some items →
  ¬ window_fails sp w →
  artist ∈ first_artists items →
  ∃ s,
    rows_at artist_key (artist, w)
      (live_artists (run_db (fetch_listening_data sp now db))) =
      [artist_row w now (artist, s)] ∧
    count s = len (filter (λ track, head (artists track) = Some artist) items) ∧
    total_pop s =
      sum_Z (item_popularity <$>
             filter (λ track, head (artists track) = Some artist) items).
Proof.
  intros Hsp Hok Hfirst. unfold window_fails in Hok. rewrite Hsp in Hok.
  rewrite rows_at_artist_window, fetch_listening_data_window, fetch_window_db, Hsp.
  cbn [live_artists].
  pose proof (track_loop_result w now items 1 (tracks (window_of w db)) [] 0) as Hres.
  destruct (track_loop w now 1 items (tracks (window_of w db)) [] 0).2
    as [[st n]|] eqn:Hloop; [|done].
  destruct (track_loop_keys w now items _ st n Hloop) as [Hnd Hkeys].
  apply (proj2 (Hkeys artist)) in Hfirst.
  apply list_elem_of_fmap in Hfirst as (kv & Hname & Hkv).
  destruct (track_loop_first_artist w now items _ st n kv Hloop Hkv)
    as (_ & Hcount & Hpop & _).
  rewrite Hname. exists kv.2. split_and!; [|done..].
  rewrite artist_loop_foldl.
  apply list_elem_of_split in Hkv as (st1 & st2 & ->).
  rewrite fmap_app, fmap_cons.
  replace (kv.1, kv.2) with kv by (by destruct kv).
  change (kv.1, w) with (artist_key (artist_row w now kv)).
  apply (rows_at_foldl_insert_or_replace artist_key).
  intros r' (kv' & -> & Hkv')%list_elem_of_fmap. unfold artist_key. cbn.
  intros [= Heq]. rewrite fmap_app, fmap_cons in Hnd.
  apply NoDup_app in Hnd as (_ & _ & Hnd). apply NoDup_cons in Hnd as [Hnd _].
  apply Hnd. rewrite <- Heq. by apply list_elem_of_fmap_2.
Qed.

(** C10. Only the first artist of an item is stored. For a window whose
    fetch returned [items]: the item at position [i] (the items up to it
    having artists, no later item repeating its track id) has, after the run,
    exactly one track row under its track id and the window, whose artist
    name is the first entry of the item's artist list; when the window's pass
    does not fail, each item's first artist has exactly one artist row in the
    window, and that row counts, and sums the popularity of, exactly the
    items that list the artist first. Conversely every track row the run
    leaves beyond those already there is the row of a fetched item under the
    head of its artist list, every artist row it leaves beyond those already
    there is the aggregate of the items that list its artist first (at least
    one), and so a name that no item of the window lists first, an additional
    artist for instance, gets no track row and no artist row in the window. *)
Theorem first_artist_only
    (sp : Spotify) (now : string) (db : LiveDB) (w : time_range)
    (items : list TrackItem) :
  sp w = Some items →
  (∀ (i : nat) track,
     items !! i = Some track →
     (∀ (j : nat) track', (j ≤ i)%nat → items !! j = Some track' → artists track' ≠ []) →
     (∀ (j : nat) track', (i < j)%nat → items !! j = Some track' → id track' ≠ id track) →
     ∃ artist rest r,
       artists track = artist :: rest ∧
       rows_at track_key (id track, w)
         (tracks (run_db (fetch_listening_data sp now db))) = [r] ∧
       artist_name r = artist ∧
       track_name r = name track ∧
       popularity r = item_popularity track ∧
       rank_position r = Z.of_nat i + 1 ∧
       r = track_row w (Z.of_nat i + 1) now artist track) ∧
  (¬ window_fails sp w →
   ∀ track artist rest,
     track ∈ items →
     artists track = artist :: rest →
     ∃ a,
       rows_at artist_key (artist, w)
         (live_artists (run_db (fetch_listening_data sp now db))) = [a] ∧
       a_artist_name a = artist ∧
       a_time_range a = w ∧
       track_count a =
         len (filter (λ track', head (artists track') = Some artist) items) ∧
       total_popularity a =
         sum_Z (item_popularity <$>
                filter (λ track', head (artists track') = Some artist) items)) ∧
  (∀ t, t ∈ tracks (run_db (fetch_listening_data sp now db)) →
     t ∈ tracks db ∨
     ∃ items' (i : nat) track artist rest,
       sp (track_time_range t) = Some items' ∧
       items' !! i = Some track ∧
       artists track = artist :: rest ∧
       t = track_row (track_time_range t) (Z.of_nat i + 1) now artist track) ∧
  (∀ a, a ∈ live_artists (run_db (fetch_listening_data sp now db)) →
     a ∈ live_artists db ∨
     ∃ items',
       sp (a_time_range a) = Some items' ∧
       0 < track_count a ∧
       track_count a =
         len (filter (λ track, head (artists track) = Some (a_artist_name a)) items') ∧
       total_popularity a =
         sum_Z (item_popularity <$>
                filter (λ track, head (artists track) = Some (a_artist_name a)) items')) ∧
  (∀ b, b ∉ first_artists items →
     (∀ t, t ∈ tracks (run_db (fetch_listening_data sp now db)) →
           track_time_range t = w → artist_name t = b → t ∈ tracks db) ∧
     (∀ a, a ∈ live_artists (run_db (fetch_listening_data sp now db)) →
           a_time_range a = w → a_artist_name a = b → a ∈ live_artists db)).
Proof.
  intros Hitems.
  assert (∀ t, t ∈ tracks (run_db (fetch_listening_data sp now db)) →
     t ∈ tracks db ∨
     ∃ items' (i : nat) track artist rest,
       sp (track_time_range t) = Some items' ∧
       items' !! i = Some track ∧
       artists track = artist :: rest ∧
       t = track_row (track_time_range t) (Z.of_nat i + 1) now artist track) as Htracks.
  { intros t Ht. apply elem_of_tracks_window in Ht.
    rewrite fetch_listening_data_window, fetch_window_db in Ht.
    set (v := track_time_range t) in *.
    destruct (sp v) as [items'|] eqn:Hsp.
    + cbn [tracks] in Ht. apply elem_of_track_loop in Ht as [Ht|Ht].
      * left. cbn [window_of tracks] in Ht. unfold tracks_of in Ht.
        apply list_elem_of_filter in Ht. tauto.
      * right. apply elem_of_rows_of_items in Ht
          as (i & track & artist & rest & Hi & Ha & Heq).
        exists items', i, track, artist, rest. split_and!; try done.
        rewrite Heq. f_equal. lia.
    + left. cbn [window_of tracks] in Ht. unfold tracks_of in Ht.
      apply list_elem_of_filter in Ht. tauto. }
  assert (∀ a, a ∈ live_artists (run_db (fetch_listening_data sp now db)) →
     a ∈ live_artists db ∨
     ∃ items',
       sp (a_time_range a) = Some items' ∧
       0 < track_count a ∧
       track_count a =
         len (filter (λ track, head (artists track) = Some (a_artist_name a)) items') ∧
       total_popularity a =
         sum_Z (item_popularity <$>
                filter (λ track, head (artists track) = Some (a_artist_name a)) items'))
    as Hartists.
  { intros a Ha. apply elem_of_artists_window in Ha.
    rewrite fetch_listening_data_window, fetch_window_db in Ha.
    remember (a_time_range a) as v eqn:Hv.
    assert (∀ x, x ∈ live_artists (window_of v db) → x ∈ live_artists db) as Hold.
    { intros x Hx. cbn [window_of live_artists] in Hx. unfold artists_of in Hx.
      apply list_elem_of_filter in Hx. tauto. }
    destruct (sp v) as [items'|] eqn:Hsp; [|left; by apply Hold].
    cbn [live_artists] in Ha.
    destruct (track_loop v now 1 items' (tracks (window_of v db)) [] 0).2
      as [[st n]|] eqn:Hloop; [|left; by apply Hold].
    apply elem_of_artist_loop in Ha as [Ha|(kv & Hkv & ->)]; [left; by apply Hold|].
    right. exists items'. split; [done|].
    destruct (track_loop_first_artist v now items' _ st n kv Hloop Hkv)
      as (Hpos & Hcount & Hpop & _).
    done. }
  split_and!; [| |exact Htracks|exact Hartists|].
  - intros i track Hi Hbefore Hafter.
    destruct (fetch_stores_track_row sp now db w items i track Hitems Hi Hbefore Hafter)
      as (artist & rest & Ha & Hrow).
    by exists artist, rest, (track_row w (Z.of_nat i + 1) now artist track).
  - intros Hok track artist rest Hin Ha.
    assert (artist ∈ first_artists items) as Hfirst.
    { unfold first_artists. apply list_elem_of_omap. exists track. by rewrite Ha. }
    destruct (fetch_stores_artist_row sp now db w items artist Hitems Hok Hfirst)
      as (s & Hrow & Hcount & Hpop).
    by exists (artist_row w now (artist, s)).
  - intros b Hb. split.
    + intros t Ht Hw Hname.
      destruct (Htracks t Ht) as [|(items' & i & track & artist & rest & Hsp & Hi & Ha & Heq)];
        [done|].
      exfalso. apply Hb. rewrite Hw, Hitems in Hsp. injection Hsp as <-.
      rewrite <- Hname, Heq. cbn [artist_name track_row].
      unfold first_artists. apply list_elem_of_omap. exists track.
      split; [by eapply list_elem_of_lookup_2|by rewrite Ha].
    + intros a Ha Hw Hname.
      destruct (Hartists a Ha) as [|(items' & Hsp & Hpos & Hcount & _)]; [done|].
      exfalso. apply Hb. rewrite Hw, Hitems in Hsp. injection Hsp as <-.
      rewrite Hname in Hcount.
      destruct (filter (λ track, head (artists track) = Some b) items)
        as [|track g] eqn:Hf; [rewrite Hcount in Hpos; by vm_compute in Hpos|].
      assert (track ∈ filter (λ track, head (artists track) = Some b) items) as Hin
        by (rewrite Hf; left).
      apply list_elem_of_filter in Hin as [Hhead Hin].
      unfold first_artists. apply list_elem_of_omap. by exists track.
Qed.

Lemma first_artist_only_witness :
  (∃ r, rows_at track_key ("A", short_term)
          (tracks (run_db (fetch_listening_data partial_fetch "now" empty_live))) = [r] ∧
        artist_name r = "X") ∧
  (∃ a, rows_at artist_key ("X", short_term)
          (live_artists (run_db (fetch_listening_data partial_fetch "now" empty_live))) = [a] ∧
        track_count a = 2 ∧ total_popularity a = 30) ∧
  (∀ t, t ∈ tracks (run_db (fetch_listening_data partial_fetch "now" empty_live)) →
        track_time_range t = short_term → artist_name t ≠ "Guest") ∧
  (∀ a, a ∈ live_artists (run_db (fetch_listening_data partial_fetch "now" empty_live)) →
        a_time_range a = short_term → a_artist_name a ≠ "Guest").
Proof.
  destruct (first_artist_only partial_fetch "now" empty_live short_term
              [item "A" "Song A" ["X"; "Guest"] 10; item "B" "Song B" ["X"] 20] eq_refl)
    as (Hrow & Hagg & _ & _ & Hnever).
  split_and!.
  - destruct (Hrow 0%nat (item "A" "Song A" ["X"; "Guest"] 10) eq_refl)
      as (artist & rest & r & Ha & Hr & Hname & _).
    + intros [|j] track' Hj Hlook; [|lia]. by injection Hlook as <-.
    + intros [|[|j]] track' Hj Hlook; [lia| |done]. by injection Hlook as <-.
    + exists r. split; [exact Hr|]. rewrite Hname. by injection Ha as <- _.
  - assert (¬ window_fails partial_fetch short_term) as Hok
      by (apply (bool_decide_unpack _); by vm_compute).
    destruct (Hagg Hok (item "A" "Song A" ["X"; "Guest"] 10) "X" ["Guest"])
      as (a & Ha & _ & _ & Hcount & Hpop); [left|done|].
    exists a. split; [exact Ha|]. by rewrite Hcount, Hpop.
  - intros t Ht Hw Hname.
    destruct (Hnever "Guest") as [Hno _]; [by apply (bool_decide_unpack _)|].
    by apply Hno in Ht; [apply elem_of_nil in Ht|..].
  - intros a Ha Hw Hname.
    destruct (Hnever "Guest") as [_ Hno]; [by apply (bool_decide_unpack _)|].
    by apply Hno in Ha; [apply elem_of_nil in Ha|..].
Defined.

(** ** Collector: artist rows against the track table *)

Lemma track_loop_fresh w now items : ∀ rank tbl st n,
  NoDup (id <$> items) →
  (∀ t track, t ∈ tbl → track ∈ items → track_key t ≠ (id track, w)) →
  (track_loop w now rank items tbl st n).1 = tbl ++ rows_of_items w now rank items.
Proof.
  induction items as [|track items IH]; intros rank tbl st n Hnd Hfresh; simpl.
  { by rewrite app_nil_r. }
  rewrite fmap_cons in Hnd. apply NoDup_cons in Hnd as [Hid Hnd].
  destruct (artists track) as [|artist rest]; simpl.
  { by rewrite app_nil_r. }
  unfold upsertTrack. rewrite insert_or_replace_fresh.
  - rewrite IH; [by rewrite <- app_assoc|done|].
    intros t track' [Ht|Ht]%elem_of_app Hin.
    + apply Hfresh; [done|by right].
    + apply list_elem_of_singleton in Ht as ->. unfold track_key. simpl.
      intros [= Heq]. apply Hid. rewrite Heq. by apply list_elem_of_fmap_2.
  - intros (t & Hkey & Ht)%list_elem_of_fmap.
    apply (Hfresh t track); [done|left|]. by rewrite <- Hkey.
Qed.

Lemma group_rows_window w a db :
  group_rows w a (tracks db) =
  filter (λ t, artist_name t = a) (tracks (window_of w db)).
Proof.
  unfold group_rows, window_of, tracks_of. cbn [tracks].
  rewrite list_filter_filter. apply list_filter_iff. tauto.
Qed.

(** What a window holds after a pass that does not fail on a response
    without repeated track ids: the rows the pass does not overwrite, then
    the rows of the response. *)
Lemma window_tracks_after sp now db w items :
  sp w = Some items →
  NoDup (id <$> items) →
  ¬ Exists (λ track, artists track = []) items →
  tracks_of w (tracks (run_db (fetch_listening_data sp now db))) =
  stale_tracks w items (tracks db) ++ rows_of_items w now 1 items.
Proof.
  intros Hsp Hnd Hok.
  change (tracks_of w (tracks ?d)) with (tracks (window_of w d)).
  rewrite fetch_listening_data_window, fetch_window_db, Hsp. cbn [tracks].
  rewrite track_loop_tracks. unfold upsertTrack.
  rewrite foldl_insert_or_replace by (by apply rows_of_items_keys_NoDup).
  f_equal. unfold stale_tracks. apply filter_iff_in. intros t Ht.
  unfold tracks_of in Ht. apply list_elem_of_filter in Ht as [Hw _].
  destruct (rows_of_items_complete w now items 1 Hok) as (-> & _ & _).
  rewrite !list_elem_of_fmap. unfold track_key. rewrite Hw.
  split; intros Hn (track & Heq & Hin); apply Hn; exists track.
  - split; [by rewrite Heq|done].
  - split; [by injection Heq|done].
Qed.

Lemma window_artists_after sp now db w items :
  sp w = Some items →
  ¬ Exists (λ track, artists track = []) items →
  ∃ st n,
    (track_loop w now 1 items (tracks (window_of w db)) [] 0).2 = Some (st, n) ∧
    artists_of w (live_artists (run_db (fetch_listening_data sp now db))) =
    stale_artists w items (live_artists db) ++ (artist_row w now <$> st).
Proof.
  intros Hsp Hok.
  change (artists_of w (live_artists ?d)) with (live_artists (window_of w d)).
  rewrite fetch_listening_data_window, fetch_window_db, Hsp. cbn [live_artists].
  pose proof (track_loop_result w now items 1 (tracks (window_of w db)) [] 0) as Hres.
  destruct (track_loop w now 1 items (tracks (window_of w db)) [] 0).2
    as [[st n]|] eqn:Hloop; [|done].
  exists st, n. split; [done|].
  destruct (track_loop_keys w now items _ st n Hloop) as [Hnd Hkeys].
  rewrite artist_loop_foldl. unfold upsertArtist.
  rewrite foldl_insert_or_replace.
  - f_equal. unfold stale_artists. apply filter_iff_in. intros a Ha.
    unfold artists_of in Ha. apply list_elem_of_filter in Ha as [Hw _].
    rewrite <- Hkeys, <- list_fmap_compose, !list_elem_of_fmap. unfold artist_key.
    split; intros Hn (kv & Heq & Hin); apply Hn; exists kv.
    + split; [cbn; by rewrite Heq, Hw|done].
    + split; [by injection Heq|done].
  - rewrite <- list_fmap_compose.
    assert (artist_key ∘ artist_row w now = (λ a : string, (a, w)) ∘ fst) as -> by done.
    rewrite list_fmap_compose. apply NoDup_fmap_2; [|done]. by intros a b [= ->].
Qed.

Lemma group_rows_stale w items tbl a :
  group_rows w a (stale_tracks w items tbl) =
  filter (λ t, artist_name t = a) (stale_tracks w items tbl).
Proof.
  unfold group_rows. apply filter_iff_in. intros t Ht.
  unfold stale_tracks, tracks_of in Ht.
  apply list_elem_of_filter in Ht as [_ [Hw _]%list_elem_of_filter]. tauto.
Qed.

Lemma len_app_nil_l {A} (l1 l2 : list A) : len l2 = len (l1 ++ l2) → l1 = [].
Proof. unfold len. rewrite length_app. destruct l1; [done|simpl; lia]. Qed.

(** C5, as the code has it. For a window whose pass does not fail, on a
    response that lists no track identifier twice: after the run every live
    artist row of the window is derivable from the live track table (its
    track count, summed popularity and mean rank are those of the track rows
    of its window and artist name) exactly when the rows the pass did not
    overwrite allow it: no left-over track row carries the name of a first
    artist of the response, and the left-over artist rows are derivable from
    the left-over track rows. After the run the window holds the left-over
    track rows followed by the rows of the response, and the left-over artist
    rows followed by one row per first artist of the response. In particular
    the artist rows are derivable when nothing is left over: the window was
    empty, or every row it had is fetched again. *)
Theorem artists_derivable_after_fetch
    (sp : Spotify) (now : string) (db : LiveDB) (w : time_range)
    (items : list TrackItem) :
  sp w = Some items →
  NoDup (id <$> items) →
  ¬ window_fails sp w →
  ((∀ a, a ∈ live_artists (run_db (fetch_listening_data sp now db)) →
         a_time_range a = w →
         derivable (tracks (run_db (fetch_listening_data sp now db))) a) ↔
   (∀ t, t ∈ stale_tracks w items (tracks db) →
         artist_name t ∉ first_artists items) ∧
   (∀ a, a ∈ stale_artists w items (live_artists db) →
         derivable (stale_tracks w items (tracks db)) a)) ∧
  tracks_of w (tracks (run_db (fetch_listening_data sp now db))) =
    stale_tracks w items (tracks db) ++ rows_of_items w now 1 items ∧
  (∃ st : artist_stats,
     artists_of w (live_artists (run_db (fetch_listening_data sp now db))) =
       stale_artists w items (live_artists db) ++ (artist_row w now <$> st) ∧
     NoDup st.*1 ∧
     ∀ a, a ∈ st.*1 ↔ a ∈ first_artists items) ∧
  (∀ t, t ∈ stale_tracks w items (tracks db) →
        t ∈ tracks (run_db (fetch_listening_data sp now db))) ∧
  (∀ a, a ∈ stale_artists w items (live_artists db) →
        a ∈ live_artists (run_db (fetch_listening_data sp now db))) ∧
  (stale_tracks w items (tracks db) = [] →
   stale_artists w items (live_artists db) = [] →
   ∀ a, a ∈ live_artists (run_db (fetch_listening_data sp now db)) →
        a_time_range a = w →
        derivable (tracks (run_db (fetch_listening_data sp now db))) a).
Proof.
  intros Hsp Hnd Hok. unfold window_fails in Hok. rewrite Hsp in Hok.
  pose proof (window_tracks_after sp now db w items Hsp Hnd Hok) as HT.
  destruct (window_artists_after sp now db w items Hsp Hok) as (st & n & Hloop & HA).
  destruct (track_loop_keys w now items _ st n Hloop) as [Hkeysnd Hkeys].
  set (db' := run_db (fetch_listening_data sp now db)) in *.
  set (S := stale_tracks w items (tracks db)) in *.
  set (N := rows_of_items w now 1 items) in *.
  assert (∀ a, a ∈ live_artists db' ∧ a_time_range a = w ↔
               a ∈ stale_artists w items (live_artists db) ∨
               ∃ kv, kv ∈ st ∧ a = artist_row w now kv) as Hrows.
  { intros a.
    transitivity (a ∈ artists_of w (live_artists db')).
    { unfold artists_of. rewrite list_elem_of_filter. tauto. }
    rewrite HA, elem_of_app, list_elem_of_fmap.
    split; (intros [?|(kv & ? & ?)]; [by left|right; by exists kv]). }
  assert (∀ a, a_time_range a = w →
               group_rows w (a_artist_name a) (tracks db') =
               filter (λ t, artist_name t = a_artist_name a) S ++
               filter (λ t, artist_name t = a_artist_name a) N) as Hgroup.
  { intros a Hw. rewrite group_rows_window.
    change (tracks (window_of w db')) with (tracks_of w (tracks db')).
    by rewrite HT, filter_app. }
  assert (∀ a, a ∈ stale_artists w items (live_artists db) →
               derivable (tracks db') a ↔ derivable S a) as Hstale.
  { intros a Ha. unfold stale_artists, artists_of in Ha.
    apply list_elem_of_filter in Ha as [Hname [Hw _]%list_elem_of_filter].
    unfold derivable, group_count, group_popularity, group_mean_rank.
    rewrite Hw, (Hgroup a Hw). unfold S at 4 5 6. rewrite group_rows_stale. fold S.
    rewrite (filter_none _ N), app_nil_r; [done|].
    intros t Ht Heq. apply Hname. rewrite <- Heq.
    by eapply rows_of_items_artist_name. }
  assert (∀ kv, kv ∈ st →
               derivable (tracks db') (artist_row w now kv) ↔
               filter (λ t, artist_name t = kv.1) S = []) as Hnew.
  { intros kv Hkv.
    destruct (track_loop_first_artist w now items _ st n kv Hloop Hkv)
      as (_ & _ & _ & Hsum).
    fold N in Hsum. unfold summary in Hsum. case_decide as Hg; [done|].
    injection Hsum as Hs.
    unfold derivable, group_count, group_popularity, group_mean_rank.
    change (a_time_range (artist_row w now kv)) with w.
    rewrite (Hgroup (artist_row w now kv) eq_refl).
    cbn [artist_row track_count total_popularity avg_rank a_artist_name a_time_range].
    rewrite <- Hs. cbn [count total_pop ranks]. split.
    - intros (Hcount & _ & _). by apply len_app_nil_l in Hcount.
    - by intros ->. }
  split_and!.
  - split.
    + intros Hall. split.
      * intros t Ht Hfirst. apply Hkeys in Hfirst.
        apply list_elem_of_fmap in Hfirst as (kv & Hname & Hkv).
        assert (derivable (tracks db') (artist_row w now kv)) as Hd.
        { apply Hall; [|done]. apply (proj2 (Hrows _)). right. by exists kv. }
        apply (proj1 (Hnew kv Hkv)) in Hd.
        eapply (filter_nil_not_elem_of _ _ t Hd); done.
      * intros a Ha. apply (Hstale a Ha).
        destruct (proj2 (Hrows a) (or_introl Ha)) as [Hin Hw]. by apply Hall.
    + intros [Hfree Hold] a Hin Hw.
      destruct (proj1 (Hrows a) (conj Hin Hw)) as [Ha|(kv & Hkv & ->)].
      * apply (Hstale a Ha). by apply Hold.
      * apply (Hnew kv Hkv). apply filter_none. intros t Ht Hname.
        apply (Hfree t Ht). rewrite Hname. apply Hkeys.
        by apply list_elem_of_fmap_2.
  - done.
  - by exists st.
  - intros t Ht.
    assert (t ∈ tracks_of w (tracks db')) as Hin by (rewrite HT, elem_of_app; by left).
    unfold tracks_of in Hin. apply list_elem_of_filter in Hin. tauto.
  - intros a Ha. by apply (proj2 (Hrows a) (or_introl Ha)).
  - intros HS HA' a Hin Hw.
    destruct (proj1 (Hrows a) (conj Hin Hw)) as [Ha|(kv & Hkv & ->)].
    + rewrite HA' in Ha. by apply elem_of_nil in Ha.
    + apply (Hnew kv Hkv). fold S in HS. by rewrite HS.
Qed.

Lemma artists_derivable_after_fetch_witness :
  tracks_of short_term
    (tracks (run_db (fetch_listening_data partial_fetch "now" after_first_run))) ≠ [] ∧
  Forall
    (derivable (tracks (run_db (fetch_listening_data partial_fetch "later"
                                  (run_db (fetch_listening_data partial_fetch "now"
                                             after_first_run))))))
    (artists_of short_term
       (live_artists (run_db (fetch_listening_data partial_fetch "later"
                                (run_db (fetch_listening_data partial_fetch "now"
                                           after_first_run)))))).
Proof.
  split; [by vm_compute|].
  apply Forall_forall. intros a [Hw Ha]%list_elem_of_filter. revert a Ha Hw.
  apply (artists_derivable_after_fetch partial_fetch "later"
           (run_db (fetch_listening_data partial_fetch "now" after_first_run))
           short_term
           [item "A" "Song A" ["X"; "Guest"] 10; item "B" "Song B" ["X"] 20]).
  - reflexivity.
  - apply (bool_decide_unpack _). by vm_compute.
  - apply (bool_decide_unpack _). by vm_compute.
  - reflexivity.
  - reflexivity.
Defined.

(** C5 fails as stated: a later run upserts and never deletes, so the rows of
    an earlier fetch of the same window stay. After the second run below the
    row of artist X counts one track where the track table holds two, and
    track A, absent from the latest response, is still in the live table. *)
Lemma stale_rows_survive_a_run :
  ¬ (∀ a, a ∈ live_artists after_second_run →
          derivable (tracks after_second_run) a) ∧
  "A" ∈ track_id <$> tracks_of short_term (tracks after_second_run) ∧
  second_fetch short_term = Some [item "B" "Song B" ["X"] 20].
Proof.
  split; [|split; [vm_compute; left|done]].
  intros Hall.
  specialize (Hall (artist_row short_term "2024-06-01 10:00:00"
                      ("X", {| count := 1; total_pop := 20; ranks := [1] |}))).
  destruct Hall as [Hcount _]; [vm_compute; left|].
  vm_compute in Hcount. discriminate.
Qed.

(** ** Archiver *)

Lemma on_date_hist_app d db1 db2 :
  on_date d (hist_app db1 db2) = hist_app (on_date d db1) (on_date d db2).
Proof. unfold on_date, hist_app. cbn. by rewrite !filter_app. Qed.

Lemma on_date_delete_date_eq d db : on_date d (delete_date d db) = empty_hist.
Proof.
  unfold on_date, delete_date, empty_hist. cbn.
  f_equal; apply filter_none; intros r Hr%list_elem_of_filter; tauto.
Qed.

Lemma on_date_delete_date_ne d d' db :
  d' ≠ d → on_date d' (delete_date d db) = on_date d' db.
Proof.
  intros Hne. unfold on_date, delete_date. cbn.
  f_equal; rewrite list_filter_filter; apply list_filter_iff; intros r;
    (split; [tauto|intros ->; done]).
Qed.

Lemma on_date_snapshot_eq d ts tdf adf :
  on_date d (snapshot d ts tdf adf) = snapshot d ts tdf adf.
Proof.
  unfold on_date, snapshot. cbn [historical_tracks historical_artists collection_log].
  f_equal; apply filter_all.
  - by intros r (t & -> & _)%list_elem_of_fmap.
  - by intros r (a & -> & _)%list_elem_of_fmap.
  - by intros e ->%list_elem_of_singleton.
Qed.

Lemma on_date_snapshot_ne d d' ts tdf adf :
  d' ≠ d → on_date d' (snapshot d ts tdf adf) = empty_hist.
Proof.
  intros Hne. unfold on_date, snapshot, empty_hist.
  cbn [historical_tracks historical_artists collection_log].
  f_equal; apply filter_none.
  - intros r (t & -> & _)%list_elem_of_fmap. cbn. congruence.
  - intros r (a & -> & _)%list_elem_of_fmap. cbn. congruence.
  - intros e ->%list_elem_of_singleton. cbn. congruence.
Qed.

Lemma hist_app_empty_l db : hist_app empty_hist db = db.
Proof. by destruct db. Qed.

Lemma hist_app_empty_r db : hist_app db empty_hist = db.
Proof. destruct db. unfold hist_app. cbn. by rewrite !app_nil_r. Qed.

(** No log entry for a day, in a store where every row has one: the day has
    no row at all. *)
Lemma existing_zero d db :
  existing d db = 0 ↔ d ∉ collection_date <$> collection_log db.
Proof.
  unfold existing, rows_at, log_key. split.
  - intros Hz (e & -> & He)%list_elem_of_fmap.
    assert (e ∈ filter (λ r, collection_date r = collection_date e) (collection_log db))
      as Hin by (by apply list_elem_of_filter).
    destruct (filter _ (collection_log db)); [by apply elem_of_nil in Hin|].
    simpl in Hz. lia.
  - intros Hno. rewrite filter_none; [done|].
    intros e He Heq. apply Hno. rewrite <- Heq. by apply list_elem_of_fmap_2.
Qed.

Lemma on_date_unlogged d db :
  logged db → existing d db = 0 → on_date d db = empty_hist.
Proof.
  intros [Ht Ha] Hz%existing_zero. unfold on_date, empty_hist.
  f_equal; apply filter_none.
  - intros r Hr Heq. apply Hz. rewrite <- Heq. by apply Ht.
  - intros r Hr Heq. apply Hz. rewrite <- Heq. by apply Ha.
  - intros e He Heq. apply Hz. rewrite <- Heq. by apply list_elem_of_fmap_2.
Qed.

Lemma stamp_track_keys d tdf :
  NoDup (track_key <$> tdf) →
  NoDup (historical_track_key <$> (stamp_track d <$> tdf)).
Proof.
  intros Hnd. rewrite <- list_fmap_compose.
  assert (historical_track_key ∘ stamp_track d =
          (λ k : string * time_range, (d, k.1, k.2)) ∘ track_key) as -> by done.
  rewrite list_fmap_compose. apply NoDup_fmap_2; [|done].
  intros [i w] [i' w'] [= -> ->]. done.
Qed.

Lemma stamp_artist_keys d adf :
  NoDup (artist_key <$> adf) →
  NoDup (historical_artist_key <$> (stamp_artist d <$> adf)).
Proof.
  intros Hnd. rewrite <- list_fmap_compose.
  assert (historical_artist_key ∘ stamp_artist d =
          (λ k : string * time_range, (d, k.1, k.2)) ∘ artist_key) as -> by done.
  rewrite list_fmap_compose. apply NoDup_fmap_2; [|done].
  intros [i w] [i' w'] [= -> ->]. done.
Qed.

(** The appends succeed on a store that holds nothing for the day. *)
Lemma append_snapshot_fresh today ts tdf adf db :
  NoDup (track_key <$> tdf) →
  NoDup (artist_key <$> adf) →
  on_date today db = empty_hist →
  append_snapshot today ts tdf adf db =
  Returned true (hist_app db (snapshot today ts tdf adf)).
Proof.
  intros Ht Ha Hfresh. unfold append_snapshot.
  injection Hfresh as Hft Hfa Hfl.
  rewrite to_sql_append_fresh; [|by apply stamp_track_keys|].
  2:{ intros r (t & -> & _)%list_elem_of_fmap (r' & Hkey & Hr')%list_elem_of_fmap.
      eapply (filter_nil_not_elem_of _ _ r' Hft); [|done].
      unfold historical_track_key in Hkey. cbn in Hkey. congruence. }
  rewrite to_sql_append_fresh; [|by apply stamp_artist_keys|].
  2:{ intros r (a & -> & _)%list_elem_of_fmap (r' & Hkey & Hr')%list_elem_of_fmap.
      eapply (filter_nil_not_elem_of _ _ r' Hfa); [|done].
      unfold historical_artist_key in Hkey. cbn in Hkey. congruence. }
  rewrite to_sql_append_fresh; [|apply NoDup_singleton|].
  2:{ intros e ->%list_elem_of_singleton (e' & Hkey & He')%list_elem_of_fmap.
      eapply (filter_nil_not_elem_of _ _ e' Hfl); [|done].
      unfold log_key in Hkey. cbn in Hkey. congruence. }
  unfold hist_app, snapshot, len. cbn. by rewrite !length_fmap.
Qed.

(** [store_historical_data] on a day without a log entry. *)
Lemma store_historical_data_fresh today ts response tdf adf db :
  NoDup (track_key <$> tdf) →
  NoDup (artist_key <$> adf) →
  logged db →
  existing today db = 0 →
  store_historical_data today ts response tdf adf db =
  Returned true (hist_app db (snapshot today ts tdf adf)).
Proof.
  intros Ht Ha Hlog Hz. unfold store_historical_data.
  rewrite decide_False by lia.
  apply append_snapshot_fresh; [done|done|by apply on_date_unlogged].
Qed.

(** [store_historical_data] on a day with a log entry, confirmed. *)
Lemma store_historical_data_confirmed today ts response tdf adf db :
  NoDup (track_key <$> tdf) →
  NoDup (artist_key <$> adf) →
  0 < existing today db →
  lower response = "y" →
  store_historical_data today ts response tdf adf db =
  Returned true (hist_app (delete_date today db) (snapshot today ts tdf adf)).
Proof.
  intros Ht Ha Hex Hy. unfold store_historical_data.
  rewrite decide_True by done. rewrite decide_False by (intros Hn; by apply Hn).
  apply append_snapshot_fresh; [done|done|apply on_date_delete_date_eq].
Qed.

(** [store_historical_data] on a day with a log entry, declined. *)
Lemma store_historical_data_declined today ts response tdf adf db :
  0 < existing today db →
  lower response ≠ "y" →
  store_historical_data today ts response tdf adf db = Returned false db.
Proof.
  intros Hex Hn. unfold store_historical_data.
  by rewrite !decide_True.
Qed.

Lemma collect_current_data_Some live :
  tracks live ≠ [] →
  ∃ tdf adf, collect_current_data live = Some (tdf, adf) ∧
             tdf ≡ₚ tracks live ∧ adf ≡ₚ live_artists live.
Proof.
  intros Hne. unfold collect_current_data.
  pose proof (merge_sort_Permutation tracks_order (tracks live)) as Hp.
  destruct (merge_sort tracks_order (tracks live)) as [|t tdf] eqn:Hs.
  - apply Permutation_nil_l in Hp. congruence.
  - eexists _, _. split; [done|]. split; [done|]. apply merge_sort_Permutation.
Qed.

Lemma collect_current_data_None live :
  tracks live = [] → collect_current_data live = None.
Proof. intros Hnil. unfold collect_current_data. by rewrite Hnil. Qed.

Lemma to_sql_append_Some {Row Key : Type} `{EqDecision Key} (key : Row → Key)
    rows : ∀ tbl tbl',
  to_sql_append key rows tbl = Some tbl' → tbl' = tbl ++ rows.
Proof.
  induction rows as [|r rows IH]; intros tbl tbl'; simpl.
  { intros [= <-]. by rewrite app_nil_r. }
  case_decide; [done|]. intros ->%IH. by rewrite <- app_assoc.
Qed.

Lemma append_snapshot_Returned today ts tdf adf db b db' :
  append_snapshot today ts tdf adf db = Returned b db' →
  b = true ∧ db' = hist_app db (snapshot today ts tdf adf).
Proof.
  unfold append_snapshot.
  destruct (to_sql_append historical_track_key _ _) as [ht|] eqn:Hht; [|done].
  destruct (to_sql_append historical_artist_key _ _) as [ha|] eqn:Hha; [|done].
  destruct (to_sql_append log_key _ _) as [lg|] eqn:Hlg; [|done].
  apply to_sql_append_Some in Hht, Hha, Hlg. subst.
  intros [= <- <-]. split; [done|].
  unfold hist_app, snapshot, len. cbn. by rewrite !length_fmap.
Qed.

(** Every row of the store has a log entry for its day: this holds of the
    empty store and of whatever [store_historical_data] returns. *)
Lemma logged_empty : logged empty_hist.
Proof. split; intros r Hr; by apply elem_of_nil in Hr. Qed.

Lemma logged_snapshot today ts tdf adf db :
  logged db → logged (hist_app db (snapshot today ts tdf adf)).
Proof.
  intros [Ht Ha]. unfold logged, hist_app, snapshot. cbn.
  split; intros r [Hr|Hr]%elem_of_app; rewrite fmap_app, elem_of_app.
  - left. by apply Ht.
  - right. apply list_elem_of_fmap in Hr as (t & -> & _). cbn. left.
  - left. by apply Ha.
  - right. apply list_elem_of_fmap in Hr as (a & -> & _). cbn. left.
Qed.

Lemma logged_delete_date d db : logged db → logged (delete_date d db).
Proof.
  intros [Ht Ha]. unfold logged, delete_date. cbn.
  split; intros r [Hd Hr]%list_elem_of_filter.
  - apply Ht in Hr as (e & Heq & He)%list_elem_of_fmap.
    apply list_elem_of_fmap. exists e. split; [done|].
    apply list_elem_of_filter. split; [congruence|done].
  - apply Ha in Hr as (e & Heq & He)%list_elem_of_fmap.
    apply list_elem_of_fmap. exists e. split; [done|].
    apply list_elem_of_filter. split; [congruence|done].
Qed.

Lemma store_historical_data_logged today ts response tdf adf db b db' :
  logged db →
  store_historical_data today ts response tdf adf db = Returned b db' →
  logged db'.
Proof.
  intros Hlog. unfold store_historical_data.
  repeat case_decide.
  - by intros [= <- <-].
  - intros [_ ->]%append_snapshot_Returned.
    by apply logged_snapshot, logged_delete_date.
  - intros [_ ->]%append_snapshot_Returned. by apply logged_snapshot.
Qed.

Lemma Permutation_len {A} (l1 l2 : list A) : l1 ≡ₚ l2 → len l1 = len l2.
Proof. intros Hp. unfold len. by rewrite Hp. Qed.

Lemma snapshot_Permutation today ts tdf adf tdf' adf' :
  tdf ≡ₚ tdf' → adf ≡ₚ adf' →
  historical_tracks (snapshot today ts tdf adf) ≡ₚ stamp_track today <$> tdf' ∧
  historical_artists (snapshot today ts tdf adf) ≡ₚ stamp_artist today <$> adf' ∧
  collection_log (snapshot today ts tdf adf) = [log_data today ts (len tdf') (len adf')].
Proof.
  intros Ht Ha. unfold snapshot. cbn.
  rewrite (Permutation_len _ _ Ht), (Permutation_len _ _ Ha).
  split_and!; [by rewrite Ht|by rewrite Ha|done].
Qed.

(** C3, as the code has it. For live tables that hold at least one track row
    (with [n] track rows and [m] artist rows), an Archiver run on a day
    without a log entry appends exactly the [n] live track rows and the [m]
    live artist rows, stamped with the day, and one log entry for the day
    whose counts are [n] and [m]; these are then all the store holds for the
    day. *)
Theorem archive_counts_match
    (today : date) (timestamp response : string) (live : LiveDB) (db : HistDB) :
  tracks live ≠ [] →
  live_keys_unique live →
  logged db →
  existing today db = 0 →
  ∃ ht ha e,
    archiver_main today timestamp response live db =
      Finished SuccessfullyStored
        (hist_app db {| historical_tracks := ht;
                        historical_artists := ha;
                        collection_log := [e] |}) ∧
    ht ≡ₚ stamp_track today <$> tracks live ∧
    ha ≡ₚ stamp_artist today <$> live_artists live ∧
    len ht = len (tracks live) ∧
    len ha = len (live_artists live) ∧
    collection_date e = today ∧
    tracks_collected e = len (tracks live) ∧
    artists_collected e = len (live_artists live) ∧
    on_date today
      (hist_app db {| historical_tracks := ht;
                      historical_artists := ha;
                      collection_log := [e] |}) =
      {| historical_tracks := ht; historical_artists := ha; collection_log := [e] |}.
Proof.
  intros Hne [Hkt Hka] Hlog Hz.
  destruct (collect_current_data_Some live Hne) as (tdf & adf & Hc & Ht & Ha).
  destruct (snapshot_Permutation today timestamp tdf adf _ _ Ht Ha) as (Hpt & Hpa & Hl).
  exists (stamp_track today <$> tdf), (stamp_artist today <$> adf),
         (log_data today timestamp (len (tracks live)) (len (live_artists live))).
  split_and!; try done.
  - unfold archiver_main. rewrite Hc.
    rewrite store_historical_data_fresh; [|by rewrite Ht|by rewrite Ha|done|done].
    unfold snapshot. by rewrite (Permutation_len _ _ Ht), (Permutation_len _ _ Ha).
  - unfold len. rewrite length_fmap. by rewrite Ht.
  - unfold len. rewrite length_fmap. by rewrite Ha.
  - rewrite on_date_hist_app, on_date_unlogged, hist_app_empty_l by done.
    pose proof (on_date_snapshot_eq today timestamp tdf adf) as Hs.
    unfold snapshot in Hs.
    by rewrite (Permutation_len _ _ Ht), (Permutation_len _ _ Ha) in Hs.
Qed.

Lemma archive_counts_match_witness :
  ∃ ht ha e,
    archiver_main june_first "2024-06-01 12:00:00" "" after_second_run archived_in_may =
      Finished SuccessfullyStored
        (hist_app archived_in_may {| historical_tracks := ht;
                                     historical_artists := ha;
                                     collection_log := [e] |}) ∧
    ht ≡ₚ stamp_track june_first <$> tracks after_second_run ∧
    ha ≡ₚ stamp_artist june_first <$> live_artists after_second_run ∧
    len ht = len (tracks after_second_run) ∧
    len ha = len (live_artists after_second_run) ∧
    collection_date e = june_first ∧
    tracks_collected e = len (tracks after_second_run) ∧
    artists_collected e = len (live_artists after_second_run) ∧
    on_date june_first
      (hist_app archived_in_may {| historical_tracks := ht;
                                   historical_artists := ha;
                                   collection_log := [e] |}) =
      {| historical_tracks := ht; historical_artists := ha; collection_log := [e] |}.
Proof.
  apply (archive_counts_match june_first "2024-06-01 12:00:00" ""
           after_second_run archived_in_may).
  - by vm_compute.
  - split; apply (bool_decide_unpack _); by vm_compute.
  - apply logged_snapshot, logged_empty.
  - by vm_compute.
Defined.

(** C3 fails as stated on empty live tables: [collect_current_data] finds
    the track frame empty and the run ends there, with no log entry (the
    claim has it write one whose counts are zero). *)
Lemma empty_live_tables_are_not_archived :
  existing june_first archived_in_may = 0 ∧
  (∀ response,
     archiver_main june_first "2024-06-01 12:00:00" response empty_live archived_in_may =
     Finished CannotCollect archived_in_may) ∧
  june_first ∉ collection_date <$> collection_log archived_in_may.
Proof.
  split; [by vm_compute|]. split; [done|].
  apply existing_zero. by vm_compute.
Qed.

(** C1. On a store that already has a log entry for the day: when the
    prompt is declined (any answer that does not lower-case to [y]) the call
    returns [False] and the store is unchanged; when it is confirmed, the
    run succeeds, leaves every other day as it was, and what the store then
    holds for the day is what one archive of the same live tables leaves for
    the day on a store that had nothing for it. *)
Theorem rearchive_is_noop_or_replace
    (today : date) (timestamp response : string) (live : LiveDB) (db : HistDB) :
  0 < existing today db →
  (lower response ≠ "y" →
   (∀ tracks_df artists_df,
      store_historical_data today timestamp response tracks_df artists_df db =
      Returned false db) ∧
   ∃ r, archiver_main today timestamp response live db = Finished r db) ∧
  (lower response = "y" →
   tracks live ≠ [] →
   live_keys_unique live →
   ∃ db',
     archiver_main today timestamp response live db = Finished SuccessfullyStored db' ∧
     (∀ d, d ≠ today → on_date d db' = on_date d db) ∧
     (∀ fresh response',
        logged fresh →
        existing today fresh = 0 →
        ∃ db'',
          archiver_main today timestamp response' live fresh =
            Finished SuccessfullyStored db'' ∧
          on_date today db' = on_date today db'')).
Proof.
  intros Hex. split.
  - intros Hn. split.
    + intros tdf adf. by apply store_historical_data_declined.
    + unfold archiver_main. destruct (collect_current_data live) as [[tdf adf]|].
      * rewrite store_historical_data_declined by done. by eexists.
      * by eexists.
  - intros Hy Hne [Hkt Hka].
    destruct (collect_current_data_Some live Hne) as (tdf & adf & Hc & Ht & Ha).
    exists (hist_app (delete_date today db) (snapshot today timestamp tdf adf)).
    split_and!.
    + unfold archiver_main. rewrite Hc.
      by rewrite store_historical_data_confirmed;
        [|by rewrite Ht|by rewrite Ha|done|done].
    + intros d Hd. rewrite on_date_hist_app, on_date_delete_date_ne by done.
      by rewrite on_date_snapshot_ne, hist_app_empty_r.
    + intros fresh response' Hlog Hz.
      exists (hist_app fresh (snapshot today timestamp tdf adf)). split.
      * unfold archiver_main. rewrite Hc.
        by rewrite store_historical_data_fresh;
          [|by rewrite Ht|by rewrite Ha|done|done].
      * rewrite !on_date_hist_app, on_date_delete_date_eq.
        by rewrite (on_date_unlogged today fresh).
Qed.

Lemma rearchive_is_noop_or_replace_witness :
  (∃ r, archiver_main may_first "2024-05-01 18:00:00" "n" after_second_run
          archived_in_may = Finished r archived_in_may) ∧
  ∃ db',
    archiver_main may_first "2024-05-01 18:00:00" "Y" after_second_run
      archived_in_may = Finished SuccessfullyStored db' ∧
    ∃ db'',
      archiver_main may_first "2024-05-01 18:00:00" "" after_second_run
        empty_hist = Finished SuccessfullyStored db'' ∧
      on_date may_first db' = on_date may_first db''.
Proof.
  split.
  - apply (rearchive_is_noop_or_replace may_first "2024-05-01 18:00:00" "n"
             after_second_run archived_in_may); by vm_compute.
  - destruct (rearchive_is_noop_or_replace may_first "2024-05-01 18:00:00" "Y"
                after_second_run archived_in_may) as [_ Hconfirm]; [by vm_compute|].
    destruct Hconfirm as (db' & Hrun & _ & Hfresh).
    + by vm_compute.
    + by vm_compute.
    + split; apply (bool_decide_unpack _); by vm_compute.
    + exists db'. split; [done|].
      apply (Hfresh empty_hist ""); [apply logged_empty|by vm_compute].
Defined.

(** ** Metric engine *)

Lemma elem_of_unique {A} `{EqDecision A} (l : list A) x : x ∈ unique l ↔ x ∈ l.
Proof.
  induction l as [|y l IH]; simpl; [done|].
  rewrite !elem_of_cons, list_elem_of_filter, IH.
  destruct (decide (x = y)); tauto.
Qed.

Lemma NoDup_unique {A} `{EqDecision A} (l : list A) : NoDup (unique l).
Proof.
  induction l as [|y l IH]; simpl; [apply NoDup_nil_2|].
  apply NoDup_cons. split.
  - rewrite list_elem_of_filter. by intros [? _].
  - by apply NoDup_filter.
Qed.

Lemma unique_nil_inv {A} `{EqDecision A} (l : list A) : unique l = [] → l = [].
Proof. by destruct l. Qed.

Lemma len_nonneg {A} (l : list A) : 0 ≤ len l.
Proof. unfold len. lia. Qed.

Lemma len_zero_inv {A} (l : list A) : len l = 0 → l = [].
Proof. unfold len. destruct l; [done|simpl; lia]. Qed.

Lemma true_div_Some a b :
  b ≠ 0 → true_div a b = Some (Qc_of_Z a / Qc_of_Z b)%Qc.
Proof. intros Hb. unfold true_div. by rewrite decide_False. Qed.

(** The head of [value_counts] is a value of the column with the largest
    number of rows. *)
Lemma value_counts_head col top :
  head (value_counts col) = Some top →
  top.1 ∈ col ∧
  top.2 = len (filter (λ b, b = top.1) col) ∧
  ∀ b, len (filter (λ c, c = b) col) ≤ top.2.
Proof.
  intros Hhead. unfold value_counts in Hhead.
  set (entries := (λ a, (a, len (filter (λ b, b = a) col))) <$> unique col) in *.
  pose proof (merge_sort_Permutation counts_order entries) as Hperm.
  pose proof (StronglySorted_merge_sort counts_order entries) as Hsorted.
  destruct (merge_sort counts_order entries) as [|x rest] eqn:Hs; [done|].
  injection Hhead as ->.
  assert (top ∈ entries) as Htop by (rewrite <- Hperm; left).
  apply list_elem_of_fmap in Htop as (a & -> & Ha).
  apply (proj1 (elem_of_unique col a)) in Ha.
  cbn [fst snd]. split; [done|]. split; [done|]. intros b.
  destruct (decide (b ∈ col)) as [Hb|Hb].
  - assert ((b, len (filter (λ c, c = b) col)) ∈ entries) as Hin.
    { apply list_elem_of_fmap. exists b. split; [done|]. by apply elem_of_unique. }
    rewrite <- Hperm in Hin. apply elem_of_cons in Hin as [Heq|Hin].
    + injection Heq as -> _. lia.
    + apply StronglySorted_inv in Hsorted as [_ Hall].
      rewrite Forall_forall in Hall. by apply Hall in Hin.
  - rewrite (filter_none _ col); [apply len_nonneg|].
    intros c Hc ->. by apply Hb.
Qed.

Lemma value_counts_len col : len (value_counts col) = len (unique col).
Proof.
  unfold value_counts, len.
  by rewrite merge_sort_Permutation, length_fmap.
Qed.

Lemma value_counts_nonempty col : col ≠ [] → ∃ top, head (value_counts col) = Some top.
Proof.
  intros Hne. destruct (value_counts col) as [|x rest] eqn:Hv; [|by eexists].
  exfalso. apply Hne, unique_nil_inv, len_zero_inv.
  by rewrite <- value_counts_len, Hv.
Qed.

Lemma filter_fmap_len {A B} (f : A → B) (P : B → Prop) `{!∀ y, Decision (P y)}
    (l : list A) :
  len (filter P (f <$> l)) = len (filter (λ x, P (f x)) l).
Proof.
  unfold len. f_equal. induction l as [|x l IH]; [done|].
  rewrite fmap_cons, !filter_cons. case_decide; simpl; by rewrite IH.
Qed.






(** Without a song that has two rows there is no standard deviation to
    average: the ranking volatility is NaN. *)
Lemma ranking_volatility_NaN std to_year tbl :
  (∀ k, period_count tbl k ≤ 1) →
  ranking_volatility (calculate_mood_signals std to_year tbl) = NaN.
Proof.
  intros Hone. unfold calculate_mood_signals. cbn [ranking_volatility].
  rewrite filter_none; [done|].
  intros sc (k & -> & _)%list_elem_of_fmap. cbn [snd].
  pose proof (Hone k) as Hk. unfold period_count in Hk. lia.
Qed.

Lemma calculate_identity_signals_Some tbl top :
  tbl ≠ [] →
  head (value_counts (artist_name <$> tbl)) = Some top →
  calculate_identity_signals tbl =
  Some {| persistence_score :=
            (Qc_of_Z (len (persistent_songs tbl)) / Qc_of_Z (len (song_groups tbl))
             * hundred)%Qc;
          niche_percentage :=
            (Qc_of_Z (len (niche_tracks tbl)) / Qc_of_Z (len tbl) * hundred)%Qc;
          artist_dominance := (Qc_of_Z top.2 / Qc_of_Z (len tbl) * hundred)%Qc;
          artist_diversity :=
            (Qc_of_Z (len (unique (artist_name <$> tbl))) / Qc_of_Z (len tbl))%Qc |}.
Proof.
  intros Hne Htop.
  assert (len tbl ≠ 0) as Hlen by (intros ?%len_zero_inv; done).
  assert (len (song_groups tbl) ≠ 0) as Hgroups.
  { intros H%len_zero_inv%unique_nil_inv. by destruct tbl. }
  unfold calculate_identity_signals.
  rewrite (true_div_Some _ _ Hgroups). cbn [mbind option_bind].
  rewrite (true_div_Some _ _ Hlen). cbn [mbind option_bind].
  rewrite Htop. cbn [mbind option_bind].
  rewrite !(true_div_Some _ _ Hlen). cbn [mbind option_bind].
  by rewrite value_counts_len.
Qed.



(** ** Persistence score *)

Lemma elem_of_pair_windows tbl k w :
  w ∈ pair_windows tbl k ↔
  w ∈ track_time_range <$> filter (λ t, song_key t = k) tbl.
Proof.
  unfold pair_windows. rewrite list_elem_of_filter, Exists_exists, list_elem_of_fmap.
  split.
  - intros [(t & Ht & Hk & Hw) _]. exists t. split; [done|].
    by apply list_elem_of_filter.
  - intros (t & -> & [Hk Ht]%list_elem_of_filter). split; [by exists t|].
    unfold time_periods. destruct (track_time_range t);
      [left|right; left|right; right; left].
Qed.

(** When no two rows share song, artist and window, the number of rows of a
    song is the number of windows it appears in. *)
Lemma period_count_pair_windows tbl k :
  NoDup ((λ t, (song_key t, track_time_range t)) <$> tbl) →
  period_count tbl k = len (pair_windows tbl k).
Proof.
  intros Hnd. unfold period_count.
  set (G := filter (λ t, song_key t = k) tbl).
  assert (NoDup (track_time_range <$> G)) as HndW.
  { assert (NoDup ((λ t, (song_key t, track_time_range t)) <$> G)) as HndG.
    { eapply sublist_NoDup; [exact Hnd|]. apply fmap_sublist, sublist_filter. }
    assert (track_time_range <$> G =
            snd <$> ((λ t, (song_key t, track_time_range t)) <$> G)) as ->.
    { by rewrite <- list_fmap_compose. }
    apply NoDup_fmap_2_strong; [|done].
    intros x y (t & -> & [Ht _]%list_elem_of_filter)%list_elem_of_fmap
               (u & -> & [Hu _]%list_elem_of_filter)%list_elem_of_fmap.
    cbn. intros ->. by rewrite Ht, Hu. }
  assert (NoDup (pair_windows tbl k)) as HndP.
  { apply NoDup_filter. apply (bool_decide_unpack _). by vm_compute. }
  unfold len. f_equal. rewrite <- (length_fmap track_time_range).
  apply Permutation_length, NoDup_Permutation; [done|done|].
  intros w. by rewrite elem_of_pair_windows.
Qed.

(** Away from that case the code and the specification compute the same
    persistence score. *)
Lemma persistence_score_agrees tbl :
  NoDup ((λ t, (song_key t, track_time_range t)) <$> tbl) →
  persistence_score <$> calculate_identity_signals tbl = spec_persistence_score tbl.
Proof.
  intros Hnd. destruct (decide (tbl = [])) as [->|Hne]; [done|].
  destruct (value_counts_nonempty (artist_name <$> tbl)) as [top Htop].
  { by destruct tbl. }
  rewrite (calculate_identity_signals_Some tbl top Hne Htop).
  cbn [fmap option_fmap option_map persistence_score].
  unfold spec_persistence_score.
  assert (len (song_groups tbl) ≠ 0) as Hgroups.
  { intros H%len_zero_inv%unique_nil_inv. by destruct tbl. }
  rewrite (true_div_Some _ _ Hgroups). cbn [mbind option_bind].
  do 5 f_equal. unfold persistent_songs.
  apply list_filter_iff. intros k. by rewrite period_count_pair_windows.
Qed.

Lemma two_elems_len {A} (l : list A) x y : x ∈ l → y ∈ l → x ≠ y → 2 ≤ len l.
Proof.
  unfold len. destruct l as [|a [|b l]]; simpl.
  - intros Hx. by apply elem_of_nil in Hx.
  - intros ->%list_elem_of_singleton ->%list_elem_of_singleton. done.
  - lia.
Qed.

(** The score of the code is 100 when every song is in all three windows. *)
Lemma persistence_score_all_windows tbl :
  tbl ≠ [] →
  (∀ k, k ∈ song_groups tbl → pair_windows tbl k = time_periods) →
  persistence_score <$> calculate_identity_signals tbl = Some hundred.
Proof.
  intros Hne Hall.
  destruct (value_counts_nonempty (artist_name <$> tbl)) as [top Htop].
  { by destruct tbl. }
  rewrite (calculate_identity_signals_Some tbl top Hne Htop).
  cbn [fmap option_fmap option_map persistence_score]. f_equal.
  assert (persistent_songs tbl = song_groups tbl) as ->.
  { apply filter_all. intros k Hk. unfold period_count.
    assert (short_term ∈ pair_windows tbl k) as Hs by (rewrite Hall by done; left).
    assert (long_term ∈ pair_windows tbl k) as Hl
      by (rewrite Hall by done; right; right; left).
    apply elem_of_pair_windows, list_elem_of_fmap in Hs as (t & Hsw & Ht).
    apply elem_of_pair_windows, list_elem_of_fmap in Hl as (u & Hlw & Hu).
    apply (two_elems_len _ t u); [done|done|]. intros ->. congruence. }
  assert (Qc_of_Z (len (song_groups tbl)) ≠ Qc_of_Z 0) as Hnz.
  { intros H%Z2Qc_inj%len_zero_inv%unique_nil_inv. by destruct tbl. }
  rewrite Z2Qc_inj_0 in Hnz.
  unfold Qcdiv. rewrite Qcmult_inv_r by done. apply Qcmult_1_l.
Qed.

Lemma all_three_windows_score :
  persistence_score <$> calculate_identity_signals all_three_windows = Some hundred ∧
  spec_persistence_score all_three_windows = Some hundred.
Proof.
  split.
  - apply persistence_score_all_windows; [done|].
    intros k Hk. vm_compute in Hk.
    repeat (apply elem_of_cons in Hk as [->|Hk]; [by vm_compute|]).
    by apply elem_of_nil in Hk.
  - rewrite <- persistence_score_agrees.
    + apply persistence_score_all_windows; [done|].
      intros k Hk. vm_compute in Hk.
      repeat (apply elem_of_cons in Hk as [->|Hk]; [by vm_compute|]).
      by apply elem_of_nil in Hk.
    + apply (bool_decide_unpack _). by vm_compute.
Qed.

(** C6, on the code. [period_count] counts the rows of a (track name, artist
    name) group, not its windows: two releases of one song in a single
    window make it persistent. On that table the code's score is 100; the
    score of the specification, and the rate the sibling computation in
    [print_advanced_analysis] gives from the distinct windows, is 0. *)
Lemma period_count_counts_rows :
  pair_windows same_song_twice ("Song", "X") = [short_term] ∧
  period_count same_song_twice ("Song", "X") = 2 ∧
  persistence_score <$> calculate_identity_signals same_song_twice = Some hundred ∧
  spec_persistence_score same_song_twice = Some (Qc_of_Z 0) ∧
  persistence_rate same_song_twice = Some (Qc_of_Z 0).
Proof.
  split_and!; try done; vm_compute; f_equal; apply Qc_is_canon; reflexivity.
Qed.

(** ** Trend slope *)

Lemma insert_by_Permutation {A} (le : A → A → Prop) `{!∀ x y, Decision (le x y)} x s :
  insert_by le x s ≡ₚ x :: s.
Proof.
  induction s as [|y s IH]; simpl; [done|].
  case_decide; [done|]. rewrite IH. apply Permutation_swap.
Qed.

Lemma sorted_by_Permutation {A} (le : A → A → Prop) `{!∀ x y, Decision (le x y)} l :
  sorted_by le l ≡ₚ l.
Proof.
  unfold sorted_by. induction l as [|x l IH]; simpl; [done|].
  by rewrite insert_by_Permutation, IH.
Qed.

Lemma len_unique_le {A} `{EqDecision A} (l : list A) : len (unique l) ≤ len l.
Proof.
  unfold len. induction l as [|x l IH]; simpl; [done|].
  pose proof (length_filter (λ y, y ≠ x) (unique l)). lia.
Qed.

Lemma elem_of_artist_trends fit tbl artist tr :
  (artist, tr) ∈ artist_trends fit tbl ↔
  artist ∈ artist_name <$> tbl ∧ artist_trend fit tbl artist = Some tr.
Proof.
  unfold artist_trends. rewrite list_elem_of_omap. split.
  - intros (a & Ha & Heq). apply (proj1 (elem_of_unique _ _)) in Ha.
    destruct (artist_trend fit tbl a) as [v|] eqn:Hv; [|done].
    injection Heq as -> ->. done.
  - intros [Ha Hv]. exists artist. split; [by apply (proj2 (elem_of_unique _ _))|].
    by rewrite Hv.
Qed.

Lemma elem_of_improving_artists fit tbl artist tr :
  (artist, tr) ∈ improving_artists fit tbl ↔
  (artist, tr) ∈ artist_trends fit tbl ∧ (slope tr < Qc_of_Z (-1))%Qc.
Proof.
  unfold improving_artists. rewrite sorted_by_Permutation, list_elem_of_filter.
  cbn. tauto.
Qed.

Lemma elem_of_declining_artists fit tbl artist tr :
  (artist, tr) ∈ declining_artists fit tbl ↔
  (artist, tr) ∈ artist_trends fit tbl ∧ (Qc_of_Z 1 < slope tr)%Qc.
Proof.
  unfold declining_artists. rewrite sorted_by_Permutation, list_elem_of_filter.
  cbn. tauto.
Qed.

(** The sum of products of deviations, expanded. *)
Lemma sum_deviations {A} (f g : A → Z) (mx my : Qc) (l : list A) :
  sum_Qc ((λ p, (Qc_of_Z (f p) - mx) * (Qc_of_Z (g p) - my))%Qc <$> l) =
  (Qc_of_Z (sum_Z ((λ p, (f p * g p)%Z) <$> l)) - mx * Qc_of_Z (sum_Z (g <$> l))
   - my * Qc_of_Z (sum_Z (f <$> l)) + Qc_of_Z (len l) * mx * my)%Qc.
Proof.
  induction l as [|p l IH].
  { rewrite !fmap_nil. change (sum_Qc []) with (Q2Qc 0).
    change (sum_Z []) with 0. change (len ([] : list A)) with 0.
    rewrite Z2Qc_inj_0. ring. }
  rewrite !fmap_cons.
  change (sum_Qc (?x :: ?l)) with (x + sum_Qc l)%Qc.
  change (sum_Z (?x :: ?l)) with (x + sum_Z l).
  rewrite IH.
  assert (len (p :: l) = 1 + len l) as -> by (unfold len; simpl; lia).
  rewrite !Z2Qc_inj_add, Z2Qc_inj_mul, Z2Qc_inj_1. ring.
Qed.

Lemma Qcdiv_0_r (x : Qc) : (x / 0 = 0)%Qc.
Proof. unfold Qcdiv. apply Qc_is_canon. destruct x as [q Hq]. simpl.
  rewrite Qred_correct. unfold Qmult, Qinv, Qeq. simpl. lia. Qed.

(** The slope of the normal equations is the slope of the deviations. *)
Lemma least_squares_slope_regression_slope pts :
  least_squares_slope pts = regression_slope pts.
Proof.
  destruct (decide (pts = [])) as [->|Hne].
  { apply Qc_is_canon. reflexivity. }
  unfold least_squares_slope, regression_slope.
  rewrite (sum_deviations fst snd), (sum_deviations fst fst).
  unfold mean_Z.
  assert (len (fst <$> pts) = len pts) as -> by (unfold len; by rewrite length_fmap).
  assert (len (snd <$> pts) = len pts) as -> by (unfold len; by rewrite length_fmap).
  rewrite !Z2Qc_inj_sub, !Z2Qc_inj_mul.
  set (n := Qc_of_Z (len pts)).
  set (sx := Qc_of_Z (sum_Z (fst <$> pts))).
  set (sy := Qc_of_Z (sum_Z (snd <$> pts))).
  set (sxy := Qc_of_Z (sum_Z ((λ p, p.1 * p.2) <$> pts))).
  set (sxx := Qc_of_Z (sum_Z ((λ p, p.1 * p.1) <$> pts))).
  assert (n ≠ 0%Qc) as Hn.
  { unfold n. rewrite <- Z2Qc_inj_0. intros H%Z2Qc_inj%len_zero_inv. done. }
  assert (sxy - sx / n * sy - sy / n * sx + n * (sx / n) * (sy / n) =
          (n * sxy - sx * sy) / n)%Qc as -> by (field; done).
  assert (sxx - sx / n * sx - sx / n * sx + n * (sx / n) * (sx / n) =
          (n * sxx - sx * sx) / n)%Qc as -> by (field; done).
  destruct (decide (n * sxx - sx * sx = 0)%Qc) as [Hd|Hd].
  - rewrite Hd.
    assert (0 / n = 0)%Qc as -> by (unfold Qcdiv; apply Qcmult_0_l).
    by rewrite !Qcdiv_0_r.
  - field. done.
Qed.

(** *** The fit minimises the residual sum of squares *)

Lemma Qcsquare_nonneg (x : Qc) : (0 ≤ x * x)%Qc.
Proof.
  destruct (Qclt_le_dec x 0) as [Hneg|Hpos].
  - assert (x * x = (- x) * (- x))%Qc as -> by ring.
    assert (0 ≤ - x)%Qc as Hx.
    { apply Qclt_le_weak, Qcle_minus_iff in Hneg. by rewrite Qcplus_0_l in Hneg. }
    by apply Qcmult_nonneg_nonneg.
  - by apply Qcmult_nonneg_nonneg.
Qed.

Lemma sum_Qc_squares_nonneg {A} (f : A → Qc) (l : list A) :
  (0 ≤ sum_Qc ((λ p, f p * f p)%Qc <$> l))%Qc.
Proof.
  induction l as [|p l IH]; [done|].
  rewrite fmap_cons. change (sum_Qc (?x :: ?l)) with (x + sum_Qc l)%Qc.
  apply Qcplus_nonneg_nonneg; [apply Qcsquare_nonneg|done].
Qed.

Lemma sum_Qc_squares_pos {A} (f : A → Qc) (l : list A) p :
  p ∈ l → f p ≠ 0%Qc → (0 < sum_Qc ((λ p, f p * f p)%Qc <$> l))%Qc.
Proof.
  induction l as [|q l IH]; intros Hp Hf; [by apply elem_of_nil in Hp|].
  rewrite fmap_cons. change (sum_Qc (?x :: ?l)) with (x + sum_Qc l)%Qc.
  apply elem_of_cons in Hp as [<-|Hp].
  - apply Qcplus_pos_nonneg; [|apply sum_Qc_squares_nonneg].
    destruct (Qcle_lt_or_eq _ _ (Qcsquare_nonneg (f p))) as [|Hz]; [done|].
    symmetry in Hz. by apply Qcmult_integral in Hz as [?|?].
  - apply Qcplus_nonneg_pos; [apply Qcsquare_nonneg|by apply IH].
Qed.

Lemma residual_sum_of_squares_expand a b pts :
  residual_sum_of_squares a b pts =
  (Qc_of_Z (sum_Z ((λ p, (p.2 * p.2)%Z) <$> pts))
   - (1 + 1) * a * Qc_of_Z (sum_Z (snd <$> pts))
   - (1 + 1) * b * Qc_of_Z (sum_Z ((λ p, (p.1 * p.2)%Z) <$> pts))
   + Qc_of_Z (len pts) * a * a
   + (1 + 1) * a * b * Qc_of_Z (sum_Z (fst <$> pts))
   + b * b * Qc_of_Z (sum_Z ((λ p, (p.1 * p.1)%Z) <$> pts)))%Qc.
Proof.
  unfold residual_sum_of_squares. induction pts as [|p pts IH].
  { rewrite !fmap_nil. change (sum_Qc []) with (Q2Qc 0).
    change (sum_Z []) with 0. change (len ([] : list (Z * Z))) with 0.
    rewrite Z2Qc_inj_0. ring. }
  rewrite !fmap_cons.
  change (sum_Qc (?x :: ?l)) with (x + sum_Qc l)%Qc.
  change (sum_Z (?x :: ?l)) with (x + sum_Z l).
  rewrite IH.
  assert (len (p :: pts) = 1 + len pts) as -> by (unfold len; simpl; lia).
  rewrite !Z2Qc_inj_add, !Z2Qc_inj_mul, Z2Qc_inj_1. ring.
Qed.

Lemma line_squares_expand (c e : Qc) (pts : list (Z * Z)) :
  sum_Qc ((λ p, (c + e * Qc_of_Z p.1) * (c + e * Qc_of_Z p.1))%Qc <$> pts) =
  (Qc_of_Z (len pts) * c * c + (1 + 1) * c * e * Qc_of_Z (sum_Z (fst <$> pts))
   + e * e * Qc_of_Z (sum_Z ((λ p, (p.1 * p.1)%Z) <$> pts)))%Qc.
Proof.
  induction pts as [|p pts IH].
  { rewrite !fmap_nil. change (sum_Qc []) with (Q2Qc 0).
    change (sum_Z []) with 0. change (len ([] : list (Z * Z))) with 0.
    rewrite Z2Qc_inj_0. ring. }
  rewrite !fmap_cons.
  change (sum_Qc (?x :: ?l)) with (x + sum_Qc l)%Qc.
  change (sum_Z (?x :: ?l)) with (x + sum_Z l).
  rewrite IH.
  assert (len (p :: pts) = 1 + len pts) as -> by (unfold len; simpl; lia).
  rewrite !Z2Qc_inj_add, !Z2Qc_inj_mul, Z2Qc_inj_1. ring.
Qed.

(** Two points with distinct abscissas: the denominator of the slope is not
    zero. *)
Lemma slope_denominator_nonzero (pts : list (Z * Z)) p q :
  p ∈ pts → q ∈ pts → p.1 ≠ q.1 →
  Qc_of_Z (len pts * sum_Z ((λ p, p.1 * p.1) <$> pts)
           - sum_Z (fst <$> pts) * sum_Z (fst <$> pts)) ≠ 0%Qc.
Proof.
  intros Hp Hq Hpq.
  assert (Qc_of_Z (len pts) ≠ 0%Qc) as Hn.
  { rewrite <- Z2Qc_inj_0. intros ->%Z2Qc_inj%len_zero_inv. by apply elem_of_nil in Hp. }
  set (m := mean_Z (fst <$> pts)).
  assert (∃ r, r ∈ pts ∧ (Qc_of_Z r.1 - m)%Qc ≠ 0%Qc) as (r & Hr & Hrm).
  { destruct (decide (Qc_of_Z p.1 - m = 0)%Qc) as [Hpm|Hpm]; [|by exists p].
    exists q. split; [done|]. intros Hqm. apply Hpq, Z2Qc_inj.
    assert (Qc_of_Z p.1 = Qc_of_Z p.1 - m + m)%Qc as -> by ring.
    assert (Qc_of_Z q.1 = Qc_of_Z q.1 - m + m)%Qc as -> by ring.
    by rewrite Hpm, Hqm. }
  pose proof (sum_Qc_squares_pos (λ p, Qc_of_Z p.1 - m)%Qc pts r Hr Hrm) as Hpos.
  cbn beta in Hpos. rewrite (sum_deviations fst fst) in Hpos.
  unfold m, mean_Z in Hpos.
  assert (len (fst <$> pts) = len pts) as Hlen by (unfold len; by rewrite length_fmap).
  rewrite Hlen in Hpos.
  rewrite Z2Qc_inj_sub, !Z2Qc_inj_mul.
  intros Hd. apply Qclt_not_eq in Hpos. apply Hpos.
  set (n := Qc_of_Z (len pts)) in *.
  set (sx := Qc_of_Z (sum_Z (fst <$> pts))) in *.
  set (sxx := Qc_of_Z (sum_Z ((λ p, p.1 * p.1) <$> pts))) in *.
  assert (sxx - sx / n * sx - sx / n * sx + n * (sx / n) * (sx / n) =
          (n * sxx - sx * sx) / n)%Qc as -> by (field; done).
  rewrite Hd. unfold Qcdiv. by rewrite Qcmult_0_l.
Qed.

(** Ordinary least squares: no line has a smaller residual sum of squares
    than the fitted one. *)
Lemma least_squares_line_minimal (pts : list (Z * Z)) p q (a b : Qc) :
  p ∈ pts → q ∈ pts → p.1 ≠ q.1 →
  (residual_sum_of_squares (least_squares_intercept pts) (least_squares_slope pts) pts
   ≤ residual_sum_of_squares a b pts)%Qc.
Proof.
  intros Hp Hq Hpq.
  pose proof (slope_denominator_nonzero pts p q Hp Hq Hpq) as Hd.
  assert (Qc_of_Z (len pts) ≠ 0%Qc) as Hn.
  { rewrite <- Z2Qc_inj_0. intros ->%Z2Qc_inj%len_zero_inv. by apply elem_of_nil in Hp. }
  set (a0 := least_squares_intercept pts). set (b0 := least_squares_slope pts).
  assert (residual_sum_of_squares a b pts =
          residual_sum_of_squares a0 b0 pts +
          sum_Qc ((λ p, ((a - a0) + (b - b0) * Qc_of_Z p.1) *
                        ((a - a0) + (b - b0) * Qc_of_Z p.1))%Qc <$> pts))%Qc as ->.
  { rewrite !residual_sum_of_squares_expand, line_squares_expand.
    unfold a0, b0, least_squares_intercept, least_squares_slope, mean_Z.
    assert (len (fst <$> pts) = len pts) as -> by (unfold len; by rewrite length_fmap).
    assert (len (snd <$> pts) = len pts) as -> by (unfold len; by rewrite length_fmap).
    rewrite !Z2Qc_inj_sub, !Z2Qc_inj_mul in *.
    set (n := Qc_of_Z (len pts)) in *.
    set (sx := Qc_of_Z (sum_Z (fst <$> pts))) in *.
    set (sy := Qc_of_Z (sum_Z (snd <$> pts))) in *.
    set (sxy := Qc_of_Z (sum_Z ((λ p, p.1 * p.2) <$> pts))) in *.
    set (sxx := Qc_of_Z (sum_Z ((λ p, p.1 * p.1) <$> pts))) in *.
    set (syy := Qc_of_Z (sum_Z ((λ p, p.2 * p.2) <$> pts))) in *.
    field. by split. }
  rewrite <- (Qcplus_0_r (residual_sum_of_squares a0 b0 pts)) at 1.
  apply Qcplus_le_compat; [apply Qcle_refl|].
  apply (sum_Qc_squares_nonneg (λ p, (a - a0) + (b - b0) * Qc_of_Z p.1)%Qc).
Qed.

Lemma unique_two {A} `{EqDecision A} (l : list A) :
  2 ≤ len (unique l) → ∃ x y, x ∈ l ∧ y ∈ l ∧ x ≠ y.
Proof.
  intros Hlen. pose proof (NoDup_unique l) as Hnd.
  assert (∀ z, z ∈ unique l → z ∈ l) as Hsub by (intros z; apply elem_of_unique).
  destruct (unique l) as [|x [|y rest]]; unfold len in Hlen; simpl in Hlen; try lia.
  exists x, y. split_and!; [apply Hsub; left|apply Hsub; right; left|].
  apply NoDup_cons in Hnd as [Hx _]. intros ->. apply Hx. left.
Qed.

Lemma fit_points_two_abscissas rows :
  2 ≤ len (unique (track_time_range <$> rows)) →
  ∃ p q, p ∈ fit_points rows ∧ q ∈ fit_points rows ∧ p.1 ≠ q.1.
Proof.
  intros (w & v & Hw & Hv & Hne)%unique_two.
  apply list_elem_of_fmap in Hw as (t & -> & Ht).
  apply list_elem_of_fmap in Hv as (u & -> & Hu).
  exists (period_order (track_time_range t), rank_position t),
         (period_order (track_time_range u), rank_position u).
  split_and!.
  - by apply (list_elem_of_fmap_2 (λ t, (period_order (track_time_range t), rank_position t))).
  - by apply (list_elem_of_fmap_2 (λ t, (period_order (track_time_range t), rank_position t))).
  - cbn. intros Heq. apply Hne.
    by destruct (track_time_range t), (track_time_range u).
Qed.

Lemma artist_trend_Some fit tbl artist c :
  2 ≤ len (unique (track_time_range <$> artist_data tbl artist)) →
  fit (fit_points (artist_data tbl artist)) = Some c →
  artist_trend fit tbl artist =
  Some {| slope := c;
          periods := len (unique (track_time_range <$> artist_data tbl artist));
          trend_avg_rank := mean_rank (rank_position <$> artist_data tbl artist);
          trend_track_count := len (artist_data tbl artist) |}.
Proof.
  intros Hw Hfit. unfold artist_trend.
  pose proof (len_unique_le (track_time_range <$> artist_data tbl artist)) as Hle.
  assert (len (track_time_range <$> artist_data tbl artist) =
          len (artist_data tbl artist)) as Hlen
    by (unfold len; by rewrite length_fmap).
  rewrite !decide_True by lia. by rewrite Hfit.
Qed.

Lemma artist_trend_None fit tbl artist :
  len (unique (track_time_range <$> artist_data tbl artist)) < 2 →
  artist_trend fit tbl artist = None.
Proof. intros Hw. unfold artist_trend. by rewrite decide_False by lia. Qed.

Lemma artist_trend_raises fit tbl artist :
  fit (fit_points (artist_data tbl artist)) = None →
  artist_trend fit tbl artist = None.
Proof. intros Hfit. unfold artist_trend. repeat case_decide; by rewrite ?Hfit. Qed.

Lemma artist_data_elem tbl artist :
  artist_data tbl artist ≠ [] → artist ∈ artist_name <$> tbl.
Proof.
  unfold artist_data. destruct (filter _ tbl) as [|t rows] eqn:Hf; [done|]. intros _.
  assert (t ∈ filter (λ t, artist_name t = artist) tbl) as Ht by (rewrite Hf; left).
  apply list_elem_of_filter in Ht as [<- Ht]. by apply list_elem_of_fmap_2.
Qed.

(** A returned slope within [eps] of the exact one, against the two
    thresholds. *)
Lemma slope_below (c s eps : Qc) :
  (c - s ≤ eps → s < Qc_of_Z (-1) - eps → c < Qc_of_Z (-1))%Qc.
Proof.
  intros Hc Hs. apply Qclt_minus_iff.
  assert (Qc_of_Z (-1) + - c = (eps + - (c - s)) + (Qc_of_Z (-1) - eps + - s))%Qc
    as -> by ring.
  apply Qcplus_nonneg_pos; [by apply (proj1 (Qcle_minus_iff _ _))|].
  by apply (proj1 (Qclt_minus_iff _ _)).
Qed.

Lemma slope_above (c s eps : Qc) :
  (- eps ≤ c - s → Qc_of_Z 1 + eps < s → Qc_of_Z 1 < c)%Qc.
Proof.
  intros Hc Hs. apply Qclt_minus_iff.
  assert (c + - Qc_of_Z 1 = (c - s + - - eps) + (s + - (Qc_of_Z 1 + eps)))%Qc
    as -> by ring.
  apply Qcplus_nonneg_pos; [by apply (proj1 (Qcle_minus_iff _ _))|].
  by apply (proj1 (Qclt_minus_iff _ _)).
Qed.

Lemma slope_not_below (c s eps : Qc) :
  (- eps ≤ c - s → Qc_of_Z (-1) + eps ≤ s → ¬ c < Qc_of_Z (-1))%Qc.
Proof.
  intros Hc Hs. apply Qcle_not_lt, Qcle_minus_iff.
  assert (c + - Qc_of_Z (-1) = (c - s + - - eps) + (s + - (Qc_of_Z (-1) + eps)))%Qc
    as -> by ring.
  apply Qcplus_nonneg_nonneg; by apply (proj1 (Qcle_minus_iff _ _)).
Qed.

Lemma slope_not_above (c s eps : Qc) :
  (c - s ≤ eps → s ≤ Qc_of_Z 1 - eps → ¬ Qc_of_Z 1 < c)%Qc.
Proof.
  intros Hc Hs. apply Qcle_not_lt, Qcle_minus_iff.
  assert (Qc_of_Z 1 + - c = (eps + - (c - s)) + (Qc_of_Z 1 - eps + - s))%Qc
    as -> by ring.
  apply Qcplus_nonneg_nonneg; by apply (proj1 (Qcle_minus_iff _ _)).
Qed.

(** C7. The fit of an artist is run on one point per row of the artist, the
    window order (long = 1, medium = 2, short = 3) against the rank position.
    An artist with rows in at least two windows gets a trend whenever the fit
    returns, with the returned float as its slope, and is listed as improving
    exactly when that slope is below -1 and as declining exactly when it is
    above 1. The simple linear-regression slope of the points (the ratio of
    the deviation sums) is the slope of a line of least residual sum of
    squares; when the returned float is within [eps] of it, a regression
    slope below -1 - eps lists the artist as improving and one above 1 + eps
    as declining, and a regression slope from -1 + eps on, or up to 1 - eps,
    keeps the artist out of the respective list. An artist with rows in fewer
    than two windows gets no trend and is in neither list. An artist whose
    rows are rank 40 in the long window and rank 10 in the short one has
    regression slope -15; a returned float within less than 14 of it is
    negative and lists the artist as improving. *)
Theorem trend_slope_classifies
    (fit : LinearRegression) (tbl : list Track) (artist : string) :
  fit_points (artist_data tbl artist) =
    (λ t, (match track_time_range t with
           | long_term => 1 | medium_term => 2 | short_term => 3
           end, rank_position t)) <$> filter (λ t, artist_name t = artist) tbl ∧
  (2 ≤ len (unique (track_time_range <$> artist_data tbl artist)) →
   (fit (fit_points (artist_data tbl artist)) = None →
    artist_trend fit tbl artist = None) ∧
   (∀ c, fit (fit_points (artist_data tbl artist)) = Some c →
      ∃ tr,
        artist_trend fit tbl artist = Some tr ∧
        (artist, tr) ∈ artist_trends fit tbl ∧
        slope tr = c ∧
        ((artist, tr) ∈ improving_artists fit tbl ↔ (c < Qc_of_Z (-1))%Qc) ∧
        ((artist, tr) ∈ declining_artists fit tbl ↔ (Qc_of_Z 1 < c)%Qc) ∧
        (∀ eps,
           (- eps ≤ c - regression_slope (fit_points (artist_data tbl artist)))%Qc →
           (c - regression_slope (fit_points (artist_data tbl artist)) ≤ eps)%Qc →
           ((regression_slope (fit_points (artist_data tbl artist))
               < Qc_of_Z (-1) - eps)%Qc →
            (artist, tr) ∈ improving_artists fit tbl) ∧
           ((Qc_of_Z 1 + eps
               < regression_slope (fit_points (artist_data tbl artist)))%Qc →
            (artist, tr) ∈ declining_artists fit tbl) ∧
           ((Qc_of_Z (-1) + eps
               ≤ regression_slope (fit_points (artist_data tbl artist)))%Qc →
            (artist, tr) ∉ improving_artists fit tbl) ∧
           ((regression_slope (fit_points (artist_data tbl artist))
               ≤ Qc_of_Z 1 - eps)%Qc →
            (artist, tr) ∉ declining_artists fit tbl))) ∧
   (∀ a b,
      (residual_sum_of_squares
         (mean_Z (snd <$> fit_points (artist_data tbl artist))
          - regression_slope (fit_points (artist_data tbl artist))
            * mean_Z (fst <$> fit_points (artist_data tbl artist)))
         (regression_slope (fit_points (artist_data tbl artist)))
         (fit_points (artist_data tbl artist))
       ≤ residual_sum_of_squares a b (fit_points (artist_data tbl artist)))%Qc)) ∧
  (len (unique (track_time_range <$> artist_data tbl artist)) < 2 →
   artist_trend fit tbl artist = None ∧
   ∀ tr, ((artist, tr) ∉ artist_trends fit tbl) ∧
         ((artist, tr) ∉ improving_artists fit tbl) ∧
         ((artist, tr) ∉ declining_artists fit tbl)) ∧
  ((λ t, (track_time_range t, rank_position t)) <$> artist_data tbl artist
     ≡ₚ [(long_term, 40); (short_term, 10)] →
   regression_slope (fit_points (artist_data tbl artist)) = Qc_of_Z (-15) ∧
   ∀ c eps,
     fit (fit_points (artist_data tbl artist)) = Some c →
     (- eps ≤ c - Qc_of_Z (-15))%Qc →
     (c - Qc_of_Z (-15) ≤ eps)%Qc →
     (eps < Qc_of_Z 14)%Qc →
     ∃ tr,
       artist_trend fit tbl artist = Some tr ∧
       slope tr = c ∧
       (c < 0)%Qc ∧
       (artist, tr) ∈ improving_artists fit tbl).
Proof.
  assert (∀ tr, 2 ≤ len (unique (track_time_range <$> artist_data tbl artist)) →
                artist_trend fit tbl artist = Some tr →
                (artist, tr) ∈ artist_trends fit tbl) as Hlisted.
  { intros tr Hw Htr. apply elem_of_artist_trends. split; [|done].
    apply artist_data_elem. intros Hnil. rewrite Hnil in Hw.
    unfold len in Hw. simpl in Hw. lia. }
  split_and!.
  - unfold fit_points, artist_data. apply list_fmap_ext. intros _ t _.
    by destruct (track_time_range t).
  - intros Hw. split_and!.
    + apply artist_trend_raises.
    + intros c Hfit. eexists. split; [by apply artist_trend_Some|].
      pose proof (Hlisted _ Hw (artist_trend_Some fit tbl artist c Hw Hfit)) as Hin.
      split; [done|]. split; [done|]. cbn [slope].
      rewrite elem_of_improving_artists, elem_of_declining_artists. cbn [slope].
      split_and!; [tauto|tauto|].
      intros eps Hlo Hhi. split_and!.
      * intros Hs. apply elem_of_improving_artists. split; [done|].
        by eapply slope_below.
      * intros Hs. apply elem_of_declining_artists. split; [done|].
        by eapply slope_above.
      * intros Hs [_ Hc]%elem_of_improving_artists. by eapply slope_not_below.
      * intros Hs [_ Hc]%elem_of_declining_artists. by eapply slope_not_above.
    + intros a b. destruct (fit_points_two_abscissas _ Hw) as (p & q & Hp & Hq & Hpq).
      pose proof (least_squares_line_minimal _ p q a b Hp Hq Hpq) as Hmin.
      unfold least_squares_intercept in Hmin.
      by rewrite least_squares_slope_regression_slope in Hmin.
  - intros Hw. split; [by apply artist_trend_None|]. intros tr.
    rewrite elem_of_improving_artists, elem_of_declining_artists,
      elem_of_artist_trends, artist_trend_None by done.
    split_and!; by intros [? ?]; try tauto; destruct_and?; congruence.
  - intros Hrows.
    assert (∃ t u, (artist_data tbl artist = [t; u] ∨ artist_data tbl artist = [u; t]) ∧
                   track_time_range t = long_term ∧ rank_position t = 40 ∧
                   track_time_range u = short_term ∧ rank_position u = 10)
      as (t & u & Hcase & Htw & Htr & Huw & Hur).
    { symmetry in Hrows. apply Permutation_length_2_inv in Hrows.
      destruct (artist_data tbl artist) as [|a [|b [|c rows]]];
        destruct Hrows as [Heq|Heq]; try discriminate;
        injection Heq as Ha1 Ha2 Hb1 Hb2.
      - exists a, b. split; [by left|done].
      - exists b, a. split; [by right|done]. }
    assert (2 ≤ len (unique (track_time_range <$> artist_data tbl artist))) as Hw.
    { destruct Hcase as [-> | ->]; cbn; rewrite Htw, Huw; by vm_compute. }
    assert (regression_slope (fit_points (artist_data tbl artist)) = Qc_of_Z (-15))
      as Hslope.
    { rewrite <- least_squares_slope_regression_slope.
      destruct Hcase as [-> | ->]; unfold fit_points; cbn [fmap list_fmap];
        rewrite Htw, Huw, Htr, Hur; apply Qc_is_canon; reflexivity. }
    split; [done|]. intros c eps Hfit Hlo Hhi Heps.
    assert (c < Qc_of_Z (-1))%Qc as Hc.
    { apply (slope_below c (Qc_of_Z (-15)) eps Hhi).
      apply Qclt_minus_iff.
      assert (Qc_of_Z (-1) - eps + - Qc_of_Z (-15) = Qc_of_Z 14 + - eps)%Qc as ->
        by (assert (Qc_of_Z (-1) + - Qc_of_Z (-15) = Qc_of_Z 14)%Qc as <-
              by (apply Qc_is_canon; reflexivity); ring).
      by apply (proj1 (Qclt_minus_iff _ _)). }
    eexists. split; [by apply artist_trend_Some|]. cbn [slope].
    split; [done|]. split.
    + by etrans; [exact Hc|].
    + apply elem_of_improving_artists. split; [|done].
      by apply Hlisted, artist_trend_Some.
Qed.

Lemma trend_slope_classifies_witness :
  ∃ tr,
    artist_trend fit_example rising_artist "X" = Some tr ∧
    slope tr = Q2Qc (-14999999999999995 # 1000000000000000) ∧
    (Q2Qc (-14999999999999995 # 1000000000000000) < 0)%Qc ∧
    ("X", tr) ∈ improving_artists fit_example rising_artist.
Proof.
  destruct (trend_slope_classifies fit_example rising_artist "X")
    as (_ & _ & _ & Hexample).
  destruct Hexample as [_ Hexample]; [vm_compute; apply Permutation_swap|].
  apply (Hexample _ (Q2Qc (1 # 100))); by vm_compute.
Defined.

(** * Further properties *)

(** ** Collector: invariants of a run *)



Lemma foldl_preserves {A B} (f : A → B → A) (P : A → Prop) (l : list B) : ∀ a,
  (∀ a b, P a → P (f a b)) → P a → P (foldl f a l).
Proof. induction l as [|b l IH]; intros a Hf Ha; simpl; [done|]. apply IH; auto. Qed.

(** What every upsert preserves, a run preserves. *)
Lemma fetch_listening_data_preserves (P : list Track → Prop) (Q : list Artist → Prop)
    sp now db :
  (∀ r tbl, P tbl → P (upsertTrack r tbl)) →
  (∀ r tbl, Q tbl → Q (upsertArtist r tbl)) →
  P (tracks db) → Q (live_artists db) →
  P (tracks (run_db (fetch_listening_data sp now db))) ∧
  Q (live_artists (run_db (fetch_listening_data sp now db))).
Proof.
  intros HP HQ.
  assert (∀ w db, P (tracks db) ∧ Q (live_artists db) →
                  P (tracks (fetch_window sp now w db).1.1) ∧
                  Q (live_artists (fetch_window sp now w db).1.1)) as Hstep.
  { intros w db' [Hp Hq]. rewrite fetch_window_db.
    destruct (sp w) as [items|]; [|done]. cbn [tracks live_artists]. split.
    - rewrite track_loop_tracks. apply foldl_preserves; [|done].
      intros a b. apply HP.
    - destruct (track_loop w now 1 items (tracks db') [] 0).2 as [[st n]|]; [|done].
      rewrite artist_loop_foldl. apply foldl_preserves; [|done].
      intros a b. apply HQ. }
  intros Hp Hq. unfold fetch_listening_data, time_periods. cbn [foldl].
  rewrite !run_db_run_window. cbn [run_db].
  apply Hstep, Hstep, Hstep. done.
Qed.

(** X1. The primary keys of the live tables survive a run: when no two
    track rows share (track id, window) and no two artist rows share (artist
    name, window) before a run of the Collector, the same holds after it,
    whatever the responses are. *)
Theorem fetch_keeps_primary_keys (sp : Spotify) (now : string) (db : LiveDB) :
  live_keys_unique db →
  live_keys_unique (run_db (fetch_listening_data sp now db)).
Proof.
  intros [Ht Ha]. unfold live_keys_unique.
  apply (fetch_listening_data_preserves
           (λ tbl, NoDup (track_key <$> tbl)) (λ tbl, NoDup (artist_key <$> tbl)));
    try done.
  - intros r tbl. apply insert_or_replace_NoDup.
  - intros r tbl. apply insert_or_replace_NoDup.
Qed.

Lemma fetch_keeps_primary_keys_witness :
  live_keys_unique (run_db (fetch_listening_data second_fetch "now" after_first_run)).
Proof.
  apply fetch_keeps_primary_keys.
  split; apply (bool_decide_unpack _); by vm_compute.
Defined.

(** X2. The Collector never deletes a key: every (track id, window) with a
    track row before a run has one after it, and every (artist name, window)
    with an artist row before has one after; rows are only added or
    replaced. *)
Theorem fetch_never_deletes (sp : Spotify) (now : string) (db : LiveDB) :
  (∀ k, k ∈ track_key <$> tracks db →
        k ∈ track_key <$> tracks (run_db (fetch_listening_data sp now db))) ∧
  (∀ k, k ∈ artist_key <$> live_artists db →
        k ∈ artist_key <$> live_artists (run_db (fetch_listening_data sp now db))).
Proof.
  apply (fetch_listening_data_preserves
           (λ tbl, ∀ k, k ∈ track_key <$> tracks db → k ∈ track_key <$> tbl)
           (λ tbl, ∀ k, k ∈ artist_key <$> live_artists db → k ∈ artist_key <$> tbl));
    try done.
  - intros r tbl Hin k Hk. by apply insert_or_replace_keeps_keys, Hin.
  - intros r tbl Hin k Hk. by apply insert_or_replace_keeps_keys, Hin.
Qed.

Lemma fetch_never_deletes_witness :
  ("A", short_term) ∈
    track_key <$> tracks (run_db (fetch_listening_data second_fetch "now" after_first_run)).
Proof.
  apply (proj1 (fetch_never_deletes second_fetch "now" after_first_run)).
  vm_compute. left.
Defined.

(** ** Collector: the returned total *)

Lemma fetch_window_counts sp now w db :
  (fetch_window sp now w db).2 = collected (window_message sp w).
Proof.
  rewrite <- (fetch_window_prints sp now w db).
  unfold fetch_window. destruct (sp w) as [items|]; [|done].
  by destruct (track_loop w now 1 items (tracks db) [] 0) as [tbl [[st n]|]].
Qed.

Lemma total_tracks_run_window sp now r w :
  total_tracks (run_window sp now r w) =
  total_tracks r + (fetch_window sp now w (run_db r)).2.
Proof. unfold run_window. by destruct (fetch_window sp now w (run_db r)) as [[? ?] ?]. Qed.

Lemma total_tracks_formula sp now db :
  total_tracks (fetch_listening_data sp now db) =
  sum_Z ((λ w, collected (window_message sp w)) <$> time_periods).
Proof.
  unfold fetch_listening_data, time_periods. cbn [foldl].
  rewrite !total_tracks_run_window, !fetch_window_counts. cbn. lia.
Qed.

Lemma run_messages_formula sp now db :
  run_messages (fetch_listening_data sp now db) = window_message sp <$> time_periods.
Proof.
  unfold fetch_listening_data, time_periods. cbn [foldl].
  by rewrite !run_messages_run_window, !fetch_window_prints.
Qed.

(** X3. The total a run returns is the number of items of the windows whose
    pass did not fail, which is the sum of the counts on the success lines it
    prints; when every fetch raises, the total is 0, only error lines are
    printed and the database is left as it was. *)
Theorem total_tracks_counts_successes (sp : Spotify) (now : string) (db : LiveDB) :
  total_tracks (fetch_listening_data sp now db) =
    sum_Z ((λ w, if decide (window_fails sp w) then 0 else len (default [] (sp w)))
           <$> time_periods) ∧
  total_tracks (fetch_listening_data sp now db) =
    sum_Z (collected <$> run_messages (fetch_listening_data sp now db)) ∧
  ((∀ w, sp w = None) →
   run_db (fetch_listening_data sp now db) = db ∧
   total_tracks (fetch_listening_data sp now db) = 0 ∧
   run_messages (fetch_listening_data sp now db) = ErrorFetching <$> time_periods).
Proof.
  pose proof (total_tracks_formula sp now db) as Htotal.
  pose proof (run_messages_formula sp now db) as Hmsg.
  split_and!.
  - rewrite Htotal. f_equal. apply list_fmap_ext. intros _ w _.
    unfold window_message. by case_decide.
  - by rewrite Htotal, Hmsg, <- list_fmap_compose.
  - intros Hnone. split_and!.
    + unfold fetch_listening_data, time_periods. cbn [foldl].
      rewrite !run_db_run_window. cbn [run_db]. unfold fetch_window.
      by rewrite !Hnone.
    + rewrite Htotal. unfold time_periods, window_message. cbn [fmap list_fmap].
      rewrite !decide_True by (unfold window_fails; by rewrite Hnone). done.
    + rewrite Hmsg. apply list_fmap_ext. intros _ w _. unfold window_message.
      rewrite decide_True; [done|]. unfold window_fails. by rewrite Hnone.
Qed.

Lemma total_tracks_counts_successes_witness :
  run_db (fetch_listening_data (λ _, None) "now" after_first_run) = after_first_run ∧
  total_tracks (fetch_listening_data (λ _, None) "now" after_first_run) = 0 ∧
  run_messages (fetch_listening_data (λ _, None) "now" after_first_run) =
    ErrorFetching <$> time_periods.
Proof.
  apply (total_tracks_counts_successes (λ _, None) "now" after_first_run). done.
Defined.

(** ** Collector: what a window holds after its pass *)

Lemma fetch_window_tracks sp now w db items :
  sp w = Some items →
  NoDup (id <$> items) →
  tracks (fetch_window sp now w db).1.1 =
  filter (λ t, track_key t ∉ track_key <$> rows_of_items w now 1 items) (tracks db)
  ++ rows_of_items w now 1 items.
Proof.
  intros Hsp Hnd. rewrite fetch_window_db, Hsp. cbn [tracks].
  rewrite track_loop_tracks. unfold upsertTrack.
  apply foldl_insert_or_replace. by apply rows_of_items_keys_NoDup.
Qed.

Lemma artist_rows_keys_NoDup w now (st : artist_stats) :
  NoDup st.*1 → NoDup (artist_key <$> (artist_row w now <$> st)).
Proof.
  intros Hnd. rewrite <- list_fmap_compose.
  assert (artist_key ∘ artist_row w now = (λ a : string, (a, w)) ∘ fst) as -> by done.
  rewrite list_fmap_compose. apply NoDup_fmap_2; [|done]. by intros a b [= ->].
Qed.

Lemma fetch_window_twice sp now w db :
  (∀ items, sp w = Some items → NoDup (id <$> items)) →
  (fetch_window sp now w (fetch_window sp now w db).1.1).1.1 =
  (fetch_window sp now w db).1.1.
Proof.
  intros Hids. rewrite !fetch_window_db.
  destruct (sp w) as [items|] eqn:Hsp; [|done]. cbn [tracks live_artists].
  rewrite (track_loop_stats_indep w now items 1 _ (tracks db)).
  rewrite !track_loop_tracks. f_equal.
  - apply foldl_insert_or_replace_twice, rows_of_items_keys_NoDup. by apply Hids.
  - destruct (track_loop w now 1 items (tracks db) [] 0).2 as [[st n]|] eqn:Hloop; [|done].
    rewrite !artist_loop_foldl. apply foldl_insert_or_replace_twice.
    apply artist_rows_keys_NoDup.
    eapply track_loop_keys_NoDup; [|exact Hloop]. apply NoDup_nil_2.
Qed.

(** X4. Running the Collector again on the same responses at the same
    timestamp changes nothing in a window whose response lists no track id
    twice: the track and artist rows of the window after the second run are
    those after the first. *)
Theorem fetch_again_changes_nothing
    (sp : Spotify) (now : string) (db : LiveDB) (w : time_range) :
  (∀ items, sp w = Some items → NoDup (id <$> items)) →
  window_of w (run_db (fetch_listening_data sp now
                         (run_db (fetch_listening_data sp now db)))) =
  window_of w (run_db (fetch_listening_data sp now db)).
Proof.
  intros Hids. rewrite !fetch_listening_data_window.
  rewrite <- (fetch_window_twice sp now w (window_of w db)) at 2 by apply Hids.
  done.
Qed.

Lemma fetch_again_changes_nothing_witness :
  window_of short_term
    (run_db (fetch_listening_data partial_fetch "now"
               (run_db (fetch_listening_data partial_fetch "now" after_first_run)))) =
  window_of short_term (run_db (fetch_listening_data partial_fetch "now" after_first_run)).
Proof.
  apply (fetch_again_changes_nothing partial_fetch "now" after_first_run short_term).
  intros items [= <-]. apply (bool_decide_unpack _). by vm_compute.
Defined.

(** ** Collector: every fetched track is attributed once *)

Lemma dict_update_sums a pop rank (d : artist_stats) :
  NoDup d.*1 →
  sum_Z ((λ kv, count kv.2) <$> dict_update a pop rank d) =
    sum_Z ((λ kv, count kv.2) <$> d) + (if decide (a ∈ d.*1) then 1 else 0) ∧
  sum_Z ((λ kv, total_pop kv.2) <$> dict_update a pop rank d) =
    sum_Z ((λ kv, total_pop kv.2) <$> d) + (if decide (a ∈ d.*1) then pop else 0).
Proof.
  unfold dict_update. induction d as [|[k s] d IH]; intros Hnd.
  { by rewrite decide_False by apply not_elem_of_nil. }
  rewrite !fmap_cons in *. apply NoDup_cons in Hnd as [Hk Hnd].
  destruct (IH Hnd) as [IHc IHp]. cbn [fst snd] in *.
  change (sum_Z (?x :: ?l)) with (x + sum_Z l). rewrite IHc, IHp.
  destruct (decide (k = a)) as [->|Hne]; cbn [fst snd bump count total_pop];
    destruct (decide (a ∈ d.*1)) as [Hin|Hin];
    [done| |destruct (decide (a ∈ k :: d.*1)) as [_|Hn]; [lia|]
           |destruct (decide (a ∈ k :: d.*1)) as [Hy|_]; [|lia]].
  - destruct (decide (a ∈ a :: d.*1)) as [_|Hn]; [lia|]. exfalso. apply Hn. left.
  - exfalso. apply Hn. by right.
  - exfalso. apply elem_of_cons in Hy as [->|Hy]; done.
Qed.

Lemma track_stats_sums a pop rank (d : artist_stats) :
  NoDup d.*1 →
  sum_Z ((λ kv, count kv.2) <$> track_stats a pop rank d) =
    sum_Z ((λ kv, count kv.2) <$> d) + 1 ∧
  sum_Z ((λ kv, total_pop kv.2) <$> track_stats a pop rank d) =
    sum_Z ((λ kv, total_pop kv.2) <$> d) + pop.
Proof.
  intros Hnd. unfold track_stats, dict_setdefault.
  destruct (dict_get a d) as [s|] eqn:Hget.
  - destruct (dict_update_sums a pop rank d Hnd) as [-> ->].
    assert (a ∈ d.*1) as Hin
      by (apply dec_stable; intros Hn%dict_get_None; congruence).
    destruct (decide (a ∈ d.*1)); done.
  - pose proof (proj1 (dict_get_None a d) Hget) as Hnotin.
    assert (NoDup (d ++ [(a, new_stats)]).*1) as Hnd'.
    { rewrite fmap_app. apply NoDup_app. split_and!; [done| |apply NoDup_singleton].
      intros k Hk ->%list_elem_of_singleton. done. }
    destruct (dict_update_sums a pop rank _ Hnd') as [-> ->].
    assert (a ∈ (d ++ [(a, new_stats)]).*1) as Hin
      by (rewrite fmap_app, elem_of_app; right; left).
    destruct (decide (a ∈ (d ++ [(a, new_stats)]).*1)); [|done].
    rewrite !fmap_app, !sum_Z_app. cbn. lia.
Qed.

Lemma track_loop_sums w now items : ∀ rank tbl st n st' n',
  NoDup st.*1 →
  (track_loop w now rank items tbl st n).2 = Some (st', n') →
  sum_Z ((λ kv, count kv.2) <$> st') =
    sum_Z ((λ kv, count kv.2) <$> st) + len items ∧
  sum_Z ((λ kv, total_pop kv.2) <$> st') =
    sum_Z ((λ kv, total_pop kv.2) <$> st) + sum_Z (item_popularity <$> items).
Proof.
  induction items as [|track items IH]; intros rank tbl st n st' n' Hnd; simpl.
  { intros [= <- <-]. unfold len. cbn. lia. }
  destruct (artists track) as [|artist rest]; [done|]. intros Hloop.
  destruct (IH _ _ _ _ _ _ (track_stats_keys_NoDup artist (item_popularity track) rank st Hnd)
              Hloop) as [-> ->].
  destruct (track_stats_sums artist (item_popularity track) rank st Hnd) as [-> ->].
  change (list_fmap TrackItem Z item_popularity items) with (item_popularity <$> items).
  unfold len. rewrite length_cons. lia.
Qed.

(** The rows a window's pass leaves when the window held nothing. *)
Lemma first_fetch_window sp now w db items :
  sp w = Some items →
  NoDup (id <$> items) →
  window_of w db = empty_live →
  ∃ st,
    match (track_loop w now 1 items [] [] 0).2 with
    | Some (st', _) => st = st' ∧ ¬ Exists (λ track, artists track = []) items
    | None => st = [] ∧ Exists (λ track, artists track = []) items
    end ∧
    window_of w (run_db (fetch_listening_data sp now db)) =
    {| tracks := rows_of_items w now 1 items;
       live_artists := artist_row w now <$> st |}.
Proof.
  intros Hsp Hnd Hempty.
  rewrite fetch_listening_data_window, Hempty, fetch_window_db, Hsp.
  cbn [tracks live_artists empty_live].
  pose proof (track_loop_result w now items 1 [] [] 0) as Hres.
  rewrite track_loop_tracks. unfold upsertTrack.
  rewrite foldl_insert_or_replace, filter_nil, app_nil_l
    by (by apply rows_of_items_keys_NoDup).
  destruct (track_loop w now 1 items [] [] 0).2 as [[st n]|] eqn:Hloop.
  - exists st. split; [by destruct Hres|]. f_equal.
    rewrite artist_loop_foldl. unfold upsertArtist.
    rewrite foldl_insert_or_replace, filter_nil, app_nil_l; [done|].
    apply artist_rows_keys_NoDup.
    eapply track_loop_keys_NoDup; [|exact Hloop]. apply NoDup_nil_2.
  - by exists [].
Qed.

Lemma first_fetch_window_sums sp now db w items :
  sp w = Some items →
  NoDup (id <$> items) →
  ¬ Exists (λ track, artists track = []) items →
  window_of w db = empty_live →
  len (tracks_of w (tracks (run_db (fetch_listening_data sp now db)))) = len items ∧
  sum_Z (track_count <$>
         artists_of w (live_artists (run_db (fetch_listening_data sp now db)))) =
    len items ∧
  sum_Z (total_popularity <$>
         artists_of w (live_artists (run_db (fetch_listening_data sp now db)))) =
    sum_Z (item_popularity <$> items).
Proof.
  intros Hsp Hnd Hok Hempty.
  destruct (first_fetch_window sp now w db items Hsp Hnd Hempty) as (st & Hst & Hwin).
  change (tracks_of w (tracks ?d)) with (tracks (window_of w d)).
  change (artists_of w (live_artists ?d)) with (live_artists (window_of w d)).
  rewrite Hwin. cbn [tracks live_artists].
  destruct (track_loop w now 1 items [] [] 0).2 as [[st' n]|] eqn:Hloop;
    destruct Hst as [-> Hex]; [|done].
  destruct (rows_of_items_complete w now items 1 Hok) as (_ & Hlen & _).
  destruct (track_loop_sums w now items 1 [] [] 0 st' n (NoDup_nil_2) Hloop) as [Hc Hp].
  rewrite <- !list_fmap_compose. split_and!.
  - unfold len. by rewrite Hlen.
  - etrans; [|etrans; [exact Hc|]]; [done|]. cbn. lia.
  - etrans; [|etrans; [exact Hp|]]; [done|]. cbn. lia.
Qed.

(** X5. After the first fetch of a window (the window held no rows, the
    response lists pairwise distinct track ids, each item with an artist), the
    window has one track row per item, the track counts of its artist rows
    add up to the number of items, and their summed popularities add up to
    the popularity of all items: each fetched track is attributed to exactly
    one artist. *)
Theorem first_fetch_totals
    (sp : Spotify) (now : string) (db : LiveDB) (w : time_range) (items : list TrackItem) :
  sp w = Some items →
  NoDup (id <$> items) →
  ¬ window_fails sp w →
  window_of w db = empty_live →
  len (tracks_of w (tracks (run_db (fetch_listening_data sp now db)))) = len items ∧
  sum_Z (track_count <$>
         artists_of w (live_artists (run_db (fetch_listening_data sp now db)))) =
    len items ∧
  sum_Z (total_popularity <$>
         artists_of w (live_artists (run_db (fetch_listening_data sp now db)))) =
    sum_Z (item_popularity <$> items).
Proof.
  intros Hsp Hnd Hok Hempty. unfold window_fails in Hok. rewrite Hsp in Hok.
  by apply first_fetch_window_sums.
Qed.

Lemma first_fetch_totals_witness :
  len (tracks_of short_term
         (tracks (run_db (fetch_listening_data partial_fetch "now" empty_live)))) =
    len [item "A" "Song A" ["X"; "Guest"] 10; item "B" "Song B" ["X"] 20] ∧
  sum_Z (track_count <$>
         artists_of short_term
           (live_artists (run_db (fetch_listening_data partial_fetch "now" empty_live)))) =
    len [item "A" "Song A" ["X"; "Guest"] 10; item "B" "Song B" ["X"] 20] ∧
  sum_Z (total_popularity <$>
         artists_of short_term
           (live_artists (run_db (fetch_listening_data partial_fetch "now" empty_live)))) =
    sum_Z (item_popularity <$>
           [item "A" "Song A" ["X"; "Guest"] 10; item "B" "Song B" ["X"] 20]).
Proof.
  apply (first_fetch_totals partial_fetch "now" empty_live short_term).
  - reflexivity.
  - apply (bool_decide_unpack _). by vm_compute.
  - apply (bool_decide_unpack _). by vm_compute.
  - reflexivity.
Defined.

(** ** Collector and summary: the tables after a first run *)

Lemma len_by_window (tbl : list Track) :
  len tbl = sum_Z ((λ w, len (tracks_of w tbl)) <$> time_periods).
Proof.
  unfold time_periods, tracks_of, len. cbn [fmap list_fmap sum_Z foldr].
  induction tbl as [|t tbl IH]; [done|].
  rewrite !filter_cons. destruct (track_time_range t);
    repeat (case_decide; try done); simpl length; lia.
Qed.

Lemma sum_by_window (f : Artist → Z) (tbl : list Artist) :
  sum_Z (f <$> tbl) = sum_Z ((λ w, sum_Z (f <$> artists_of w tbl)) <$> time_periods).
Proof.
  unfold time_periods, artists_of. cbn [fmap list_fmap].
  change (sum_Z [?a; ?b; ?c]) with (a + (b + (c + 0))).
  induction tbl as [|r tbl IH]; [done|].
  rewrite !filter_cons, fmap_cons.
  change (sum_Z (?x :: ?l)) with (x + sum_Z l). rewrite IH.
  destruct (a_time_range r); repeat (case_decide; try done);
    rewrite ?fmap_cons; change (sum_Z (?x :: ?l)) with (x + sum_Z l); lia.
Qed.

(** The two tables after a run on empty live tables. *)
Lemma first_run_lengths (sp : Spotify) (now : string) :
  (∀ w items, sp w = Some items →
     NoDup (id <$> items) ∧ ¬ Exists (λ track, artists track = []) items) →
  len (tracks (run_db (fetch_listening_data sp now empty_live))) =
    total_tracks (fetch_listening_data sp now empty_live) ∧
  sum_Z (track_count <$> live_artists (run_db (fetch_listening_data sp now empty_live))) =
    total_tracks (fetch_listening_data sp now empty_live).
Proof.
  intros Hresp.
  assert (∀ w,
    len (tracks_of w (tracks (run_db (fetch_listening_data sp now empty_live)))) =
      collected (window_message sp w) ∧
    sum_Z (track_count <$>
           artists_of w (live_artists (run_db (fetch_listening_data sp now empty_live)))) =
      collected (window_message sp w)) as Hw.
  { intros w. destruct (sp w) as [items|] eqn:Hsp.
    - destruct (Hresp w items Hsp) as [Hnd Hok].
      destruct (first_fetch_window_sums sp now empty_live w items Hsp Hnd Hok eq_refl)
        as (Ht & Ha & _).
      rewrite Ht, Ha. unfold window_message.
      case_decide as Hf; unfold window_fails in Hf; rewrite Hsp in Hf; [done|].
      by rewrite Hsp.
    - change (tracks_of w (tracks ?d)) with (tracks (window_of w d)).
      change (artists_of w (live_artists ?d)) with (live_artists (window_of w d)).
      rewrite fetch_listening_data_window. unfold fetch_window. rewrite Hsp.
      unfold window_message.
      case_decide as Hf; unfold window_fails in Hf; rewrite Hsp in Hf; done. }
  rewrite total_tracks_formula.
  rewrite len_by_window, (sum_by_window track_count).
  split; f_equal; apply list_fmap_ext; intros _ w _; apply Hw.
Qed.

(** X6. After a run on empty live tables in which every response lists
    pairwise distinct track ids and every item has an artist, the track table
    has as many rows as the total the run returns (the figure the summary
    prints as the number of track entries), and the track counts of all
    artist rows add up to the same number. *)
Theorem first_run_totals_agree (sp : Spotify) (now : string) :
  (∀ w items, sp w = Some items →
     NoDup (id <$> items) ∧ ¬ Exists (λ track, artists track = []) items) →
  ov_total_tracks (overview (run_db (fetch_listening_data sp now empty_live))) =
    total_tracks (fetch_listening_data sp now empty_live) ∧
  sum_Z (track_count <$> live_artists (run_db (fetch_listening_data sp now empty_live))) =
    total_tracks (fetch_listening_data sp now empty_live).
Proof.
  intros Hresp. cbn [overview ov_total_tracks]. by apply first_run_lengths.
Qed.

Lemma first_run_totals_agree_witness :
  ov_total_tracks (overview (run_db (fetch_listening_data partial_fetch "now" empty_live))) =
    total_tracks (fetch_listening_data partial_fetch "now" empty_live) ∧
  sum_Z (track_count <$>
         live_artists (run_db (fetch_listening_data partial_fetch "now" empty_live))) =
    total_tracks (fetch_listening_data partial_fetch "now" empty_live).
Proof.
  apply (first_run_totals_agree partial_fetch "now").
  intros [] items [= <-]; split; apply (bool_decide_unpack _); by vm_compute.
Defined.

(** ** Summary: the top lists *)

Lemma take_merge_sort_top {A} (R : relation A) `{!RelDecision R}
    `{!Total R} `{!Transitive R} (k : nat) (l : list A) x y :
  x ∈ take k (merge_sort R l) → y ∈ l → y ∉ take k (merge_sort R l) → R x y.
Proof.
  intros Hx Hy Hny.
  pose proof (StronglySorted_merge_sort R l) as Hs.
  rewrite <- (take_drop k (merge_sort R l)) in Hs.
  apply (StronglySorted_app_1_elem_of _ _ _ _ _ Hs Hx).
  rewrite <- (merge_sort_Permutation R l), <- (take_drop k (merge_sort R l)) in Hy.
  apply elem_of_app in Hy as [Hy|Hy]; done.
Qed.

Lemma elem_of_take_merge_sort {A} (R : relation A) `{!RelDecision R} (k : nat) (l : list A) x :
  x ∈ take k (merge_sort R l) → x ∈ l.
Proof.
  intros Hx. rewrite <- (merge_sort_Permutation R l).
  eapply elem_of_sublist; [exact Hx|]. apply sublist_take.
Qed.

(** A list of distinct windows has at most three elements, and exactly three
    when it holds every window. *)
Lemma windows_len (ws : list time_range) :
  NoDup ws → len ws ≤ 3 ∧ (len ws = 3 ↔ ∀ w, w ∈ ws).
Proof.
  intros Hnd.
  assert (ws ⊆+ time_periods) as Hsub.
  { apply NoDup_submseteq; [done|]. intros w _. unfold time_periods.
    destruct w; [left|right; left|right; right; left]. }
  pose proof (submseteq_length _ _ Hsub) as Hlen. unfold len.
  change (length time_periods) with 3%nat in Hlen. split; [lia|]. split.
  - intros H3 w. rewrite (submseteq_length_Permutation _ _ Hsub).
    + unfold time_periods. destruct w; [left|right; left|right; right; left].
    + change (length time_periods) with 3%nat. lia.
  - intros Hall.
    assert (time_periods ⊆+ ws) as Hsup.
    { apply NoDup_submseteq; [|by intros w _].
      apply (bool_decide_unpack _). by vm_compute. }
    apply submseteq_length in Hsup. change (length time_periods) with 3%nat in Hsup. lia.
Qed.

(** X7. The list of top artists overall has at most ten rows; each is the
    aggregate of an artist of the table, present in at least one and at most
    three periods; it carries the fire emoji exactly when the artist has a
    row in every window; and no artist left out has a larger track total than
    a listed one. *)
Theorem top_artists_overall_sound (tbl : list Artist) (x : ArtistOverall) :
  x ∈ top_artists_overall tbl →
  len (top_artists_overall tbl) ≤ 10 ∧
  ao_artist_name x ∈ a_artist_name <$> tbl ∧
  x = artist_overall tbl (ao_artist_name x) ∧
  1 ≤ ao_periods x ≤ 3 ∧
  (consistency_emoji (ao_periods x) = Fire ↔
   ∀ w, ∃ r, r ∈ tbl ∧ a_artist_name r = ao_artist_name x ∧ a_time_range r = w) ∧
  (∀ b, b ∈ a_artist_name <$> tbl →
        artist_overall tbl b ∉ top_artists_overall tbl →
        ao_total_tracks (artist_overall tbl b) ≤ ao_total_tracks x).
Proof.
  intros Hx. unfold top_artists_overall in *.
  pose proof (elem_of_take_merge_sort _ _ _ _ Hx) as Hin.
  apply list_elem_of_fmap in Hin as (a & -> & Ha).
  apply (proj1 (elem_of_unique _ _)) in Ha. cbn [artist_overall ao_artist_name ao_periods].
  set (g := filter (λ r, a_artist_name r = a) tbl).
  destruct (windows_len (unique (a_time_range <$> g)) (NoDup_unique _)) as [Hle Hall].
  split_and!; try done.
  - unfold len. rewrite length_take. lia.
  - assert (g ≠ []) as Hg.
    { apply list_elem_of_fmap in Ha as (r & -> & Hr). intros Hnil.
      assert (r ∈ g) as Hrg by (by apply list_elem_of_filter).
      rewrite Hnil in Hrg. by apply elem_of_nil in Hrg. }
    destruct g as [|r g']; [done|]. unfold len. simpl. lia.
  - unfold consistency_emoji. case_decide as H3.
    + split; [intros _|done]. intros w.
      pose proof (proj1 Hall H3 w) as H3w. clear H3. rename H3w into H3.
      apply (proj1 (elem_of_unique _ _)) in H3.
      apply list_elem_of_fmap in H3 as (r & -> & [Hr Hrt]%list_elem_of_filter).
      by exists r.
    + split; [by case_decide|]. intros Hw. exfalso. apply H3, (proj2 Hall). intros w.
      destruct (Hw w) as (r & Hr & Hn & Hrw). apply (proj2 (elem_of_unique _ _)).
      apply list_elem_of_fmap. exists r. split; [done|]. by apply list_elem_of_filter.
  - intros b Hb Hnot.
    apply (take_merge_sort_top total_tracks_desc _ _ _ _ Hx); [|done].
    apply list_elem_of_fmap. exists b. split; [done|].
    by apply (proj2 (elem_of_unique _ _)).
Qed.

Lemma top_artists_overall_sound_witness :
  len (top_artists_overall (live_artists after_second_run)) ≤ 10 ∧
  "X" ∈ a_artist_name <$> live_artists after_second_run ∧
  artist_overall (live_artists after_second_run) "X" =
    artist_overall (live_artists after_second_run) "X" ∧
  1 ≤ ao_periods (artist_overall (live_artists after_second_run) "X") ≤ 3 ∧
  (consistency_emoji (ao_periods (artist_overall (live_artists after_second_run) "X")) = Fire ↔
   ∀ w, ∃ r, r ∈ live_artists after_second_run ∧ a_artist_name r = "X" ∧ a_time_range r = w) ∧
  (∀ b, b ∈ a_artist_name <$> live_artists after_second_run →
        artist_overall (live_artists after_second_run) b ∉
          top_artists_overall (live_artists after_second_run) →
        ao_total_tracks (artist_overall (live_artists after_second_run) b) ≤
        ao_total_tracks (artist_overall (live_artists after_second_run) "X")).
Proof.
  apply (top_artists_overall_sound (live_artists after_second_run)
           (artist_overall (live_artists after_second_run) "X")).
  vm_compute. left.
Defined.

(** X8. The list printed for a period has at most five rows, all of them
    artist rows of that period, and no artist row of the period left out has
    a larger track count than a listed one. *)
Theorem top_artists_of_period_sound (tbl : list Artist) (w : time_range) (x : Artist) :
  x ∈ top_artists_of_period tbl w →
  len (top_artists_of_period tbl w) ≤ 5 ∧
  x ∈ tbl ∧ a_time_range x = w ∧
  (∀ y, y ∈ tbl → a_time_range y = w → y ∉ top_artists_of_period tbl w →
        track_count y ≤ track_count x).
Proof.
  intros Hx. unfold top_artists_of_period in *.
  pose proof (elem_of_take_merge_sort _ _ _ _ Hx) as Hin.
  apply list_elem_of_filter in Hin as [Hw Hin].
  split_and!; try done.
  - unfold len. rewrite length_take. lia.
  - intros y Hy Hyw Hnot.
    apply (take_merge_sort_top track_count_desc _ _ _ _ Hx); [|done].
    by apply list_elem_of_filter.
Qed.

Lemma top_artists_of_period_sound_witness :
  len (top_artists_of_period (live_artists after_second_run) short_term) ≤ 5 ∧
  artist_row short_term "2024-06-01 10:00:00"
    ("X", {| count := 1; total_pop := 20; ranks := [1] |}) ∈ live_artists after_second_run ∧
  a_time_range (artist_row short_term "2024-06-01 10:00:00"
    ("X", {| count := 1; total_pop := 20; ranks := [1] |})) = short_term ∧
  (∀ y, y ∈ live_artists after_second_run → a_time_range y = short_term →
        y ∉ top_artists_of_period (live_artists after_second_run) short_term →
        track_count y ≤ track_count (artist_row short_term "2024-06-01 10:00:00"
          ("X", {| count := 1; total_pop := 20; ranks := [1] |}))).
Proof.
  apply (top_artists_of_period_sound (live_artists after_second_run) short_term).
  vm_compute. left.
Defined.

(** ** Advanced analysis: persistence rate and trends *)

Lemma ratio_bounds (a b : Z) :
  0 ≤ a ≤ b → 0 < b → (0 ≤ Qc_of_Z a / Qc_of_Z b ∧ Qc_of_Z a / Qc_of_Z b ≤ 1)%Qc.
Proof.
  intros [Ha Hab] Hb.
  assert (0 ≤ Qc_of_Z a)%Qc as Ha' by (rewrite <- Z2Qc_inj_0; by apply (proj1 (Z2Qc_inj_le _ _))).
  assert (0 < Qc_of_Z b)%Qc as Hb' by (rewrite <- Z2Qc_inj_0; by apply (proj1 (Z2Qc_inj_lt _ _))).
  assert (0 ≤ / Qc_of_Z b)%Qc as Hinv by (by apply Qclt_le_weak, Qcinv_pos).
  unfold Qcdiv. split.
  - by apply Qcmult_nonneg_nonneg.
  - rewrite <- (Qcmult_inv_r (Qc_of_Z b)) by (by apply not_symmetry, Qclt_not_eq).
    apply Qcmult_le_mono_nonneg_r; [done|]. by apply (proj1 (Z2Qc_inj_le _ _)).
Qed.

Lemma percentage_bounds (a b : Z) :
  0 ≤ a ≤ b → 0 < b →
  (0 ≤ Qc_of_Z a / Qc_of_Z b * hundred ∧ Qc_of_Z a / Qc_of_Z b * hundred ≤ hundred)%Qc.
Proof.
  intros Hab Hb. destruct (ratio_bounds a b Hab Hb) as [H0 H1].
  assert (0 ≤ hundred)%Qc as Hh by done. split.
  - by apply Qcmult_nonneg_nonneg.
  - rewrite <- (Qcmult_1_l hundred) at 2. by apply Qcmult_le_mono_nonneg_r.
Qed.

Lemma len_filter_le {A} (P : A → Prop) `{!∀ x, Decision (P x)} (l : list A) :
  0 ≤ len (filter P l) ≤ len l.
Proof. unfold len. pose proof (length_filter P l). lia. Qed.

Lemma len_pos {A} (l : list A) : l ≠ [] → 0 < len l.
Proof. unfold len. destruct l; [done|simpl; lia]. Qed.

Lemma song_groups_nonempty tbl : tbl ≠ [] → song_groups tbl ≠ [].
Proof. intros Hne H%unique_nil_inv. by destruct tbl. Qed.

Lemma windows_of_song_len tbl k :
  len (windows_of_song tbl k) = len (pair_windows tbl k).
Proof.
  unfold len. f_equal. apply Permutation_length, NoDup_Permutation.
  - apply NoDup_unique.
  - apply NoDup_filter. apply (bool_decide_unpack _). by vm_compute.
  - intros w. unfold windows_of_song. by rewrite elem_of_unique, elem_of_pair_windows.
Qed.

(** X9. The persistence rate of the advanced analysis is, on every track
    table, the number of (track name, artist name) pairs that appear in at
    least two windows over the number of pairs, times 100. It is undefined
    (a division by zero) exactly on the empty table, which the function's
    first guard turns away, and otherwise lies between 0 and 100. *)
Theorem persistence_rate_sound (tbl : list Track) :
  persistence_rate tbl = spec_persistence_score tbl ∧
  (persistence_rate tbl = None ↔ tbl = []) ∧
  (∀ r, persistence_rate tbl = Some r → (0 ≤ r ∧ r ≤ hundred)%Qc).
Proof.
  assert (filter (λ k, 1 < len (windows_of_song tbl k)) (song_groups tbl) =
          filter (λ k, 2 ≤ len (pair_windows tbl k)) (song_groups tbl)) as Hfilter.
  { apply list_filter_iff. intros k. rewrite windows_of_song_len. lia. }
  unfold persistence_rate, spec_persistence_score. rewrite Hfilter.
  split; [done|].
  destruct (decide (tbl = [])) as [->|Hne].
  { split; [done|]. intros r. by vm_compute. }
  pose proof (len_pos _ (song_groups_nonempty tbl Hne)) as Hpos.
  rewrite true_div_Some by lia. cbn [mbind option_bind]. split.
  - split; [done|]. by intros ->.
  - intros r [= <-]. apply percentage_bounds; [apply len_filter_le|done].
Qed.

(** X10. Every entry of [artist_trends] is the trend of an artist of the
    table with rows in two or three windows and at least as many rows as
    windows; an artist has at most one entry; and no artist is listed both as
    improving and as declining. *)
Theorem artist_trends_sound
    (fit : LinearRegression) (tbl : list Track) (artist : string) (tr : Trend) :
  (artist, tr) ∈ artist_trends fit tbl →
  artist ∈ artist_name <$> tbl ∧
  2 ≤ periods tr ≤ 3 ∧
  periods tr ≤ trend_track_count tr ∧
  trend_track_count tr = len (artist_data tbl artist) ∧
  (∀ tr', (artist, tr') ∈ artist_trends fit tbl → tr' = tr) ∧
  ¬ (∃ tr1 tr2, (artist, tr1) ∈ improving_artists fit tbl ∧
                (artist, tr2) ∈ declining_artists fit tbl).
Proof.
  intros [Hin Htr]%elem_of_artist_trends.
  assert (∀ tr', (artist, tr') ∈ artist_trends fit tbl → tr' = tr) as Huniq.
  { intros tr' [_ Htr']%elem_of_artist_trends. congruence. }
  unfold artist_trend in Htr. repeat case_decide; try done.
  destruct (fit (fit_points (artist_data tbl artist))) as [c|]; [|done].
  injection Htr as <-. cbn [periods trend_track_count].
  destruct (windows_len (unique (track_time_range <$> artist_data tbl artist))
              (NoDup_unique _)) as [Hle _].
  pose proof (len_unique_le (track_time_range <$> artist_data tbl artist)) as Hlen.
  assert (len (track_time_range <$> artist_data tbl artist) = len (artist_data tbl artist))
    as Hfmap by (unfold len; by rewrite length_fmap).
  split_and!; try done; try lia.
  intros (tr1 & tr2 & [H1 Hlt]%elem_of_improving_artists
                    & [H2 Hgt]%elem_of_declining_artists).
  apply Huniq in H1, H2. subst.
  assert (Qc_of_Z (-1) < Qc_of_Z 1)%Qc as Hone by done.
  apply (Qclt_not_le _ _ Hgt), Qclt_le_weak.
  by etrans; [exact Hlt|].
Qed.

Lemma artist_trends_sound_witness :
  ∃ tr, ("X", tr) ∈ artist_trends fit_example rising_artist ∧
    2 ≤ periods tr ≤ 3 ∧
    periods tr ≤ trend_track_count tr ∧
    trend_track_count tr = len (artist_data rising_artist "X").
Proof.
  destruct (artist_trend fit_example rising_artist "X") as [tr|] eqn:Htr;
    [|by vm_compute in Htr].
  assert (("X", tr) ∈ artist_trends fit_example rising_artist) as Hin.
  { apply elem_of_artist_trends. split; [vm_compute; left|done]. }
  exists tr. split; [done|].
  destruct (artist_trends_sound fit_example rising_artist "X" tr Hin)
    as (_ & H1 & H2 & H3 & _).
  done.
Defined.

(** ** Archiver runs *)

Lemma to_sql_append_NoDup {Row Key : Type} `{EqDecision Key} (key : Row → Key)
    rows : ∀ tbl tbl',
  NoDup (key <$> tbl) →
  to_sql_append key rows tbl = Some tbl' →
  NoDup (key <$> tbl').
Proof.
  induction rows as [|r rows IH]; intros tbl tbl' Hnd; simpl.
  { by intros [= <-]. }
  case_decide as Hin; [done|]. apply IH.
  rewrite fmap_app. apply NoDup_app. split_and!; [done| |apply NoDup_singleton].
  intros k Hk ->%list_elem_of_singleton. done.
Qed.

Lemma hist_keys_unique_delete_date d db :
  hist_keys_unique db → hist_keys_unique (delete_date d db).
Proof.
  intros (Ht & Ha & Hl). unfold hist_keys_unique, delete_date. cbn.
  split_and!.
  - apply (sublist_NoDup _ _ Ht), fmap_sublist, sublist_filter.
  - apply (sublist_NoDup _ _ Ha), fmap_sublist, sublist_filter.
  - apply (sublist_NoDup _ _ Hl), fmap_sublist, sublist_filter.
Qed.

Lemma append_snapshot_keys today ts tdf adf db b db' :
  hist_keys_unique db →
  append_snapshot today ts tdf adf db = Returned b db' →
  hist_keys_unique db'.
Proof.
  intros (Ht & Ha & Hl). unfold append_snapshot.
  destruct (to_sql_append historical_track_key _ _) as [ht|] eqn:Hht; [|done].
  destruct (to_sql_append historical_artist_key _ _) as [ha|] eqn:Hha; [|done].
  destruct (to_sql_append log_key _ _) as [lg|] eqn:Hlg; [|done].
  intros [= <- <-]. unfold hist_keys_unique. cbn. split_and!.
  - by eapply to_sql_append_NoDup.
  - by eapply to_sql_append_NoDup.
  - by eapply to_sql_append_NoDup.
Qed.

(** The log entry of the day after the appends went through. *)
Lemma append_snapshot_log today ts tdf adf db b db' :
  append_snapshot today ts tdf adf db = Returned b db' →
  (today ∉ collection_date <$> collection_log db) ∧
  rows_at log_key today (collection_log db') =
    [log_data today ts (len tdf) (len adf)].
Proof.
  unfold append_snapshot.
  destruct (to_sql_append historical_track_key _ _) as [ht|] eqn:Hht; [|done].
  destruct (to_sql_append historical_artist_key _ _) as [ha|] eqn:Hha; [|done].
  destruct (to_sql_append log_key _ _) as [lg|] eqn:Hlg; [|done].
  intros [= <- <-]. cbn [collection_log].
  simpl in Hlg. case_decide as Hin; [done|]. injection Hlg as <-.
  split; [done|].
  unfold rows_at. rewrite filter_app, filter_cons_True, filter_nil by done.
  rewrite filter_none.
  - unfold len. by rewrite !length_fmap.
  - intros e He Heq. apply Hin. rewrite <- Heq. by apply list_elem_of_fmap_2.
Qed.

Lemma store_historical_data_cases today ts response tdf adf db b db' :
  store_historical_data today ts response tdf adf db = Returned b db' →
  (b = false ∧ db' = db ∧ 0 < existing today db ∧ lower response ≠ "y") ∨
  (b = true ∧ ∃ base,
     (base = db ∧ existing today db = 0 ∨
      base = delete_date today db ∧ 0 < existing today db ∧ lower response = "y") ∧
     append_snapshot today ts tdf adf base = Returned true db' ∧
     db' = hist_app base (snapshot today ts tdf adf)).
Proof.
  unfold store_historical_data, existing. repeat case_decide.
  - intros [= <- <-]. by left.
  - intros Happ. destruct (append_snapshot_Returned _ _ _ _ _ _ _ Happ) as [-> ->].
    right. split; [done|]. exists (delete_date today db).
    split_and!; [right; split_and!; [done..|]|done..].
    by destruct (decide (lower response = "y")).
  - intros Happ. destruct (append_snapshot_Returned _ _ _ _ _ _ _ Happ) as [-> ->].
    right. split; [done|]. exists db. split_and!; [left; split; [done|lia]|done..].
Qed.

Lemma archiver_main_cases today ts response live db r db' :
  archiver_main today ts response live db = Finished r db' →
  (r = CannotCollect ∧ db' = db ∧ tracks live = []) ∨
  (∃ tdf adf b,
     collect_current_data live = Some (tdf, adf) ∧
     tdf ≡ₚ tracks live ∧ adf ≡ₚ live_artists live ∧
     store_historical_data today ts response tdf adf db = Returned b db' ∧
     r = if b then SuccessfullyStored else FailedToStore).
Proof.
  unfold archiver_main.
  destruct (decide (tracks live = [])) as [Hnil|Hne].
  { rewrite collect_current_data_None by done. intros [= <- <-]. by left. }
  destruct (collect_current_data_Some live Hne) as (tdf & adf & Hc & Ht & Ha).
  rewrite Hc.
  destruct (store_historical_data _ _ _ _ _ _) as [[] db2|] eqn:Hs; [| |done].
  - intros [= <- <-]. right. by exists tdf, adf, true.
  - intros [= <- <-]. right. by exists tdf, adf, false.
Qed.

Lemma len_filter_split {A} (P : A → Prop) `{!∀ x, Decision (P x)} (l : list A) :
  len l = len (filter P l) + len (filter (λ x, ¬ P x) l).
Proof.
  unfold len. induction l as [|x l IH]; [done|].
  rewrite !filter_cons. destruct (decide (P x)), (decide (¬ P x)); simpl in *; try done; lia.
Qed.

(** X11. Whatever the two stores hold and whatever is answered, an Archiver
    run that ends normally leaves every other day of the historical store as
    it was, keeps the three primary keys of the historical tables, and keeps
    every row paired with a log entry of its day; when it reports success the
    store then has exactly one log entry for the day, whose counts are the
    numbers of live track and artist rows, and the number of log entries is
    the former number, less the entries the day had, plus one; otherwise the
    store is unchanged. *)
Theorem archiver_run_keeps_history
    (today : date) (timestamp response : string) (live : LiveDB) (db : HistDB)
    (r : report) (db' : HistDB) :
  archiver_main today timestamp response live db = Finished r db' →
  (∀ d, d ≠ today → on_date d db' = on_date d db) ∧
  (hist_keys_unique db → hist_keys_unique db') ∧
  (logged db → logged db') ∧
  (r ≠ SuccessfullyStored → db' = db) ∧
  (r = SuccessfullyStored →
   rows_at log_key today (collection_log db') =
     [log_data today timestamp (len (tracks live)) (len (live_artists live))] ∧
   len (collection_log db') = len (collection_log db) - existing today db + 1).
Proof.
  intros [(-> & -> & _)|(tdf & adf & b & Hc & Ht & Ha & Hs & ->)]%archiver_main_cases.
  { split_and!; done. }
  pose proof (λ H, store_historical_data_logged _ _ _ _ _ _ _ _ H Hs) as Hlogged.
  apply store_historical_data_cases in Hs
    as [(-> & -> & _)|(-> & base & Hbase & Happ & Hdb')]; [by split_and!|].
  assert (∀ d, d ≠ today → on_date d base = on_date d db) as Hother.
  { intros d Hd. destruct Hbase as [[-> _]|[-> _]]; [done|by apply on_date_delete_date_ne]. }
  destruct (append_snapshot_log _ _ _ _ _ _ _ Happ) as [Hfree Hrow].
  split_and!.
  - intros d Hd. rewrite Hdb', on_date_hist_app, on_date_snapshot_ne by done.
    rewrite hist_app_empty_r. by apply Hother.
  - intros Hk. eapply append_snapshot_keys; [|exact Happ].
    destruct Hbase as [[-> _]|[-> _]]; [done|by apply hist_keys_unique_delete_date].
  - done.
  - done.
  - intros _. split.
    + rewrite Hrow.
      by rewrite (Permutation_len _ _ Ht), (Permutation_len _ _ Ha).
    + rewrite Hdb'. unfold hist_app, snapshot. cbn [collection_log].
      rewrite len_app. change (len [_]) with 1.
      destruct Hbase as [[-> Hz]|[-> _]]; [lia|].
      unfold delete_date, existing, rows_at, log_key. cbn [collection_log].
      pose proof (len_filter_split (λ e, collection_date e = today) (collection_log db)) as Hsplit.
      unfold len in *. lia.
Qed.

Lemma archiver_run_keeps_history_witness :
  ∃ db',
    archiver_main may_first "2024-05-01 18:00:00" "y" after_second_run archived_in_may =
      Finished SuccessfullyStored db' ∧
    (∀ d, d ≠ may_first → on_date d db' = on_date d archived_in_may) ∧
    len (collection_log db') = 1.
Proof.
  eexists. split; [vm_compute; reflexivity|].
  destruct (archiver_run_keeps_history may_first "2024-05-01 18:00:00" "y"
              after_second_run archived_in_may SuccessfullyStored _
              ltac:(vm_compute; reflexivity)) as (Hother & _ & _ & _ & Hlog).
  split; [exact Hother|]. destruct (Hlog eq_refl) as [_ ->]. by vm_compute.
Defined.

(** An append that meets a taken key, at whatever position, raises. *)
Lemma to_sql_append_conflict {Row Key : Type} `{EqDecision Key} (key : Row → Key)
    rows : ∀ tbl r,
  r ∈ rows → key r ∈ key <$> tbl → to_sql_append key rows tbl = None.
Proof.
  induction rows as [|r' rows IH]; intros tbl r Hin Hkey; [by apply elem_of_nil in Hin|].
  simpl. case_decide as Htaken; [done|].
  apply elem_of_cons in Hin as [->|Hin]; [done|].
  apply (IH _ r); [done|]. rewrite fmap_app, elem_of_app. by left.
Qed.

Lemma append_snapshot_succeeds today ts tdf adf db :
  NoDup (track_key <$> tdf) →
  NoDup (artist_key <$> adf) →
  (∀ t, t ∈ tdf →
     historical_track_key (stamp_track today t) ∉
       historical_track_key <$> historical_tracks db) →
  (∀ a, a ∈ adf →
     historical_artist_key (stamp_artist today a) ∉
       historical_artist_key <$> historical_artists db) →
  existing today db = 0 →
  append_snapshot today ts tdf adf db =
  Returned true (hist_app db (snapshot today ts tdf adf)).
Proof.
  intros Ht Ha Hft Hfa Hz%existing_zero. unfold append_snapshot.
  rewrite to_sql_append_fresh; [|by apply stamp_track_keys|].
  2:{ intros r (t & -> & Hin)%list_elem_of_fmap. by apply Hft. }
  rewrite to_sql_append_fresh; [|by apply stamp_artist_keys|].
  2:{ intros r (a & -> & Hin)%list_elem_of_fmap. by apply Hfa. }
  rewrite to_sql_append_fresh; [|apply NoDup_singleton|].
  2:{ by intros e ->%list_elem_of_singleton. }
  unfold hist_app, snapshot, len. cbn. by rewrite !length_fmap.
Qed.

Lemma append_snapshot_conflict today ts tdf adf db :
  (∃ t, t ∈ tdf ∧
     historical_track_key (stamp_track today t) ∈
       historical_track_key <$> historical_tracks db) ∨
  (∃ a, a ∈ adf ∧
     historical_artist_key (stamp_artist today a) ∈
       historical_artist_key <$> historical_artists db) →
  append_snapshot today ts tdf adf db = IntegrityError.
Proof.
  intros Hc. unfold append_snapshot.
  destruct (to_sql_append historical_track_key _ _) as [ht|] eqn:Hht; [|done].
  destruct Hc as [(t & Hin & Hkey)|(a & Hin & Hkey)].
  { rewrite (to_sql_append_conflict _ _ _ (stamp_track today t)) in Hht; [done| |done].
    by apply list_elem_of_fmap_2. }
  by rewrite (to_sql_append_conflict _ _ _ (stamp_artist today a));
    [|by apply list_elem_of_fmap_2|done].
Qed.

(** X12. When the live tables obey their primary keys, an Archiver run is
    stopped by an [IntegrityError] exactly when the live track table is not
    empty, the log has no entry for the day, and yet the historical store
    already holds, for the day, a track row with the track id and window of a
    live track row or an artist row with the name and window of a live artist
    row. In particular a run on a store in which every row has a log entry
    for its day always ends normally. *)
Theorem archiver_raises_iff
    (today : date) (timestamp response : string) (live : LiveDB) (db : HistDB) :
  live_keys_unique live →
  (archiver_main today timestamp response live db = Uncaught ↔
   tracks live ≠ [] ∧ existing today db = 0 ∧
   ((∃ t, t ∈ tracks live ∧
       (today, track_id t, track_time_range t) ∈
         historical_track_key <$> historical_tracks db) ∨
    (∃ a, a ∈ live_artists live ∧
       (today, a_artist_name a, a_time_range a) ∈
         historical_artist_key <$> historical_artists db))) ∧
  (logged db → archiver_main today timestamp response live db ≠ Uncaught).
Proof.
  intros [Hkt Hka].
  assert (archiver_main today timestamp response live db = Uncaught ↔
    tracks live ≠ [] ∧ existing today db = 0 ∧
    ((∃ t, t ∈ tracks live ∧
        (today, track_id t, track_time_range t) ∈
          historical_track_key <$> historical_tracks db) ∨
     (∃ a, a ∈ live_artists live ∧
        (today, a_artist_name a, a_time_range a) ∈
          historical_artist_key <$> historical_artists db))) as Hiff.
  { unfold archiver_main.
    destruct (decide (tracks live = [])) as [Hnil|Hne].
    { rewrite collect_current_data_None by done. split; [done|]. by intros [? _]. }
    destruct (collect_current_data_Some live Hne) as (tdf & adf & Hc & Ht & Ha).
    rewrite Hc.
    destruct (decide (0 < existing today db)) as [Hex|Hz].
    { destruct (decide (lower response = "y")) as [Hy|Hn].
      - rewrite store_historical_data_confirmed;
          [|by rewrite Ht|by rewrite Ha|done|done].
        split; [done|]. intros (_ & ? & _). lia.
      - rewrite store_historical_data_declined by done.
        split; [done|]. intros (_ & ? & _). lia. }
    assert (existing today db = 0) as Hz'.
    { unfold existing in *. lia. }
    unfold store_historical_data. rewrite decide_False by done.
    destruct (decide (Exists (λ t, historical_track_key (stamp_track today t) ∈
                historical_track_key <$> historical_tracks db) tdf)) as [Het|Het].
    { apply Exists_exists in Het as (t & Hin & Hkey).
      rewrite append_snapshot_conflict by (left; by exists t).
      split; [|done]. intros _. split_and!; [done..|].
      left. exists t. split; [by rewrite <- Ht|done]. }
    destruct (decide (Exists (λ a, historical_artist_key (stamp_artist today a) ∈
                historical_artist_key <$> historical_artists db) adf)) as [Hea|Hea].
    { apply Exists_exists in Hea as (a & Hin & Hkey).
      rewrite append_snapshot_conflict by (right; by exists a).
      split; [|done]. intros _. split_and!; [done..|].
      right. exists a. split; [by rewrite <- Ha|done]. }
    rewrite append_snapshot_succeeds; [|by rewrite Ht|by rewrite Ha| | |done].
    - split; [done|]. intros (_ & _ & [(t & Hin & Hkey)|(a & Hin & Hkey)]).
      + destruct Het. apply Exists_exists. exists t. split; [by rewrite Ht|done].
      + destruct Hea. apply Exists_exists. exists a. split; [by rewrite Ha|done].
    - intros t Hin Hkey. apply Het, Exists_exists. by exists t.
    - intros a Hin Hkey. apply Hea, Exists_exists. by exists a. }
  split; [exact Hiff|].
  intros [Hlt Hla] (_ & Hz%existing_zero & [(t & _ & Hkey)|(a & _ & Hkey)])%Hiff.
  - apply list_elem_of_fmap in Hkey as (r & Heq & Hr). apply Hz.
    apply Hlt in Hr. unfold historical_track_key in Heq. by injection Heq as -> _ _.
  - apply list_elem_of_fmap in Hkey as (r & Heq & Hr). apply Hz.
    apply Hla in Hr. unfold historical_artist_key in Heq. by injection Heq as -> _ _.
Qed.

Lemma archiver_raises_iff_witness :
  archiver_main may_first "2024-05-01 18:00:00" "y" after_first_run cut_short_in_may =
    Uncaught ∧
  archiver_main may_first "2024-05-01 18:00:00" "y" after_first_run archived_in_may ≠
    Uncaught.
Proof.
  assert (live_keys_unique after_first_run) as Hkeys
    by (split; apply (bool_decide_unpack _); by vm_compute).
  split.
  - apply (archiver_raises_iff may_first "2024-05-01 18:00:00" "y" after_first_run
             cut_short_in_may Hkeys).
    split_and!; [by vm_compute|by vm_compute|].
    left. eexists. split; vm_compute; left.
  - apply (archiver_raises_iff may_first "2024-05-01 18:00:00" "y" after_first_run
             archived_in_may Hkeys).
    apply logged_snapshot, logged_empty.
Defined.

(** ** Collector, then Archiver *)

Lemma sum_Z_Permutation (l1 l2 : list Z) : l1 ≡ₚ l2 → sum_Z l1 = sum_Z l2.
Proof.
  unfold sum_Z. induction 1; simpl; lia.
Qed.



(** ** Identity and mood scores *)

Lemma Qc_sub_bounds (d : Qc) :
  (0 ≤ d → d ≤ hundred → 0 ≤ hundred - d ∧ hundred - d ≤ hundred)%Qc.
Proof.
  intros H0 H1. split.
  - by apply (proj1 (Qcle_minus_iff _ _)).
  - apply Qcle_minus_iff.
    assert (hundred + - (hundred - d) = d)%Qc as -> by ring. done.
Qed.

Lemma weighted_sum_bounds (a b c d : Qc) :
  (0 ≤ a ∧ a ≤ hundred → 0 ≤ b ∧ b ≤ hundred →
   0 ≤ c ∧ c ≤ hundred → 0 ≤ d ∧ d ≤ hundred →
   0 ≤ a * Q2Qc (3 # 10) + b * Q2Qc (3 # 10) + c * Q2Qc (2 # 10) + d * Q2Qc (2 # 10) ∧
   a * Q2Qc (3 # 10) + b * Q2Qc (3 # 10) + c * Q2Qc (2 # 10) + d * Q2Qc (2 # 10)
     ≤ hundred)%Qc.
Proof.
  intros [Ha0 Ha1] [Hb0 Hb1] [Hc0 Hc1] [Hd0 Hd1]. split.
  - repeat apply Qcplus_nonneg_nonneg; by apply Qcmult_nonneg_nonneg.
  - assert (hundred = hundred * Q2Qc (3 # 10) + hundred * Q2Qc (3 # 10) +
                      hundred * Q2Qc (2 # 10) + hundred * Q2Qc (2 # 10))%Qc as Hsum
      by (apply Qc_is_canon; reflexivity).
    rewrite Hsum at 1.
    repeat apply Qcplus_le_compat; by apply Qcmult_le_compat_r.
Qed.

Lemma ratio_pos (a b : Z) : 0 < a → 0 < b → (0 < Qc_of_Z a / Qc_of_Z b)%Qc.
Proof.
  intros Ha Hb.
  assert (0 < Qc_of_Z a)%Qc as Ha' by (rewrite <- Z2Qc_inj_0; by apply (proj1 (Z2Qc_inj_lt _ _))).
  assert (0 < Qc_of_Z b)%Qc as Hb' by (rewrite <- Z2Qc_inj_0; by apply (proj1 (Z2Qc_inj_lt _ _))).
  unfold Qcdiv. apply Qcmult_pos_pos; [done|by apply Qcinv_pos].
Qed.

Lemma calculate_identity_signals_None tbl :
  calculate_identity_signals tbl = None ↔ tbl = [].
Proof.
  split; [|by intros ->].
  intros Hnone. destruct (decide (tbl = [])) as [|Hne]; [done|].
  destruct (value_counts_nonempty (artist_name <$> tbl)) as [top Htop].
  { by destruct tbl. }
  by rewrite (calculate_identity_signals_Some tbl top Hne Htop) in Hnone.
Qed.

Lemma identity_signals_bounds tbl s :
  calculate_identity_signals tbl = Some s →
  (0 ≤ persistence_score s ∧ persistence_score s ≤ hundred)%Qc ∧
  (0 ≤ niche_percentage s ∧ niche_percentage s ≤ hundred)%Qc ∧
  (0 < artist_dominance s ∧ artist_dominance s ≤ hundred)%Qc ∧
  (0 < artist_diversity s ∧ artist_diversity s ≤ 1)%Qc.
Proof.
  intros Hs.
  assert (tbl ≠ []) as Hne by (intros ->; done).
  destruct (value_counts_nonempty (artist_name <$> tbl)) as [top Htop].
  { by destruct tbl. }
  rewrite (calculate_identity_signals_Some tbl top Hne Htop) in Hs.
  injection Hs as <-.
  cbn [persistence_score niche_percentage artist_dominance artist_diversity].
  pose proof (len_pos _ Hne) as Hlen.
  pose proof (len_pos _ (song_groups_nonempty tbl Hne)) as Hgroups.
  destruct (value_counts_head _ _ Htop) as (Hin & Hcount & Hmax).
  assert (0 < top.2 ≤ len tbl) as Htop2.
  { rewrite Hcount. split.
    - apply len_pos. intros Hnil.
      eapply (filter_nil_not_elem_of _ _ _ Hnil); [|exact Hin]. done.
    - etrans; [apply len_filter_le|]. unfold len. by rewrite length_fmap. }
  assert (0 < len (unique (artist_name <$> tbl)) ≤ len tbl) as Huniq.
  { split.
    - apply len_pos. intros ?%unique_nil_inv. by destruct tbl.
    - etrans; [apply len_unique_le|]. unfold len. by rewrite length_fmap. }
  assert (0 < hundred)%Qc as Hh by done.
  split_and!.
  - apply percentage_bounds; [apply len_filter_le|done].
  - apply percentage_bounds; [apply len_filter_le|done].
  - apply percentage_bounds; [apply len_filter_le|done].
  - apply percentage_bounds; [apply len_filter_le|done].
  - apply Qcmult_pos_pos; [apply ratio_pos; lia|done].
  - apply percentage_bounds; [lia|done].
  - apply ratio_pos; lia.
  - apply ratio_bounds; [lia|done].
Qed.

Lemma identity_score_bounds tbl s :
  calculate_identity_signals tbl = Some s →
  (0 ≤ identity_score_of s ∧ identity_score_of s ≤ hundred)%Qc.
Proof.
  intros (Hp & Hn & [Hd0 Hd1] & [Hv0 Hv1])%identity_signals_bounds.
  unfold identity_score_of. apply weighted_sum_bounds; [done|done| |].
  - apply Qc_sub_bounds; [by apply Qclt_le_weak|done].
  - assert (0 ≤ hundred)%Qc as Hh by done. split.
    + apply Qcmult_nonneg_nonneg; [by apply Qclt_le_weak|done].
    + rewrite <- (Qcmult_1_l hundred) at 2. by apply Qcmult_le_mono_nonneg_r.
Qed.

(** X14. The identity signals raise (a division by zero) exactly on the
    empty track table. On any other table the persistence score and the
    niche percentage lie between 0 and 100, the artist dominance is positive
    and at most 100, the artist diversity is positive and at most 1, and the
    identity score built from them lies between 0 and 100. *)
Theorem identity_signals_in_range (tbl : list Track) :
  (calculate_identity_signals tbl = None ↔ tbl = []) ∧
  ∀ s, calculate_identity_signals tbl = Some s →
    (0 ≤ persistence_score s ∧ persistence_score s ≤ hundred)%Qc ∧
    (0 ≤ niche_percentage s ∧ niche_percentage s ≤ hundred)%Qc ∧
    (0 < artist_dominance s ∧ artist_dominance s ≤ hundred)%Qc ∧
    (0 < artist_diversity s ∧ artist_diversity s ≤ 1)%Qc ∧
    (0 ≤ identity_score_of s ∧ identity_score_of s ≤ hundred)%Qc.
Proof.
  split; [apply calculate_identity_signals_None|].
  intros s Hs.
  destruct (identity_signals_bounds tbl s Hs) as (Hp & Hn & Hd & Hv).
  split_and!; try tauto; by apply (identity_score_bounds tbl s).
Qed.

Lemma identity_signals_in_range_witness :
  ∃ s, calculate_identity_signals four_tracks = Some s ∧
    (0 ≤ identity_score_of s ∧ identity_score_of s ≤ hundred)%Qc.
Proof.
  destruct (calculate_identity_signals four_tracks) as [s|] eqn:Hs;
    [|by vm_compute in Hs].
  exists s. split; [done|].
  by apply (proj2 (identity_signals_in_range four_tracks) s Hs).
Defined.

(** ** The categories of the dashboard *)

(** X15. No artist is ever given the loyalty type Deep Connection: the
    assignment that follows it covers every artist it selects. An artist is a
    Consistent Favorite exactly with at least three rows in at least two
    windows, in a Binge Phase exactly with at least five rows in one window,
    and a Casual Listen otherwise. *)
Theorem deep_connection_never_assigned (tbl : list Track) (artist : string) :
  artist_loyalty_type tbl artist ≠ Deep_Connection ∧
  (artist_loyalty_type tbl artist = Consistent_Favorite ↔
   3 ≤ len (artist_data tbl artist) ∧
   2 ≤ len (unique (track_time_range <$> artist_data tbl artist))) ∧
  (artist_loyalty_type tbl artist = Binge_Phase ↔
   5 ≤ len (artist_data tbl artist) ∧
   len (unique (track_time_range <$> artist_data tbl artist)) = 1) ∧
  (artist_loyalty_type tbl artist = Casual_Listen ↔
   ¬ (3 ≤ len (artist_data tbl artist) ∧
      2 ≤ len (unique (track_time_range <$> artist_data tbl artist))) ∧
   ¬ (5 ≤ len (artist_data tbl artist) ∧
      len (unique (track_time_range <$> artist_data tbl artist)) = 1)).
Proof.
  unfold artist_loyalty_type, loc_assign.
  repeat case_decide; split_and!; try done; try (split; [done|lia]);
    try (split; [lia|done]); try (intros ?; lia); try (split; intros; lia);
    try (split; [intros _|done]; lia); tauto.
Qed.

(** X16. Every song of a non-empty group gets one identity category, decided
    by the number of rows of the song and the popularity of its first row: two
    rows or more make it a Strong Identity below popularity 60 and a Popular
    Favorite from 60 on; a single row makes it a Niche Discovery below
    popularity 40 and Mood-Driven from 40 on. *)
Theorem identity_category_cases (tbl : list Track) (k : string * string) :
  k ∈ song_key <$> tbl →
  ∃ c first,
    song_identity_category tbl k = Some c ∧
    head (filter (λ t, song_key t = k) tbl) = Some first ∧
    1 ≤ period_count tbl k ∧
    (c = Strong_Identity ↔ 2 ≤ period_count tbl k ∧ popularity first < 60) ∧
    (c = Popular_Favorite ↔ 2 ≤ period_count tbl k ∧ 60 ≤ popularity first) ∧
    (c = Niche_Discovery ↔ period_count tbl k = 1 ∧ popularity first < 40) ∧
    (c = Mood_Driven ↔ period_count tbl k = 1 ∧ 40 ≤ popularity first).
Proof.
  intros (t & -> & Ht)%list_elem_of_fmap.
  unfold song_identity_category, period_count.
  destruct (filter (λ t', song_key t' = song_key t) tbl) as [|first g] eqn:Hf.
  { exfalso. eapply (filter_nil_not_elem_of _ _ t Hf); done. }
  exists (loc_assign (len (first :: g) = 1 ∧ popularity first < 40) Niche_Discovery
            (loc_assign (2 ≤ len (first :: g) ∧ 60 ≤ popularity first) Popular_Favorite
               (loc_assign (2 ≤ len (first :: g) ∧ popularity first < 60)
                  Strong_Identity Mood_Driven))), first.
  assert (1 ≤ len (first :: g)) as Hlen by (unfold len; simpl; lia).
  split; [done|]. split; [done|]. split; [done|].
  unfold loc_assign. repeat case_decide; split_and!; split; try done; try lia;
    intros; try lia; try tauto.
Qed.

Lemma identity_category_cases_witness :
  ∃ c first,
    song_identity_category four_tracks ("a", "X") = Some c ∧
    head (filter (λ t, song_key t = ("a", "X")) four_tracks) = Some first ∧
    c = Niche_Discovery ∧ popularity first = 10.
Proof.
  destruct (identity_category_cases four_tracks ("a", "X"))
    as (c & first & Hc & Hfirst & _ & _ & _ & Hniche & _); [vm_compute; left|].
  exists c, first. split; [exact Hc|]. split; [exact Hfirst|].
  vm_compute in Hfirst. injection Hfirst as <-.
  split; [|done]. apply Hniche. by vm_compute.
Defined.

(** ** Release eras *)

Lemma len_filter_disjoint {A} (P Q : A → Prop) `{!∀ x, Decision (P x)}
    `{!∀ x, Decision (Q x)} (l : list A) :
  (∀ x, P x → Q x → False) →
  len (filter (λ x, P x ∨ Q x) l) = len (filter P l) + len (filter Q l).
Proof.
  intros Hdis. unfold len. induction l as [|x l IH]; [done|].
  rewrite !filter_cons.
  destruct (decide (P x)) as [Hp|Hp], (decide (Q x)) as [Hq|Hq];
    [by destruct (Hdis x)|..];
    [rewrite decide_True by tauto|rewrite decide_True by tauto
    |rewrite decide_False by tauto]; simpl; lia.
Qed.

(** Counting per distinct value counts every element once. *)
Lemma sum_counts {A} `{EqDecision A} (u l : list A) :
  NoDup u →
  sum_Z ((λ a, len (filter (λ b, b = a) l)) <$> u) = len (filter (λ b, b ∈ u) l).
Proof.
  induction u as [|a u IH]; intros Hnd.
  - rewrite filter_none; [done|]. intros x _ Hx. by apply elem_of_nil in Hx.
  - apply NoDup_cons in Hnd as [Ha Hnd]. rewrite fmap_cons.
    change (sum_Z (?x :: ?xs)) with (x + sum_Z xs). rewrite IH by done.
    rewrite <- len_filter_disjoint by (intros x -> Hx; done).
    unfold len. do 2 f_equal. apply list_filter_iff. intros x.
    rewrite elem_of_cons. tauto.
Qed.

Lemma sum_counts_unique {A} `{EqDecision A} (l : list A) :
  sum_Z ((λ a, len (filter (λ b, b = a) l)) <$> unique l) = len l.
Proof.
  rewrite sum_counts by apply NoDup_unique.
  rewrite filter_all; [done|]. intros x Hx. by apply elem_of_unique.
Qed.

(** X17. The era table counts every row with a release year exactly once:
    its counts add up to the number of such rows. Each era is listed at most
    once, only with a count of at least one, which is the number of dated
    rows whose year falls in the era (before 1980, the four decades from
    1980 to 2019, 2020 and later), and no listed era has a larger count than
    one listed before it. *)
Theorem era_analysis_sound (to_year : string → option Z) (tbl : list Track) :
  sum_Z (snd <$> era_analysis to_year tbl) = len (release_years to_year tbl) ∧
  NoDup (fst <$> era_analysis to_year tbl) ∧
  (∀ e n, (e, n) ∈ era_analysis to_year tbl →
     1 ≤ n ∧
     n = len (filter (era_years e) (release_years to_year tbl))) ∧
  (∀ (i j : nat) x y,
     era_analysis to_year tbl !! i = Some x →
     era_analysis to_year tbl !! j = Some y →
     (i < j)%nat → y.2 ≤ x.2).
Proof.
  unfold era_analysis.
  set (years := release_years to_year tbl).
  set (eras := categorize_era <$> years).
  set (entries := (λ e, (e, len (filter (λ x, x = e) eras))) <$> unique eras).
  pose proof (merge_sort_Permutation era_count_desc entries) as Hperm.
  split_and!.
  - rewrite (sum_Z_Permutation _ (snd <$> entries)) by (by rewrite Hperm).
    unfold entries. rewrite <- list_fmap_compose.
    change (snd ∘ _) with (λ e : era, len (filter (λ x, x = e) eras)).
    rewrite sum_counts_unique. unfold eras, len. by rewrite length_fmap.
  - rewrite Hperm.
    assert (fst <$> entries = unique eras) as ->; [|apply NoDup_unique].
    unfold entries. generalize (unique eras). intros u.
    induction u as [|e u IH]; [done|]. rewrite !fmap_cons. by f_equal.
  - intros e n Hin. rewrite Hperm in Hin.
    apply list_elem_of_fmap in Hin as (e' & [= -> ->] & He).
    apply (proj1 (elem_of_unique _ _)) in He. split.
    + assert (0 < len (filter (λ x, x = e') eras)) as Hpos; [|lia].
      apply len_pos. intros Hnil.
      eapply (filter_nil_not_elem_of _ _ e' Hnil); done.
    + unfold eras. rewrite filter_fmap_len. unfold len. do 2 f_equal.
      apply list_filter_iff. intros year. unfold categorize_era, era_years.
      destruct e'; repeat case_decide; split; intros; try done; lia.
  - intros i j x y Hi Hj Hij.
    pose proof (StronglySorted_merge_sort era_count_desc entries) as Hsorted.
    rewrite <- (take_drop j (merge_sort era_count_desc entries)) in Hsorted.
    change (era_count_desc x y).
    apply (StronglySorted_app_1_elem_of _ _ _ _ _ Hsorted).
    + apply list_elem_of_lookup. exists i. by rewrite lookup_take_lt.
    + apply list_elem_of_lookup. exists 0%nat. rewrite lookup_drop.
      by rewrite Nat.add_0_r.
Qed.

(** ** Mood signals *)

Lemma finite_values_Finite {A} (f : A → Qc) (l : list A) :
  finite_values ((λ x, Finite (f x)) <$> l) = f <$> l.
Proof.
  unfold finite_values. induction l as [|x l IH]; [done|].
  rewrite !fmap_cons. cbn. by rewrite IH.
Qed.

Lemma sum_Qc_indicator {A} (P : A → Prop) `{!∀ x, Decision (P x)} (l : list A) :
  sum_Qc ((λ x, if decide (P x) then 1 else 0)%Qc <$> l) = Qc_of_Z (len (filter P l)).
Proof.
  induction l as [|x l IH]; [by apply Qc_is_canon|].
  rewrite fmap_cons, filter_cons. change (sum_Qc (?q :: ?qs)) with (q + sum_Qc qs)%Qc.
  rewrite IH. case_decide.
  - unfold len. rewrite length_cons, Nat2Z.inj_succ, <- Z.add_1_l.
    by rewrite Z2Qc_inj_add.
  - apply Qcplus_0_l.
Qed.

Lemma length_omap_le {A B} (f : A → option B) (l : list A) :
  (length (omap f l) ≤ length l)%nat.
Proof.
  induction l as [|x l IH]; [done|].
  change (omap f (x :: l)) with (match f x with Some y => y :: omap f l | None => omap f l end).
  destruct (f x); simpl; lia.
Qed.

(** X18. The mood signals of a table: the era diversity is the number of
    distinct release years that the date parser reads, at most the number of
    rows; the explicit ratio is NaN on the empty table and otherwise the share
    of explicit rows times 100, between 0 and 100; and the ranking volatility
    is NaN when no song has two rows. *)
Theorem mood_signals_shape
    (std : list Z → pyfloat) (to_year : string → option Z) (tbl : list Track) :
  era_diversity (calculate_mood_signals std to_year tbl) =
    len (unique (release_years to_year tbl)) ∧
  0 ≤ era_diversity (calculate_mood_signals std to_year tbl) ≤ len tbl ∧
  (explicit_ratio (calculate_mood_signals std to_year tbl) = NaN ↔ tbl = []) ∧
  (tbl ≠ [] →
   explicit_ratio (calculate_mood_signals std to_year tbl) =
     Finite (Qc_of_Z (len (filter (λ t, explicit t = true) tbl)) / Qc_of_Z (len tbl)
             * hundred)%Qc ∧
   (0 ≤ Qc_of_Z (len (filter (λ t, explicit t = true) tbl)) / Qc_of_Z (len tbl)
          * hundred)%Qc ∧
   (Qc_of_Z (len (filter (λ t, explicit t = true) tbl)) / Qc_of_Z (len tbl)
      * hundred ≤ hundred)%Qc) ∧
  ((∀ k, period_count tbl k ≤ 1) →
   ranking_volatility (calculate_mood_signals std to_year tbl) = NaN).
Proof.
  assert (tbl ≠ [] →
    explicit_ratio (calculate_mood_signals std to_year tbl) =
      Finite (Qc_of_Z (len (filter (λ t, explicit t = true) tbl)) / Qc_of_Z (len tbl)
              * hundred)%Qc) as Hratio.
  { intros Hne. unfold calculate_mood_signals. cbn [explicit_ratio].
    unfold series_mean. rewrite finite_values_Finite.
    destruct tbl as [|t tbl']; [done|].
    remember (t :: tbl') as rows eqn:Hrows.
    assert ((λ t, if explicit t then 1 else 0)%Qc <$> rows =
            (λ t, if decide (explicit t = true) then 1 else 0)%Qc <$> rows) as Hind.
    { apply list_fmap_ext. intros _ r _. by destruct (explicit r). }
    rewrite Hind.
    destruct ((λ t, if decide (explicit t = true) then 1 else 0)%Qc <$> rows)
      as [|q qs] eqn:Hqs.
    { apply fmap_nil_inv in Hqs. by subst. }
    rewrite <- Hqs, sum_Qc_indicator. cbn [fmul]. do 3 f_equal.
    unfold len. by rewrite length_fmap. }
  split; [done|]. split; [|split; [|split]].
  - unfold calculate_mood_signals. cbn [era_diversity]. split; [apply len_nonneg|].
    etrans; [apply len_unique_le|]. unfold len.
    pose proof (length_omap_le (λ t, to_year (release_date t)) tbl). lia.
  - split.
    + intros Hnan. destruct (decide (tbl = [])) as [|Hne]; [done|].
      by rewrite (Hratio Hne) in Hnan.
    + by intros ->.
  - intros Hne. split; [by apply Hratio|].
    apply percentage_bounds; [apply len_filter_le|by apply len_pos].
  - apply ranking_volatility_NaN.
Qed.

Lemma mood_signals_shape_witness :
  explicit_ratio (calculate_mood_signals std_example year_of_date four_tracks) =
    Finite 0%Qc ∧
  era_diversity (calculate_mood_signals std_example year_of_date four_tracks) = 1.
Proof.
  destruct (mood_signals_shape std_example year_of_date four_tracks)
    as (Hera & _ & _ & Hratio & _).
  split.
  - destruct Hratio as [-> _]; [done|]. f_equal; apply Qc_is_canon; reflexivity.
  - rewrite Hera. by vm_compute.
Defined.
